(** * recommiter: a shallow embedding of [src/index.ts] and its properties

    The program rewrites a linear commit history onto a fresh branch
    [recommited/<branch>]: the oldest commit is amended in place, every later
    commit is re-created on top of the previously re-created one, with
    signatures drawn from an author pool and, optionally, time stamps moved
    six months forward.

    The embedding follows the source function by function.  [async]
    functions become computations of the monad [M] (state of the repository
    and of the random source, plus exceptions); [try]/[catch] is [try_catch].
    The git backend (nodegit over libgit2) and date-fns are libraries the
    program calls; they are modelled here after their documented contracts,
    each definition saying which call it stands for.

    What the model leaves out or fixes:
    - the calls run one after the other; [repo.checkoutBranch], which the
      source does not await, is taken to have completed before the next
      statement;
    - [HEAD] always points to a branch, references are named by their
      shorthand, and a new object gets an identifier that is not in use;
    - reference names are flat: git stores them as paths and refuses a
      branch [a/b] beside a branch [a]; the properties that depend on the
      destination branch being created assume that no name conflicts with
      it ([no_name_conflict]);
    - the history walk follows first parents; this is the walk of the
      source on histories without merge commits, which the properties about
      the rewritten history assume ([linear]);
    - a signature can always be built (the names and addresses of the pool
      are taken to be well-formed); the repository refuses to read a tree or
      an object it does not have, to move a pointer that is not where the
      caller expects it, and to write an object when its fault schedule says
      so ([faults]: a full disk, a lock held by another process), and
      nothing else;
    - the diffs and the readable trees are two tables of the state; git
      reads the tree of a commit to compute its diff, so the states of an
      actual repository are the ones called [coherent] below;
    - local time is UTC: date-fns works on the local calendar fields, and
      in another time zone the shifted instants differ;
    - [Math.random()] returns a multiple of 2^-53, as the common engines do;
    - what the run prints is not modelled, except the final summary, which
      is the result of [run]; [Git.Repository.open] is the choice of the
      initial state. *)

From Stdlib Require Import ZArith Lia.
From stdpp Require Import base option list strings gmap fin_maps.

Local Open Scope Z_scope.

(* ===================================================================== *)
(** ** JavaScript values used by the program *)
(* ===================================================================== *)

Module JS.

(** ECMAScript [ToInt32] on an integral number: the value modulo 2^32,
    read as a signed 32-bit integer.  [x | 0] is [ToInt32 (trunc x)]. *)
Definition ToInt32 (z : Z) : Z :=
  let k := z mod 2 ^ 32 in
  if 2 ^ 31 <=? k then k - 2 ^ 32 else k.

(** The product of two doubles is the exact product rounded to the nearest
    double, ties to even.  For a non-negative value [p / 2^53] with [p] an
    integer, [round53 p] is the numerator of the rounded value: [p] itself
    when it has at most 53 significant bits, and otherwise [p] with the [k]
    bits below its 53 leading ones rounded away. *)
Definition round53 (p : Z) : Z :=
  let k := Z.log2 p - 52 in
  if k <=? 0 then p
  else
    let q := p / 2 ^ k in
    let r := p mod 2 ^ k in
    let half := 2 ^ (k - 1) in
    (if (half <? r) || ((r =? half) && Z.odd q) then q + 1 else q) * 2 ^ k.

(** The suffix of [s] after its first [n] characters. *)
Fixpoint skip (n : nat) (s : string) : string :=
  match n, s with
  | O, _ => s
  | S _, EmptyString => EmptyString
  | S k, String _ s' => skip k s'
  end.

(** [s.includes(searchString)]: [searchString] occurs somewhere in [s]. *)
Fixpoint includes (s searchString : string) : bool :=
  if String.prefix searchString s then true
  else match s with
       | EmptyString => false
       | String _ s' => includes s' searchString
       end.

(** [s.replace(pattern, replacement)] with a string [pattern] and a
    [replacement] free of [$] patterns: the leftmost occurrence of
    [pattern] is replaced, the rest of [s] is copied. *)
Fixpoint replace (s pattern replacement : string) : string :=
  if String.prefix pattern s
  then replacement +:+ skip (String.length pattern) s
  else match s with
       | EmptyString => EmptyString
       | String c s' => String c (replace s' pattern replacement)
       end.

(** What the specification asks of the message substitution: every
    occurrence replaced, scanning left to right (JavaScript's [replaceAll]).
    Specification side only; the program does not call it. *)
Fixpoint replaceAll_fuel (fuel : nat) (s pattern replacement : string) : string :=
  match fuel with
  | O => s
  | S k =>
      if String.prefix pattern s
      then replacement +:+
           replaceAll_fuel k (skip (String.length pattern) s) pattern replacement
      else match s with
           | EmptyString => EmptyString
           | String c s' => String c (replaceAll_fuel k s' pattern replacement)
           end
  end.

Definition replaceAll (s pattern replacement : string) : string :=
  replaceAll_fuel (S (String.length s)) s pattern replacement.

(** Number of occurrences of [pattern] in [s] (overlapping ones included). *)
Fixpoint occurrences (s pattern : string) : nat :=
  ((if String.prefix pattern s then 1 else 0) +
   match s with
   | EmptyString => 0
   | String _ s' => occurrences s' pattern
   end)%nat.

End JS.

(* ===================================================================== *)
(** ** Dates: the part of [Date] and of date-fns the program uses *)
(* ===================================================================== *)

(** [Date] is part of the language and date-fns an external library; neither
    is in the repository.  Time values are ECMAScript's (milliseconds since
    the epoch), the calendar is the one of ECMA-262 (section "Time Values
    and Time Range": [Day], [DayFromYear], [YearFromTime], [MonthFromTime],
    [DateFromTime], [MakeDay], [MakeDate], [TimeClip]), and the process time
    zone is taken to be UTC, so local time is the time value itself.
    date-fns' [fromUnixTime] multiplies by 1000; its [addMonths] moves the
    month, keeps the time of day and clamps the day of the month to the
    length of the desired month; it does so by building the last day of
    the desired month first, and gives the Invalid Date when that day is
    out of the range of [Date].  [None] is the Invalid Date. *)

Module DateFns.

Definition msPerDay : Z := 86400000.

Definition Day (t : Z) : Z := t / msPerDay.
Definition TimeWithinDay (t : Z) : Z := t mod msPerDay.

Definition is_leap (y : Z) : bool :=
  ((y mod 4 =? 0) && negb (y mod 100 =? 0)) || (y mod 400 =? 0).

Definition DaysInYear (y : Z) : Z := if is_leap y then 366 else 365.

Definition DayFromYear (y : Z) : Z :=
  365 * (y - 1970) + (y - 1969) / 4 - (y - 1901) / 100 + (y - 1601) / 400.

(** The largest year whose first day is not after day [z]: an estimate
    from the mean length of a year, corrected by at most one. *)
Definition YearFromDay (z : Z) : Z :=
  let y := 1970 + z * 400 / 146097 in
  if DayFromYear (y + 1) <=? z then y + 1
  else if z <? DayFromYear y then y - 1
  else y.

Definition YearFromTime (t : Z) : Z := YearFromDay (Day t).

(** [InLeapYear], as a number of days. *)
Definition leap_day (y : Z) : Z := if is_leap y then 1 else 0.

Definition DayWithinYear (t : Z) : Z := Day t - DayFromYear (YearFromTime t).

(** Day within the year on which month [m] (from 0) starts; month 12 is
    the start of the next year. *)
Definition month_start (leap m : Z) : Z :=
  if m <=? 0 then 0 else if m =? 1 then 31 else if m =? 2 then 59 + leap
  else if m =? 3 then 90 + leap else if m =? 4 then 120 + leap
  else if m =? 5 then 151 + leap else if m =? 6 then 181 + leap
  else if m =? 7 then 212 + leap else if m =? 8 then 243 + leap
  else if m =? 9 then 273 + leap else if m =? 10 then 304 + leap
  else if m =? 11 then 334 + leap else 365 + leap.

Definition MonthFromDay (leap dwy : Z) : Z :=
  if dwy <? 31 then 0 else if dwy <? 59 + leap then 1
  else if dwy <? 90 + leap then 2 else if dwy <? 120 + leap then 3
  else if dwy <? 151 + leap then 4 else if dwy <? 181 + leap then 5
  else if dwy <? 212 + leap then 6 else if dwy <? 243 + leap then 7
  else if dwy <? 273 + leap then 8 else if dwy <? 304 + leap then 9
  else if dwy <? 334 + leap then 10 else 11.

(** [getMonth()]: months are counted from 0. *)
Definition MonthFromTime (t : Z) : Z :=
  MonthFromDay (leap_day (YearFromTime t)) (DayWithinYear t).

(** [getDate()] *)
Definition DateFromTime (t : Z) : Z :=
  DayWithinYear t - month_start (leap_day (YearFromTime t)) (MonthFromTime t) + 1.

Definition DaysInMonth (y m : Z) : Z :=
  month_start (leap_day y) (m + 1) - month_start (leap_day y) m.

Definition MakeDay (year month date : Z) : Z :=
  let ym := year + month / 12 in
  let mn := month mod 12 in
  DayFromYear ym + month_start (leap_day ym) mn + date - 1.

Definition MakeDate (day time : Z) : Z := day * msPerDay + time.

(** Range of valid time values. *)
Definition maxTime : Z := 8640000000000000.

Definition Date := option Z.

Definition TimeClip (t : Z) : Date :=
  if Z.abs t <=? maxTime then Some t else None.

(** [fromUnixTime(unixTime)] is [new Date(unixTime * 1000)]. *)
Definition fromUnixTime (unixTime : Z) : Date := TimeClip (unixTime * 1000).

(** The time value [addMonths] aims at: the desired month, the day of the
    month clamped to its length, the same time of day. *)
Definition addMonths_ms (t amount : Z) : Z :=
  let desiredMonth := MonthFromTime t + amount in
  let year := YearFromTime t + desiredMonth / 12 in
  let daysInMonth := DaysInMonth year (desiredMonth mod 12) in
  MakeDate (MakeDay (YearFromTime t) desiredMonth
              (Z.min daysInMonth (DateFromTime t)))
           (TimeWithinDay t).

(** [endOfDesiredMonth.setMonth(date.getMonth() + amount + 1, 0)]: day 0 of
    the month after the desired one, which is the last day of the desired
    month. *)
Definition endOfDesiredMonth (t amount : Z) : Date :=
  TimeClip (MakeDate (MakeDay (YearFromTime t) (MonthFromTime t + amount + 1) 0)
              (TimeWithinDay t)).

(** [addMonths(date, amount)]:
    [if (!amount) return date;
     if (dayOfMonth >= daysInMonth) return endOfDesiredMonth;
     date.setFullYear(endOfDesiredMonth.getFullYear(),
                      endOfDesiredMonth.getMonth(), dayOfMonth)].
    On an Invalid [endOfDesiredMonth] the fields are [NaN], the comparison
    is false and [setFullYear] makes the date Invalid. *)
Definition addMonths (date : Date) (amount : Z) : Date :=
  match date with
  | None => None
  | Some t =>
      if amount =? 0 then Some t
      else
        match endOfDesiredMonth t amount with
        | None => None
        | Some e =>
            let dayOfMonth := DateFromTime t in
            let daysInMonth := DateFromTime e in
            if daysInMonth <=? dayOfMonth then Some e
            else TimeClip (MakeDate (MakeDay (YearFromTime e) (MonthFromTime e) dayOfMonth)
                             (TimeWithinDay t))
        end
  end.

(** The specification's words, read on the UTC calendar: the instant [s]
    (Unix seconds) is exactly six calendar months after the instant [t]
    when it has the same time of day, its month is the sixth month after
    [t]'s, and its day of the month is [t]'s, or the last day of its month
    when that month is shorter. *)
Definition six_calendar_months_after (t s : Z) : Prop :=
  let T := t * 1000 in
  let S := s * 1000 in
  TimeWithinDay S = TimeWithinDay T /\
  YearFromTime S * 12 + MonthFromTime S = YearFromTime T * 12 + MonthFromTime T + 6 /\
  DateFromTime S = Z.min (DaysInMonth (YearFromTime S) (MonthFromTime S)) (DateFromTime T).

End DateFns.

(* ===================================================================== *)
(** ** Data model *)
(* ===================================================================== *)

(** Object identifiers ([Oid.tostrS()]); tree objects are named by theirs. *)
Definition Oid := N.
Definition Tree := Oid.

(** [type Role = 'backend' | 'frontend'] *)
Inductive Role := backend | frontend.

#[global] Instance Role_eq_dec : EqDecision Role.
Proof. solve_decision. Defined.

(** An entry of [config/authors.json]. *)
Record Author := mkAuthor {
  name : string;
  email : string;
  role : Role;
}.

(** [Git.Signature]: identity, instant in Unix seconds, UTC offset in
    minutes. *)
Record Signature := mkSignature {
  sig_name : string;
  sig_email : string;
  sig_time : Z;
  sig_offset : Z;
}.

(** [Git.Signature.create(name, email, time, offset)] *)
Definition Signature_create (n e : string) (time offset : Z) : Signature :=
  mkSignature n e time offset.

(** The content of a commit object. *)
Record CommitData := mkCommitData {
  obj_author : Signature;
  obj_committer : Signature;
  obj_message : string;
  obj_tree : Tree;
  obj_parents : list Oid;
}.

(** [Git.Commit]: a commit object looked up in the repository, with its
    identifier. *)
Record Commit := mkCommit {
  cid : Oid;
  data : CommitData;
}.

(** [c.author()], [c.committer()], [c.message()], the tree and the parents
    of [c]. *)
Definition author (c : Commit) : Signature := obj_author (data c).
Definition committer (c : Commit) : Signature := obj_committer (data c).
Definition message (c : Commit) : string := obj_message (data c).
Definition tree (c : Commit) : Tree := obj_tree (data c).
Definition parents (c : Commit) : list Oid := obj_parents (data c).

(** [type CommitStat], [type CommitStats] *)
Record CommitStat := mkCommitStat {
  stat_author : string;
  stat_time : DateFns.Date;
}.

Record CommitStats := mkCommitStats {
  id : Oid;
  old : CommitStat;
  new : CommitStat;
}.

(** [type Opts]: each option may be left out. *)
Record Opts := mkOpts {
  branch : option string;
  changeTime : option bool;
  keepAuthor : option bool;
}.

(** What the run prints at the end: the number of modified commits and the
    commits per author name, before and after. *)
Record Report := mkReport {
  modified : nat;
  by_old : gmap string nat;
  by_new : gmap string nat;
}.

(** Exceptions: a rejection by the git backend, or a JavaScript
    [TypeError]. *)
Inductive Error :=
| GitError (what : string)
| TypeError (what : string).

Inductive Result (A : Type) :=
| Ok (a : A)
| Err (e : Error).

Arguments Ok {A} a.
Arguments Err {A} e.

(** The state a run works on: the repository and the values [Math.random]
    will return.
    - [refs]: branch pointers, by the shorthand [getBranch] is called with
      ([master], [origin/master], [recommited/master]);
    - [HEAD]: the branch [HEAD] points to;
    - [odb]: the commit objects;
    - [trees]: the tree objects that can be read;
    - [diffs]: for the commits whose diff can be computed, the new-file
      paths of the patches of each of its diffs;
    - [random]: future results of [Math.random()], as numerators over
      2^53;
    - [faults]: the fault schedule of the object database: for the writes
      to come, in order, whether the write fails ([true]); past its end no
      write fails. *)
Record World := mkWorld {
  refs : gmap string Oid;
  HEAD : string;
  odb : gmap Oid CommitData;
  trees : gset Oid;
  diffs : gmap Oid (list (list string));
  random : list Z;
  faults : list bool;
}.

Definition set_refs (f : gmap string Oid -> gmap string Oid) (w : World) : World :=
  mkWorld (f (refs w)) (HEAD w) (odb w) (trees w) (diffs w) (random w) (faults w).
Definition set_HEAD (h : string) (w : World) : World :=
  mkWorld (refs w) h (odb w) (trees w) (diffs w) (random w) (faults w).
Definition set_odb (f : gmap Oid CommitData -> gmap Oid CommitData) (w : World)
  : World :=
  mkWorld (refs w) (HEAD w) (f (odb w)) (trees w) (diffs w) (random w) (faults w).
Definition set_random (r : list Z) (w : World) : World :=
  mkWorld (refs w) (HEAD w) (odb w) (trees w) (diffs w) r (faults w).
Definition set_faults (f : list bool) (w : World) : World :=
  mkWorld (refs w) (HEAD w) (odb w) (trees w) (diffs w) (random w) f.

(* ===================================================================== *)
(** ** The monad of asynchronous computations *)
(* ===================================================================== *)

(** A promise either resolves or rejects; the effects performed before a
    rejection stay. *)
Definition M (A : Type) : Type := World -> Result A * World.

Definition ret {A} (a : A) : M A := fun w => (Ok a, w).
Definition throw {A} (e : Error) : M A := fun w => (Err e, w).

Definition bind {A B} (m : M A) (k : A -> M B) : M B :=
  fun w =>
    match m w with
    | (Ok a, w') => k a w'
    | (Err e, w') => (Err e, w')
    end.

(** [try { m } catch (err) { handler err }] *)
Definition try_catch {A} (m : M A) (handler : Error -> M A) : M A :=
  fun w =>
    match m w with
    | (Ok a, w') => (Ok a, w')
    | (Err e, w') => handler e w'
    end.

Declare Scope js_scope.
Delimit Scope js_scope with js.
Notation "x <- m ;; k" := (bind m (fun x => k))
  (at level 100, m at next level, right associativity) : js_scope.
Notation "m ;;; k" := (bind m (fun _ => k))
  (at level 100, right associativity) : js_scope.
Local Open Scope js_scope.

(** [arr.reduce(async (acc, c) => ..., Promise.resolve(init))]: every
    callback awaits the accumulator first, so the callbacks run in order and
    a rejection of one rejects all the later ones. *)
Fixpoint reduce {A B} (f : A -> B -> M A) (arr : list B) (acc : A) : M A :=
  match arr with
  | [] => ret acc
  | c :: rest => acc' <- f acc c ;; reduce f rest acc'
  end.

(* ===================================================================== *)
(** ** The git backend (nodegit), after its documented contract *)
(* ===================================================================== *)

(** A [Git.Reference] is represented by its name. *)
Abbreviation Reference := string.

(** [repo.getBranch(name)]: look the shorthand up; rejects when there is no
    such reference. *)
Definition getBranch (shorthand : string) : M Reference :=
  fun w =>
    match refs w !! shorthand with
    | Some _ => (Ok shorthand, w)
    | None => (Err (GitError ("no reference found for shorthand " +:+ shorthand)), w)
    end.

(** [ref.resolve()]: a branch is a direct reference, it resolves to
    itself. *)
Definition resolve (r : Reference) : M Reference := ret r.

(** [ref.toString()] *)
Definition toString (r : Reference) : string := r.

(** The name [update_ref] stands for: ["HEAD"] is the branch [HEAD] points
    to. *)
Definition target_of (update_ref : string) (w : World) : string :=
  if decide (update_ref = "HEAD") then HEAD w else update_ref.

(** History of a commit along first parents, newest first.  The fuel is the
    number of objects, which bounds the length of any chain of distinct
    commits. *)
Fixpoint revwalk (fuel : nat) (objs : gmap Oid CommitData) (start : Oid)
  : list Commit :=
  match fuel with
  | O => []
  | S k =>
      match objs !! start with
      | None => []
      | Some d =>
          mkCommit start d ::
          match obj_parents d with
          | [] => []
          | p :: _ => revwalk k objs p
          end
      end
  end.

(** [walker.pushRef(ref)] followed by [walker.getCommitsUntil(() => true)]:
    the commits reachable from the reference, newest first (linear
    histories). *)
Definition getCommitsUntil (ref : Reference) : M (list Commit) :=
  fun w =>
    match refs w !! ref with
    | Some tip => (Ok (revwalk (size (odb w)) (odb w) tip), w)
    | None => (Err (GitError ("reference not found: " +:+ ref)), w)
    end.

(** [repo.createBranch(name, commit, force)].  With [force] an existing
    branch is overwritten, unless it is the branch [HEAD] points to, which
    libgit2 refuses to update. *)
Definition createBranch (name : string) (commit : option Commit) (force : bool)
  : M Reference :=
  fun w =>
    match commit with
    | None => (Err (TypeError "commit is undefined"), w)
    | Some c =>
        match refs w !! name with
        | Some _ =>
            if negb force
            then (Err (GitError "a branch with that name already exists"), w)
            else if decide (HEAD w = name)
            then (Err (GitError "cannot force update the current HEAD branch"), w)
            else (Ok name, set_refs (insert name (cid c)) w)
        | None => (Ok name, set_refs (insert name (cid c)) w)
        end
    end.

(** [ref.delete()] *)
Definition delete_ref (r : Reference) : M unit :=
  fun w => (Ok tt, set_refs (delete r) w).

(** [repo.checkoutBranch(ref)]: [HEAD] is pointed at the branch.  The source
    does not await the call; it is taken to have completed before the next
    step. *)
Definition checkoutBranch (r : Reference) : M unit :=
  fun w => (Ok tt, set_HEAD r w).

(** [c.getTree()]: rejects when the tree object cannot be read. *)
Definition getTree (c : Commit) : M Tree :=
  fun w =>
    if decide (tree c ∈ trees w) then (Ok (tree c), w)
    else (Err (GitError "tree object not found"), w).

(** [repo.getCommit(id)] *)
Definition getCommit (i : Oid) : M Commit :=
  fun w =>
    match odb w !! i with
    | Some d => (Ok (mkCommit i d), w)
    | None => (Err (GitError "commit object not found"), w)
    end.

(** [repo.getHeadCommit()] *)
Definition getHeadCommit : M Commit :=
  fun w =>
    match refs w !! HEAD w with
    | Some tip => getCommit tip w
    | None => (Err (GitError "HEAD does not point to a commit"), w)
    end.

(** A new object gets an identifier no object has yet. *)
Definition new_oid (w : World) : Oid := fresh (dom (odb w)).

(** Writing an object takes the next entry of the fault schedule: the write
    is refused when the entry says so. *)
Definition refuses_write (w : World) : bool :=
  match faults w with
  | true :: _ => true
  | _ => false
  end.

Definition next_write (w : World) : World := set_faults (List.tl (faults w)) w.

(** [c.amend(update_ref, author, committer, encoding, message, tree)]: a
    copy of [c] with the given fields and the parents of [c]; [c] has to be
    the tip of [update_ref], which is moved to the copy once the copy is
    written. *)
Definition amend (c : Commit) (update_ref : string) (a cm : Signature)
    (msg : string) (t : Tree) : M Oid :=
  fun w =>
    let b := target_of update_ref w in
    match refs w !! b with
    | Some tip =>
        if decide (tip = cid c)
        then if refuses_write w
             then (Err (GitError "failed to write the object"), next_write w)
             else let i := new_oid w in
                  (Ok i, set_refs (insert b i)
                           (set_odb (insert i (mkCommitData a cm msg t (parents c)))
                              (next_write w)))
        else (Err (GitError "commit to amend is not the tip of the given branch"), w)
    | None => (Err (GitError "reference not found"), w)
    end.

(** [repo.createCommit(update_ref, author, committer, message, tree,
    parents)]: when [update_ref] exists, the first parent has to be its tip;
    the commit is written, and the reference is moved (or created) to point
    at it. *)
Definition createCommit (update_ref : string) (a cm : Signature) (msg : string)
    (t : Tree) (ps : list Commit) : M Oid :=
  fun w =>
    let b := target_of update_ref w in
    let i := new_oid w in
    let written : Result Oid * World :=
      if refuses_write w
      then (Err (GitError "failed to write the object"), next_write w)
      else (Ok i, set_refs (insert b i)
                    (set_odb (insert i (mkCommitData a cm msg t (cid <$> ps)))
                       (next_write w))) in
    match refs w !! b with
    | Some tip =>
        match ps with
        | p :: _ =>
            if decide (tip = cid p) then written
            else (Err (GitError "current tip is not the first parent"), w)
        | [] => (Err (GitError "current tip is not the first parent"), w)
        end
    | None => written
    end.

(* ===================================================================== *)
(** ** The program, [src/index.ts] *)
(* ===================================================================== *)

Definition FRONTEND_LABEL : string := "client".
Definition BACKEND_LABEL : string := "server".

(** [const tail = (arr) => arr[arr.length - 1]]; [undefined] on the empty
    array. *)
Definition tail {T} (arr : list T) : option T :=
  match arr with
  | [] => None
  | _ => arr !! (length arr - 1)%nat
  end.

(** [Math.random()]: the next value of the random source, a multiple of
    2^-53 in [0, 1), given by its numerator. *)
Definition Math_random : M Z :=
  fun w =>
    match random w with
    | [] => (Ok 0, w)
    | u :: us => (Ok (u mod 2 ^ 53), set_random us w)
    end.

(** [arr[(Math.random() * arr.length) | 0]]: the product is rounded to a
    double, [| 0] takes its integer part modulo 2^32; an index outside the
    array gives [undefined]. *)
Definition randomSelect {A} (arr : list A) : M (option A) :=
  u <- Math_random ;;
  let i := JS.ToInt32 (JS.round53 (u * Z.of_nat (length arr)) / 2 ^ 53) in
  ret (if i <? 0 then None else arr !! Z.to_nat i).

(** [Result]s are lifted to computations that do not touch the state. *)
Definition lift {A} (r : Result A) : M A := fun w => (r, w).

(** [(valueOf() / 1000) | 0] of a date; the Invalid Date has value [NaN],
    and [NaN | 0] is [0]. *)
Definition seconds_or0 (d : DateFns.Date) : Z :=
  match d with
  | Some ms => JS.ToInt32 (Z.quot ms 1000)
  | None => 0
  end.

(** [const operateTime = (unixTime) =>
      (addMonths(fromUnixTime(unixTime), 6).valueOf() / 1000) | 0] *)
Definition operateTime (unixTime : Z) : Z :=
  seconds_or0 (DateFns.addMonths (DateFns.fromUnixTime unixTime) 6).

(** The instants and signatures both the first-commit block (lines 141-152)
    and the reducer (lines 183-194) compute.  With [keepAuthor] the author
    is not looked at; without it, reading [author.name] of [undefined]
    throws. *)
Definition authorTime (changeTime : bool) (c : Commit) : Z :=
  if changeTime then operateTime (sig_time (author c)) else sig_time (author c).

Definition commiterTime (changeTime : bool) (c : Commit) : Z :=
  if changeTime then operateTime (sig_time (committer c)) else sig_time (committer c).

Definition authorSignature (changeTime keepAuthor : bool) (a : option Author)
    (c : Commit) : Result Signature :=
  if keepAuthor then Ok (author c)
  else match a with
       | Some a => Ok (Signature_create (name a) (email a)
                         (authorTime changeTime c) (sig_offset (author c)))
       | None => Err (TypeError "cannot read property name of undefined")
       end.

Definition commiterSignature (changeTime keepAuthor : bool) (a : option Author)
    (c : Commit) : Result Signature :=
  if keepAuthor then Ok (committer c)
  else match a with
       | Some a => Ok (Signature_create (name a) (email a)
                         (commiterTime changeTime c) (sig_offset (committer c)))
       | None => Err (TypeError "cannot read property name of undefined")
       end.

(** The record built at lines 165-175 and 212-222. *)
Definition commitStats (newCommit : Oid) (c : Commit) (authorSig : Signature)
  : CommitStats :=
  mkCommitStats newCommit
    (mkCommitStat (sig_name (author c)) (DateFns.fromUnixTime (sig_time (author c))))
    (mkCommitStat (sig_name authorSig) (DateFns.fromUnixTime (sig_time authorSig))).

(** [(acc[k] || 0) + 1] stored under [k]. *)
Definition count_author (k : string) (acc : gmap string nat) : gmap string nat :=
  <[k := (default 0%nat (acc !! k) + 1)%nat]> acc.

(** The final [reduce] of lines 238-251. *)
Definition commitsByAuthors (modifiedCommits : list CommitStats)
  : gmap string nat * gmap string nat :=
  foldl (fun acc c => (count_author (stat_author (old c)) acc.1,
                       count_author (stat_author (new c)) acc.2))
        (∅, ∅) modifiedCommits.

Section Program.

(** [import authors from '../config/authors.json'] *)
Variable authors : list Author.

(** [getRandomAuthor(role?)] *)
Definition getRandomAuthor (r : option Role) : M (option Author) :=
  match r with
  | None => randomSelect authors
  | Some r => randomSelect (filter (fun a => role a = r) authors)
  end.

(** [getCommitFiles(c)]: the paths of the first diff, [v[0]]; rejects when
    the diff cannot be computed. *)
Definition getCommitFiles (c : Commit) : M (option (list string)) :=
  fun w =>
    match diffs w !! cid c with
    | Some v => (Ok (v !! 0%nat), w)
    | None => (Err (GitError "diff cannot be computed"), w)
    end.

(** [determineAuthorForCommit(c)] *)
Definition determineAuthorForCommit (c : Commit) : M (option Author) :=
  commitFiles <- getCommitFiles c ;;
  match commitFiles with
  | None => throw (TypeError "cannot read property filter of undefined")
  | Some commitFiles =>
      let frontendChangesAmount :=
        length (filter (fun path => JS.includes path FRONTEND_LABEL = true) commitFiles) in
      let backendChangesAmount :=
        length (filter (fun path => JS.includes path BACKEND_LABEL = true) commitFiles) in
      if (frontendChangesAmount <? backendChangesAmount)%nat
      then getRandomAuthor (Some backend)
      else if (backendChangesAmount <? frontendChangesAmount)%nat
      then getRandomAuthor (Some frontend)
      else getRandomAuthor None
  end.

(** Lines 138-176: the first commit is amended in place. *)
Definition amendFirstCommit (changeTime keepAuthor : bool)
    (firstCommit : option Commit) : M CommitStats :=
  match firstCommit with
  | None => throw (TypeError "cannot read property getDiff of undefined")
  | Some c =>
      a <- determineAuthorForCommit c ;;
      authorSig <- lift (authorSignature changeTime keepAuthor a c) ;;
      commiterSig <- lift (commiterSignature changeTime keepAuthor a c) ;;
      t <- getTree c ;;
      newCommit <- amend c "HEAD" authorSig commiterSig (message c) t ;;
      ret (commitStats newCommit c authorSig)
  end.

(** Lines 197-224, the body of the [try]: the commit is created on top of
    the last rewritten one, or of the [HEAD] commit when there is none. *)
Definition attempt (commits : list CommitStats) (c : Commit)
    (authorSig commiterSig : Signature) : M (list CommitStats) :=
  currentCommit <- match tail commits with
                   | Some lastCommit => getCommit (id lastCommit)
                   | None => getHeadCommit
                   end ;;
  t <- getTree c ;;
  newCommit <- createCommit "HEAD" authorSig commiterSig
                 (JS.replace (message c) "MAKHROVYI" "AnotherOneProject")
                 t [currentCommit] ;;
  ret (commits ++ [commitStats newCommit c authorSig]).

(** Lines 178-231: the callback of [commits.reduce]. *)
Definition recommit (changeTime keepAuthor : bool)
    (commits : list CommitStats) (c : Commit) : M (list CommitStats) :=
  a <- determineAuthorForCommit c ;;
  authorSig <- lift (authorSignature changeTime keepAuthor a c) ;;
  commiterSig <- lift (commiterSignature changeTime keepAuthor a c) ;;
  try_catch (attempt commits c authorSig commiterSig)
            (fun err => ret commits).

(** Lines 85-110: the source branch, then [origin/<branch>].  A value is
    falsy when it is [null] or the empty string. *)
Definition falsy (s : option string) : bool :=
  match s with
  | None => true
  | Some s => bool_decide (s = "")
  end.

Definition resolveBranch (name : string) : M string :=
  b <- getBranch name ;;
  r <- resolve b ;;
  ret (toString r).

Definition findOriginalBranch (branchName : string) : M (option string) :=
  originalBranch <- try_catch (r <- resolveBranch branchName ;; ret (Some r))
                              (fun err => ret None) ;;
  if falsy originalBranch
  then try_catch (r <- resolveBranch ("origin/" +:+ branchName) ;; ret (Some r))
                 (fun err => ret originalBranch)
  else ret originalBranch.

(** Lines 118-135: the destination branch is created, a second time after
    deleting it when the first creation throws, and checked out. *)
Definition newBranchName (branchName : string) : string :=
  "recommited/" +:+ branchName.

Definition materialize (name : string) (firstCommit : option Commit) : M Reference :=
  newBranch <- try_catch (createBranch name firstCommit true)
                 (fun err =>
                    b <- getBranch name ;;
                    delete_ref b ;;;
                    createBranch name firstCommit true) ;;
  checkoutBranch newBranch ;;;
  ret newBranch.

(** [run(repositoryName, options)].  The state is the repository at
    [repositoryName]; the result is the summary the run prints, or [None]
    when it returns early. *)
Definition run (repositoryName : string) (options : Opts) : M (option Report) :=
  let branchName := default "master" (branch options) in
  let changeTime := default false (changeTime options) in
  let keepAuthor := default false (keepAuthor options) in
  (* lines 75-80: console.log(await repo.getBranch(branchName)...) *)
  resolveBranch branchName ;;;
  originalBranch <- findOriginalBranch branchName ;;
  match originalBranch with
  | None => ret None
  | Some originalBranch =>
      if bool_decide (originalBranch = "") then ret None
      else
        found <- getCommitsUntil originalBranch ;;
        let '(firstCommit, commits) :=
          match rev found with
          | [] => (None, [])
          | c :: cs => (Some c, cs)
          end in
        (* lines 131-133: a reference is an object, which is never falsy *)
        materialize (newBranchName branchName) firstCommit ;;;
        newFirstCommit <- amendFirstCommit changeTime keepAuthor firstCommit ;;
        newCommits <- reduce (recommit changeTime keepAuthor) commits [] ;;
        let modifiedCommits := newFirstCommit :: newCommits in
        let by_authors := commitsByAuthors modifiedCommits in
        ret (Some (mkReport (length modifiedCommits) by_authors.1 by_authors.2))
  end.

End Program.

(* ===================================================================== *)
(** ** Notions used to state the properties *)
(* ===================================================================== *)

(** The commit the next rewritten commit is created on: the one of the last
    record, or the [HEAD] commit when there is no record yet
    (lines 197-201). *)
Definition parent_of (commits : list CommitStats) (w : World) : option Oid :=
  match tail commits with
  | Some lastCommit => Some (id lastCommit)
  | None => refs w !! HEAD w
  end.

(** Every record's commit is in [objs] and has as its only parent the
    commit of the record before it, the first one having [prev]. *)
Fixpoint linked (objs : gmap Oid CommitData) (prev : option Oid)
    (news : list CommitStats) : Prop :=
  match news with
  | [] => True
  | r :: rest =>
      (exists d p, prev = Some p /\ objs !! id r = Some d /\ obj_parents d = [p]) /\
      linked objs (Some (id r)) rest
  end.

(** The record [r] is the rewrite of the commit [c]: its commit is in
    [objs] and has the tree of [c] and the message of [c] after the
    substitution, and its old side is read off [c]. *)
Definition rewrite_of (objs : gmap Oid CommitData) (c : Commit) (r : CommitStats)
  : Prop :=
  exists d,
    objs !! id r = Some d /\ obj_tree d = tree c /\
    obj_message d = JS.replace (message c) "MAKHROVYI" "AnotherOneProject" /\
    old r = mkCommitStat (sig_name (author c))
              (DateFns.fromUnixTime (sig_time (author c))).


(** The array [determineAuthorForCommit] selects in, the changed files being
    [files]: the pool entries of the role the counts give, or the whole
    pool. *)
Definition candidates (authors : list Author) (files : list string) : list Author :=
  let f := length (filter (fun p => JS.includes p FRONTEND_LABEL = true) files) in
  let b := length (filter (fun p => JS.includes p BACKEND_LABEL = true) files) in
  if (f <? b)%nat then filter (fun a => role a = backend) authors
  else if (b <? f)%nat then filter (fun a => role a = frontend) authors
  else authors.

(** A commit whose signatures can be computed: its diff is available and has
    a first entry, and, unless the original signatures are kept, some pool
    entry is a candidate. *)
Definition ready (authors : list Author) (keepAuthor : bool) (w : World)
    (c : Commit) : Prop :=
  exists v files,
    diffs w !! cid c = Some v /\ v !! 0%nat = Some files /\
    (keepAuthor = true \/ candidates authors files <> []).

(** The first-parent history of [start] ends in a root commit within [fuel]
    steps. *)
Fixpoint rooted (fuel : nat) (objs : gmap Oid CommitData) (start : Oid) : bool :=
  match fuel with
  | O => false
  | S k =>
      match objs !! start with
      | None => false
      | Some d =>
          match obj_parents d with
          | [] => true
          | p :: _ => rooted k objs p
          end
      end
  end.


(** The world a computation leaves, and its outcome. *)
Definition world_after {A} (m : M A) (w : World) : World := (m w).2.
Definition outcome {A} (m : M A) (w : World) : Result A := (m w).1.

(** The property names every object inherits from [Object.prototype].  On
    the object literal [{}] the summary counts in, [acc[k]] for such a [k]
    is an inherited function or object, not a count; the counts of the
    summary are what [count_author] says for every other name. *)
Definition Object_prototype_keys : list string :=
  ["constructor"; "hasOwnProperty"; "isPrototypeOf"; "propertyIsEnumerable";
   "toLocaleString"; "toString"; "valueOf"; "__proto__";
   "__defineGetter__"; "__defineSetter__"; "__lookupGetter__"; "__lookupSetter__"].

(** The number of records whose author name, on the side [side], is [k]. *)
Definition records_by (side : CommitStats -> CommitStat) (k : string)
    (l : list CommitStats) : nat :=
  length (filter (fun c => stat_author (side c) = k) l).

(** The content the program gives the rewrite of [c]: signatures computed
    from the pool entry selected for [c] (or from none, when the selection
    is [undefined]), the tree of [c], and the message of [c], after the
    substitution when [subst] is on (the reducer) and as it is otherwise
    (the first commit). *)
Definition rewritten_data (authors : list Author) (changeTime keepAuthor subst : bool)
    (c : Commit) (d : CommitData) : Prop :=
  exists a sa sc,
    (forall x, a = Some x -> x ∈ authors) /\
    authorSignature changeTime keepAuthor a c = Ok sa /\
    commiterSignature changeTime keepAuthor a c = Ok sc /\
    obj_author d = sa /\ obj_committer d = sc /\ obj_tree d = tree c /\
    obj_message d = if subst
                    then JS.replace (message c) "MAKHROVYI" "AnotherOneProject"
                    else message c.

(** Every commit of the list has as its only parent the commit before it,
    the first one having [prev]. *)
Fixpoint chained (prev : option Oid) (cs : list Commit) : Prop :=
  match cs with
  | [] => True
  | c :: rest =>
      (exists p, prev = Some p /\ parents c = [p]) /\ chained (Some (cid c)) rest
  end.

(** The record the program keeps of the rewrite [c'] of [c]
    (lines 165-175 and 212-222). *)
Definition record_of (c c' : Commit) : CommitStats :=
  commitStats (cid c') c (author c').

(** [w'] differs from [w] at most by new objects, by the pointer called
    [name], by [HEAD] and by the random values consumed. *)
Definition touches_only (name : string) (w w' : World) : Prop :=
  odb w ⊆ odb w' /\ trees w' = trees w /\ diffs w' = diffs w /\
  forall n, n <> name -> refs w' !! n = refs w !! n.


(** The commit the next rewrite is created on is in the repository and is
    the [HEAD] commit. *)
Definition on_head (commits : list CommitStats) (w : World) : Prop :=
  exists p d,
    parent_of commits w = Some p /\ odb w !! p = Some d /\ refs w !! HEAD w = Some p.

(** Two states of the same repository: they differ at most by the random
    values to come. *)
Definition same_repository (w w' : World) : Prop :=
  refs w' = refs w /\ HEAD w' = HEAD w /\ odb w' = odb w /\
  trees w' = trees w /\ diffs w' = diffs w /\ faults w' = faults w.

(** Two computations agree when, run on two states of the same repository,
    they have the same outcome and leave two states of the same
    repository. *)
Definition agree {A} (m1 m2 : M A) : Prop :=
  forall w1 w2, same_repository w1 w2 ->
                (m1 w1).1 = (m2 w2).1 /\ same_repository (m1 w1).2 (m2 w2).2.

(** They agree up to their results when both resolve, with any results,
    or both reject with the same error. *)
Definition agree_up_to_result {A} (m1 m2 : M A) : Prop :=
  forall w1 w2, same_repository w1 w2 ->
                match (m1 w1).1, (m2 w2).1 with
                | Ok _, Ok _ => True
                | Err e1, Err e2 => e1 = e2
                | _, _ => False
                end /\ same_repository (m1 w1).2 (m2 w2).2.

(** Two reference names conflict when one is a proper path prefix of the
    other: git stores references as files, and [a] cannot be a file beside
    the directory of [a/b]. *)
Definition name_clash (a b : string) : bool :=
  String.prefix (a +:+ "/") b || String.prefix (b +:+ "/") a.

(** No reference of the repository conflicts with the name [name]. *)
Definition no_name_conflict (name : string) (w : World) : Prop :=
  forall n, is_Some (refs w !! n) -> name_clash n name = false.

(** The history of [tip] has no merge commit: every commit of it has at most
    one parent.  The commits reachable from [tip] are then the ones on its
    first-parent chain, and the walk of the source gives them in the order
    of the chain. *)
Definition linear (w : World) (tip : Oid) : Prop :=
  Forall (fun c => (length (parents c) <= 1)%nat)
    (revwalk (size (odb w)) (odb w) tip).

(** Computing the diff of a commit reads its tree: in a state of an actual
    repository, the tree of a commit whose diff is available can be read. *)
Definition coherent (w : World) : Prop :=
  forall i d, odb w !! i = Some d -> is_Some (diffs w !! i) -> obj_tree d ∈ trees w.

(** The instants [ta] (author) and [tc] (committer) of a rewrite of [c] are
    the ones asked for: the original ones when [changeTime] is off, and
    also when [keepAuthor] is on; otherwise [operateTime] of the original
    ones, each signature for itself, which are the instants six calendar
    months later (on the UTC calendar) when those are in the signed 32-bit
    range. *)
Definition rewritten_instants (changeTime keepAuthor : bool) (c : Commit)
    (ta tc : Z) : Prop :=
  (changeTime = false ->
   ta = sig_time (author c) /\ tc = sig_time (committer c)) /\
  (keepAuthor = true ->
   ta = sig_time (author c) /\ tc = sig_time (committer c)) /\
  (changeTime = true -> keepAuthor = false ->
   ta = operateTime (sig_time (author c)) /\
   tc = operateTime (sig_time (committer c)) /\
   (forall s, DateFns.six_calendar_months_after (sig_time (author c)) s ->
              - 2 ^ 31 <= s < 2 ^ 31 -> ta = s) /\
   (forall s, DateFns.six_calendar_months_after (sig_time (committer c)) s ->
              - 2 ^ 31 <= s < 2 ^ 31 -> tc = s)).

(* ===================================================================== *)
(** ** A small repository, used for the concrete instances below *)
(* ===================================================================== *)

Module Examples.

Definition alice : Author := mkAuthor "Alice" "alice@example.org" backend.
Definition bob : Author := mkAuthor "Bob" "bob@example.org" frontend.
Definition pool : list Author := [alice; bob].
Definition frontend_only : list Author := [bob].

(** 2023-01-15T10:00:00Z and one hour later. *)
Definition olena : Signature :=
  mkSignature "Olena" "olena@example.org" 1673776800 120.
Definition taras : Signature :=
  mkSignature "Taras" "taras@example.org" 1673780400 0.

Definition c0 : Commit :=
  mkCommit 1%N (mkCommitData olena olena "initial commit" 10%N []).
Definition c1 : Commit :=
  mkCommit 2%N (mkCommitData taras olena "MAKHROVYI api, MAKHROVYI db" 11%N [1%N]).
Definition c2 : Commit :=
  mkCommit 3%N (mkCommitData olena taras "login page" 12%N [2%N]).
Definition c3 : Commit :=
  mkCommit 4%N (mkCommitData taras taras "docs" 13%N [3%N]).

(** A commit of 2037-10-24T04:26:40Z; six months later is past 2^31
    seconds. *)
Definition late : Signature :=
  mkSignature "Olena" "olena@example.org" 2140000000 120.
Definition c_late : Commit :=
  mkCommit 5%N (mkCommitData late late "late commit" 14%N [4%N]).

Definition objects : gmap Oid CommitData :=
  <[1%N := data c0]> (<[2%N := data c1]> (<[3%N := data c2]> (<[4%N := data c3]> ∅))).

Definition all_diffs : gmap Oid (list (list string)) :=
  <[1%N := [["README.md"]]]>
    (<[2%N := [["server/api.ts"; "server/db.ts"; "client/app.tsx"]]]>
       (<[3%N := [["client/login.tsx"]]]>
          (<[4%N := [["docs/server.md"; "docs/client.md"]]]> ∅))).

Definition draws : list Z := [0; 2 ^ 52; 2 ^ 53 - 1; 12345; 2 ^ 51].

(** A healthy repository: branch [master] with four commits. *)
Definition repo : World :=
  mkWorld (<["master" := 4%N]> ∅) "master" objects
          {[10%N; 11%N; 12%N; 13%N]} all_diffs draws [].

(** The same, the object database refusing the third write of a run: a run
    writes the rewrites of [c0], [c1], [c2] and [c3], in this order. *)
Definition repo_write_fault : World :=
  mkWorld (<["master" := 4%N]> ∅) "master" objects
          {[10%N; 11%N; 12%N; 13%N]} all_diffs draws [false; false; true].

(** The same as [repo], the diff of the third commit being unavailable. *)
Definition repo_broken_diff : World :=
  mkWorld (<["master" := 4%N]> ∅) "master" objects
          {[10%N; 11%N; 12%N; 13%N]} (delete 3%N all_diffs) draws [].

(** A clone in which [result] exists only as the remote-tracking branch
    [origin/result]. *)
Definition repo_remote_only : World :=
  mkWorld (<["master" := 1%N]> (<["origin/result" := 4%N]> ∅)) "master" objects
          {[10%N; 11%N; 12%N; 13%N]} all_diffs draws [].

Definition opts_default : Opts := mkOpts None None None.
Definition opts_keep : Opts := mkOpts (Some "master") (Some true) (Some true).
(** The call at the end of the source file. *)
Definition opts_result : Opts := mkOpts (Some "result") (Some false) (Some true).

(** [repo] after the destination branch was created and the first commit
    amended, the point where the reducer starts. *)
Definition seeded (authors : list Author) (w : World) : World :=
  world_after
    (bind (materialize (newBranchName "master") (Some c0))
          (fun _ => amendFirstCommit authors false true (Some c0))) w.


(** [repo] after the destination branch was created and checked out. *)
Definition materialized : World :=
  world_after (materialize (newBranchName "master") (Some c0)) repo.


End Examples.

(** Further inputs, used for the instances of the further properties. *)
Module Samples.

(** [Examples.repo], the README being also among the changed files of the
    second commit, and a second diff (the one against the second parent of
    a merge) being recorded for it. *)
Definition repo_readme : World :=
  mkWorld (refs Examples.repo) (HEAD Examples.repo) (odb Examples.repo)
          (trees Examples.repo)
          (<[2%N := [["README.md"; "server/api.ts"; "server/db.ts"; "client/app.tsx"];
                     ["client/a.tsx"; "client/b.tsx"; "client/c.tsx"]]]>
             (diffs Examples.repo))
          (random Examples.repo) (faults Examples.repo).

(** The same, without the second diff. *)
Definition repo_readme_one_diff : World :=
  mkWorld (refs Examples.repo) (HEAD Examples.repo) (odb Examples.repo)
          (trees Examples.repo)
          (<[2%N := [["README.md"; "server/api.ts"; "server/db.ts"; "client/app.tsx"]]]>
             (diffs Examples.repo))
          (random Examples.repo) (faults Examples.repo).

(** Three records: two commits of Olena's and one of Taras's, all three
    rewritten in Alice's name. *)
Definition stats : list CommitStats :=
  [commitStats 21%N Examples.c0 (mkSignature "Alice" "alice@example.org" 1673776800 120);
   commitStats 22%N Examples.c1 (mkSignature "Alice" "alice@example.org" 1673780400 0);
   commitStats 23%N Examples.c2 (mkSignature "Alice" "alice@example.org" 1673776800 120)].


(** Options: everything rewritten, on [master]. *)
Definition opts_rewrite : Opts := mkOpts (Some "master") (Some true) (Some false).

End Samples.

(* ===================================================================== *)
(** * Properties *)
(* ===================================================================== *)

(** ** Strings *)

Module StringFacts.
Import JS.

Lemma append_cons a (s t : string) : String a s +:+ t = String a (s +:+ t).
Proof. reflexivity. Qed.

Lemma append_nil (t : string) : "" +:+ t = t.
Proof. reflexivity. Qed.

Lemma prefix_app pat s : String.prefix pat (pat +:+ s) = true.
Proof.
  induction pat as [|a pat IH]; [by destruct s|].
  rewrite append_cons. simpl.
  destruct (Ascii.ascii_dec a a); [exact IH|done].
Qed.

Lemma prefix_inv pat s :
  String.prefix pat s = true -> s = pat +:+ skip (String.length pat) s.
Proof.
  revert s. induction pat as [|a pat IH]; intros s H; [done|].
  destruct s as [|b s]; simpl in H; [done|].
  destruct (Ascii.ascii_dec a b) as [->|]; [|done].
  rewrite append_cons. simpl. f_equal. by apply IH.
Qed.

Lemma skip_app pat s : skip (String.length pat) (pat +:+ s) = s.
Proof.
  induction pat as [|a pat IH]; [by destruct s|].
  rewrite append_cons. exact IH.
Qed.

Lemma append_assoc (a b c : string) : (a +:+ b) +:+ c = a +:+ b +:+ c.
Proof.
  induction a as [|x a IH]; [done|].
  rewrite !append_cons. by rewrite IH.
Qed.

Lemma includes_here s pat : String.prefix pat s = true -> includes s pat = true.
Proof. intros H. destruct s; cbn [includes]; by rewrite H. Qed.

Lemma includes_later c s pat :
  String.prefix pat (String c s) = false ->
  includes (String c s) pat = includes s pat.
Proof. intros H. cbn [includes]. by rewrite H. Qed.

Lemma replace_here s pat rep :
  String.prefix pat s = true ->
  replace s pat rep = rep +:+ skip (String.length pat) s.
Proof. intros H. destruct s; cbn [replace]; by rewrite H. Qed.

Lemma replace_later c s pat rep :
  String.prefix pat (String c s) = false ->
  replace (String c s) pat rep = String c (replace s pat rep).
Proof. intros H. cbn [replace]. by rewrite H. Qed.

(** [includes] is containment anywhere in the string. *)
Lemma includes_spec s pat :
  includes s pat = true <-> exists pre post, s = pre +:+ pat +:+ post.
Proof.
  split.
  - induction s as [|c s IH].
    + unfold includes. destruct (String.prefix pat "") eqn:E; [|done].
      intros _. exists "", (skip (String.length pat) ""). by apply prefix_inv.
    + destruct (String.prefix pat (String c s)) eqn:E.
      * intros _. exists "", (skip (String.length pat) (String c s)).
        by apply prefix_inv.
      * rewrite includes_later by done.
        intros H. destruct (IH H) as (pre & post & ->).
        by exists (String c pre), post.
  - intros (pre & post & ->).
    induction pre as [|c pre IH].
    + rewrite append_nil. apply includes_here, prefix_app.
    + rewrite append_cons.
      destruct (String.prefix pat (String c (pre +:+ pat +:+ post))) eqn:E.
      * by apply includes_here.
      * by rewrite includes_later.
Qed.

(** [replace] rewrites the leftmost occurrence and nothing else. *)
Lemma replace_first s pat rep :
  (includes s pat = false /\ replace s pat rep = s) \/
  (exists pre post,
      s = pre +:+ pat +:+ post /\
      replace s pat rep = pre +:+ rep +:+ post /\
      forall pre' post', s = pre' +:+ pat +:+ post' ->
                         (String.length pre <= String.length pre')%nat).
Proof.
  induction s as [|c s IH].
  - unfold includes, replace. destruct (String.prefix pat "") eqn:E.
    + right. exists "", (skip (String.length pat) "").
      split; [by apply prefix_inv|]. split; [done|].
      intros; simpl; lia.
    + by left.
  - destruct (String.prefix pat (String c s)) eqn:E.
    + right. exists "", (skip (String.length pat) (String c s)).
      split; [by apply prefix_inv|]. split; [by apply replace_here|].
      intros; simpl; lia.
    + rewrite includes_later, replace_later by done.
      destruct IH as [[I R]|(pre & post & Es & R & Min)].
      * left. by rewrite I, R.
      * right. exists (String c pre), post. subst s. split; [done|].
        split; [by rewrite R|].
        intros pre' post' E'. destruct pre' as [|c' pre'].
        -- rewrite append_nil in E'. rewrite E', prefix_app in E. done.
        -- rewrite append_cons in E'. injection E' as -> E'. simpl.
           apply le_n_S. by eapply Min.
Qed.
End StringFacts.

(** ** The calendar *)

Module DateFacts.
Import DateFns.

(** Case analysis on a month number known to be between 0 and 11. *)
Ltac each_month m :=
  let C := fresh "Cases" in
  assert (C : m = 0 \/ m = 1 \/ m = 2 \/ m = 3 \/ m = 4 \/ m = 5 \/ m = 6 \/
              m = 7 \/ m = 8 \/ m = 9 \/ m = 10 \/ m = 11) by lia;
  repeat destruct C as [->|C]; try subst m.

Lemma DayFromYear_succ y : DayFromYear (y + 1) = DayFromYear y + DaysInYear y.
Proof.
  unfold DayFromYear, DaysInYear, is_leap.
  repeat case_match; Z.div_mod_to_equations; lia.
Qed.

Lemma YearFromDay_spec z :
  DayFromYear (YearFromDay z) <= z < DayFromYear (YearFromDay z + 1).
Proof.
  unfold YearFromDay.
  set (y := 1970 + z * 400 / 146097).
  assert (L : DayFromYear (y - 1) <= z).
  { subst y. unfold DayFromYear. Z.div_mod_to_equations. lia. }
  assert (U : z < DayFromYear (y + 1 + 1)).
  { subst y. unfold DayFromYear. Z.div_mod_to_equations. lia. }
  repeat case_match; try lia.
  replace (y - 1 + 1) with y by lia. lia.
Qed.

Lemma YearFromDay_unique z y :
  DayFromYear y <= z < DayFromYear (y + 1) -> YearFromDay z = y.
Proof.
  intros H. pose proof (YearFromDay_spec z) as S.
  set (y' := YearFromDay z) in *. clearbody y'.
  unfold DayFromYear in *. Z.div_mod_to_equations. lia.
Qed.

Lemma leap_day_range y : 0 <= leap_day y <= 1.
Proof. unfold leap_day. case_match; lia. Qed.

Lemma DaysInYear_leap y : DaysInYear y = 365 + leap_day y.
Proof. unfold DaysInYear, leap_day. case_match; lia. Qed.

Lemma MonthFromDay_range l dwy : 0 <= MonthFromDay l dwy <= 11.
Proof. unfold MonthFromDay. repeat case_match; lia. Qed.

(** The day of the year falls inside the month [MonthFromDay] gives. *)
Lemma MonthFromDay_spec l dwy :
  0 <= l <= 1 -> 0 <= dwy < 365 + l ->
  let m := MonthFromDay l dwy in
  month_start l m <= dwy < month_start l (m + 1).
Proof.
  intros Hl Hd. unfold MonthFromDay.
  repeat case_match; unfold month_start; simpl; lia.
Qed.

Lemma MonthFromDay_unique l dwy m :
  0 <= l <= 1 -> 0 <= m <= 11 ->
  month_start l m <= dwy < month_start l (m + 1) -> MonthFromDay l dwy = m.
Proof.
  intros Hl Hm H.
  unfold MonthFromDay.
  each_month m;
    unfold month_start in H; simpl in H; repeat case_match; lia.
Qed.

Lemma month_start_mono l m : 0 <= l <= 1 -> 0 <= m <= 11 ->
  0 <= month_start l m /\ month_start l m + 28 <= month_start l (m + 1) <= 365 + l.
Proof.
  intros Hl Hm.
  each_month m; unfold month_start; simpl; lia.
Qed.

Lemma DaysInMonth_range y m : 0 <= m <= 11 -> 28 <= DaysInMonth y m <= 31.
Proof.
  intros Hm. unfold DaysInMonth. pose proof (leap_day_range y) as Hl.
  each_month m; unfold month_start; simpl; lia.
Qed.

(** The day [MakeDay] builds from a valid date has that date's fields. *)
Lemma fields_of_day y m d z :
  0 <= m <= 11 -> 1 <= d <= DaysInMonth y m ->
  z = DayFromYear y + month_start (leap_day y) m + d - 1 ->
  YearFromDay z = y /\
  MonthFromDay (leap_day y) (z - DayFromYear y) = m /\
  z - DayFromYear y - month_start (leap_day y) m + 1 = d.
Proof.
  intros Hm Hd ->. unfold DaysInMonth in Hd.
  pose proof (leap_day_range y) as Hl.
  pose proof (month_start_mono (leap_day y) m Hl Hm) as Hs.
  assert (Y : YearFromDay (DayFromYear y + month_start (leap_day y) m + d - 1) = y).
  { apply YearFromDay_unique. rewrite DayFromYear_succ, DaysInYear_leap. lia. }
  split; [exact Y|]. split; [|lia].
  apply MonthFromDay_unique; [done..|lia].
Qed.

(** Every day is the day of a valid date: its own fields. *)
Lemma day_of_fields z :
  let y := YearFromDay z in
  let l := leap_day y in
  let m := MonthFromDay l (z - DayFromYear y) in
  let d := z - DayFromYear y - month_start l m + 1 in
  0 <= m <= 11 /\ 1 <= d <= DaysInMonth y m /\
  z = DayFromYear y + month_start l m + d - 1.
Proof.
  intros y l m d.
  pose proof (YearFromDay_spec z) as Hy. fold y in Hy.
  rewrite DayFromYear_succ, DaysInYear_leap in Hy. fold l in Hy.
  pose proof (leap_day_range y) as Hl. fold l in Hl.
  pose proof (MonthFromDay_spec l (z - DayFromYear y) Hl ltac:(lia)) as Hm.
  cbv zeta in Hm. fold m in Hm.
  split; [apply MonthFromDay_range|].
  unfold DaysInMonth. fold l. subst d. lia.
Qed.

Lemma Day_MakeDate day time :
  0 <= time < msPerDay -> Day (MakeDate day time) = day /\ TimeWithinDay (MakeDate day time) = time.
Proof.
  intros H. unfold Day, TimeWithinDay, MakeDate, msPerDay in *.
  Z.div_mod_to_equations. lia.
Qed.

Lemma TimeWithinDay_range t : 0 <= TimeWithinDay t < msPerDay.
Proof. unfold TimeWithinDay, msPerDay. Z.div_mod_to_equations. lia. Qed.

Lemma MakeDate_Day t : MakeDate (Day t) (TimeWithinDay t) = t.
Proof. unfold Day, TimeWithinDay, MakeDate, msPerDay. Z.div_mod_to_equations. lia. Qed.

(** What [addMonths] does to the fields of a time value. *)
Lemma addMonths_ms_fields t n :
  let r := addMonths_ms t n in
  TimeWithinDay r = TimeWithinDay t /\
  YearFromTime r * 12 + MonthFromTime r = YearFromTime t * 12 + MonthFromTime t + n /\
  DateFromTime r = Z.min (DaysInMonth (YearFromTime r) (MonthFromTime r)) (DateFromTime t).
Proof.
  intros r.
  destruct (day_of_fields (Day t)) as (Hm & Hd & _).
  change (YearFromDay (Day t)) with (YearFromTime t) in *.
  change (Day t - DayFromYear (YearFromTime t)) with (DayWithinYear t) in *.
  change (MonthFromDay (leap_day (YearFromTime t)) (DayWithinYear t))
    with (MonthFromTime t) in *.
  change (DayWithinYear t - month_start (leap_day (YearFromTime t)) (MonthFromTime t) + 1)
    with (DateFromTime t) in *.
  set (k := MonthFromTime t + n).
  set (y' := YearFromTime t + k / 12).
  set (m' := k mod 12).
  set (d' := Z.min (DaysInMonth y' m') (DateFromTime t)).
  assert (Hm' : 0 <= m' <= 11) by (subst m'; Z.div_mod_to_equations; lia).
  pose proof (DaysInMonth_range y' m' Hm') as Hdim.
  assert (Hd' : 1 <= d' <= DaysInMonth y' m') by (subst d'; lia).
  assert (Er : r = MakeDate (DayFromYear y' + month_start (leap_day y') m' + d' - 1)
                            (TimeWithinDay t)) by reflexivity.
  destruct (Day_MakeDate (DayFromYear y' + month_start (leap_day y') m' + d' - 1)
              (TimeWithinDay t) (TimeWithinDay_range t)) as [ED ET].
  rewrite <- Er in ED, ET.
  destruct (fields_of_day y' m' d' (Day r) Hm' Hd' ED) as (FY & FM & FD).
  assert (EY : YearFromTime r = y') by exact FY.
  assert (EM : MonthFromTime r = m').
  { unfold MonthFromTime, DayWithinYear. rewrite EY. exact FM. }
  assert (EDt : DateFromTime r = d').
  { unfold DateFromTime, DayWithinYear. rewrite EM, EY. exact FD. }
  rewrite ET, EY, EM, EDt. split; [done|]. split; [|done].
  subst y' m' k. Z.div_mod_to_equations. lia.
Qed.

(** Day 0 of the month after the desired one is the last day of the
    desired month. *)
Lemma MakeDay_end y k :
  let y' := y + k / 12 in
  let m' := k mod 12 in
  MakeDay y (k + 1) 0
  = DayFromYear y' + month_start (leap_day y') m' + DaysInMonth y' m' - 1.
Proof.
  intros y' m'. unfold MakeDay, DaysInMonth. cbv zeta.
  assert (Hm' : 0 <= m' <= 11) by (subst m'; Z.div_mod_to_equations; lia).
  destruct (Z.eq_dec m' 11) as [E11|N11].
  - assert (E : (k + 1) / 12 = k / 12 + 1 /\ (k + 1) mod 12 = 0)
      by (subst m'; Z.div_mod_to_equations; lia).
    destruct E as [-> ->].
    replace (y + (k / 12 + 1)) with (y' + 1) by (subst y'; lia).
    rewrite DayFromYear_succ, DaysInYear_leap, E11.
    unfold month_start. simpl. lia.
  - assert (E : (k + 1) / 12 = k / 12 /\ (k + 1) mod 12 = m' + 1)
      by (subst m'; Z.div_mod_to_equations; lia).
    destruct E as [-> ->]. fold y'. lia.
Qed.

(** The last day of the desired month, as [addMonths] builds it: its
    fields, and how the two results of [addMonths] relate to the time value
    aimed at. *)
Lemma endOfDesiredMonth_ms t n :
  let e := MakeDate (MakeDay (YearFromTime t) (MonthFromTime t + n + 1) 0)
             (TimeWithinDay t) in
  (DateFromTime e <= DateFromTime t -> e = addMonths_ms t n) /\
  (DateFromTime t < DateFromTime e ->
   MakeDate (MakeDay (YearFromTime e) (MonthFromTime e) (DateFromTime t))
     (TimeWithinDay t) = addMonths_ms t n) /\
  addMonths_ms t n <= e <= addMonths_ms t n + 30 * msPerDay.
Proof.
  intros e.
  destruct (day_of_fields (Day t)) as (Hm & Hd & _).
  change (YearFromDay (Day t)) with (YearFromTime t) in *.
  change (Day t - DayFromYear (YearFromTime t)) with (DayWithinYear t) in *.
  change (MonthFromDay (leap_day (YearFromTime t)) (DayWithinYear t))
    with (MonthFromTime t) in *.
  change (DayWithinYear t - month_start (leap_day (YearFromTime t)) (MonthFromTime t) + 1)
    with (DateFromTime t) in *.
  set (k := MonthFromTime t + n).
  set (y' := YearFromTime t + k / 12).
  set (m' := k mod 12).
  assert (Hm' : 0 <= m' <= 11) by (subst m'; Z.div_mod_to_equations; lia).
  pose proof (DaysInMonth_range y' m' Hm') as Hdim.
  pose proof (DaysInMonth_range (YearFromTime t) (MonthFromTime t) Hm) as Hdim0.
  set (dim := DaysInMonth y' m') in *.
  set (base := DayFromYear y' + month_start (leap_day y') m').
  assert (Ee : e = MakeDate (base + dim - 1) (TimeWithinDay t)).
  { subst e. f_equal. exact (MakeDay_end (YearFromTime t) k). }
  assert (Ea : addMonths_ms t n
               = MakeDate (base + Z.min dim (DateFromTime t) - 1) (TimeWithinDay t))
    by reflexivity.
  destruct (Day_MakeDate (base + dim - 1) (TimeWithinDay t) (TimeWithinDay_range t))
    as [ED _].
  rewrite <- Ee in ED.
  destruct (fields_of_day y' m' dim (Day e) Hm' ltac:(lia) ED) as (FY & FM & FD).
  assert (EY : YearFromTime e = y') by exact FY.
  assert (EM : MonthFromTime e = m').
  { unfold MonthFromTime, DayWithinYear. rewrite EY. exact FM. }
  assert (EDt : DateFromTime e = dim).
  { unfold DateFromTime, DayWithinYear. rewrite EM, EY. exact FD. }
  rewrite EDt, EY, EM. split; [|split].
  - intros Hle. rewrite Ee, Ea. by rewrite Z.min_l.
  - intros Hlt. rewrite Ea. rewrite Z.min_r by lia. f_equal.
    unfold MakeDay. rewrite Z.div_small, Z.mod_small by lia.
    rewrite Z.add_0_r. reflexivity.
  - rewrite Ee, Ea. unfold MakeDate, msPerDay. lia.
Qed.

(** [addMonths] gives the time value aimed at, unless that value or the
    last day of the desired month is out of range. *)
Lemma addMonths_Some t n :
  n <> 0 ->
  addMonths (Some t) n
  = match endOfDesiredMonth t n with
    | None => None
    | Some _ => TimeClip (addMonths_ms t n)
    end.
Proof.
  intros Hn. unfold addMonths, endOfDesiredMonth.
  destruct (Z.eqb_spec n 0) as [|_]; [done|].
  destruct (endOfDesiredMonth_ms t n) as (Hge & Hlt & _). cbv zeta in Hge, Hlt.
  set (e := MakeDate (MakeDay (YearFromTime t) (MonthFromTime t + n + 1) 0)
              (TimeWithinDay t)) in *.
  unfold TimeClip at 1 3. destruct (Z.abs e <=? maxTime) eqn:Ec; [|done].
  destruct (Z.leb_spec (DateFromTime e) (DateFromTime t)) as [Hc|Hc].
  - rewrite <- (Hge Hc). unfold TimeClip. by rewrite Ec.
  - by rewrite (Hlt Hc).
Qed.

(** A time value is determined by its fields. *)
Lemma fields_determine t1 t2 :
  TimeWithinDay t1 = TimeWithinDay t2 ->
  YearFromTime t1 * 12 + MonthFromTime t1 = YearFromTime t2 * 12 + MonthFromTime t2 ->
  DateFromTime t1 = DateFromTime t2 ->
  t1 = t2.
Proof.
  intros ET EK ED.
  destruct (day_of_fields (Day t1)) as (Hm1 & _ & E1).
  destruct (day_of_fields (Day t2)) as (Hm2 & _ & E2).
  change (YearFromDay (Day t1)) with (YearFromTime t1) in *.
  change (YearFromDay (Day t2)) with (YearFromTime t2) in *.
  change (MonthFromDay (leap_day (YearFromTime t1)) (Day t1 - DayFromYear (YearFromTime t1)))
    with (MonthFromTime t1) in *.
  change (MonthFromDay (leap_day (YearFromTime t2)) (Day t2 - DayFromYear (YearFromTime t2)))
    with (MonthFromTime t2) in *.
  assert (EY : YearFromTime t1 = YearFromTime t2) by lia.
  assert (EM : MonthFromTime t1 = MonthFromTime t2) by lia.
  assert (EDay : Day t1 = Day t2).
  { unfold DateFromTime, DayWithinYear in ED. rewrite EY, EM in ED. lia. }
  rewrite <- (MakeDate_Day t1), <- (MakeDate_Day t2). congruence.
Qed.

Lemma addMonths_ms_seconds t :
  addMonths_ms (t * 1000) 6 =
  (Day (addMonths_ms (t * 1000) 6) * 86400 + t mod 86400) * 1000.
Proof.
  destruct (addMonths_ms_fields (t * 1000) 6) as (ET & _).
  rewrite <- (MakeDate_Day (addMonths_ms (t * 1000) 6)) at 1.
  rewrite ET. unfold MakeDate, TimeWithinDay, msPerDay.
  Z.div_mod_to_equations. lia.
Qed.

Lemma MonthFromTime_range t : 0 <= MonthFromTime t <= 11.
Proof. apply MonthFromDay_range. Qed.

(** The specification's relation holds of exactly one instant, the one
    [addMonths] computes. *)
Lemma six_calendar_months_after_iff t s :
  six_calendar_months_after t s <-> addMonths_ms (t * 1000) 6 = s * 1000.
Proof.
  unfold six_calendar_months_after. cbv zeta.
  pose proof (addMonths_ms_fields (t * 1000) 6) as F. cbv zeta in F.
  set (r := addMonths_ms (t * 1000) 6) in *. clearbody r.
  set (T := t * 1000) in *. clearbody T.
  set (S := s * 1000) in *. clearbody S.
  destruct F as (ET & EK & ED).
  split.
  - intros (HT & HK & HD). symmetry.
    pose proof (MonthFromTime_range S) as RS.
    pose proof (MonthFromTime_range r) as Rr.
    assert (EY : YearFromTime S = YearFromTime r) by lia.
    assert (EM : MonthFromTime S = MonthFromTime r) by lia.
    apply fields_determine; [congruence|lia|].
    rewrite HD, ED, EY, EM. reflexivity.
  - intros <-. auto.
Qed.
End DateFacts.

(** ** [ToInt32] and [operateTime] *)

Module TimeFacts.
Import DateFns DateFacts.

Lemma ToInt32_small z : - 2 ^ 31 <= z < 2 ^ 31 -> JS.ToInt32 z = z.
Proof.
  intros H. unfold JS.ToInt32. cbv zeta.
  change (2 ^ 32) with 4294967296 in *. change (2 ^ 31) with 2147483648 in *.
  case_match; Z.div_mod_to_equations; lia.
Qed.

Lemma ToInt32_range z : - 2 ^ 31 <= JS.ToInt32 z < 2 ^ 31.
Proof.
  unfold JS.ToInt32. cbv zeta.
  change (2 ^ 32) with 4294967296 in *. change (2 ^ 31) with 2147483648 in *.
  case_match; Z.div_mod_to_equations; lia.
Qed.

Lemma ToInt32_wrap z : 2 ^ 31 <= z < 2 ^ 32 -> JS.ToInt32 z = z - 2 ^ 32.
Proof.
  intros H. unfold JS.ToInt32. cbv zeta.
  change (2 ^ 32) with 4294967296 in *. change (2 ^ 31) with 2147483648 in *.
  case_match; Z.div_mod_to_equations; lia.
Qed.

Lemma MakeDay_plus6 y m d l l1 :
  0 <= m <= 11 -> 0 <= l <= 1 -> 0 <= l1 <= 1 ->
  leap_day y = l -> leap_day (y + 1) = l1 ->
  1 <= d <= month_start l (m + 1) - month_start l m ->
  let y' := y + (m + 6) / 12 in
  let m' := (m + 6) mod 12 in
  181 <= MakeDay y (m + 6) (Z.min (DaysInMonth y' m') d)
         - (DayFromYear y + month_start l m + d - 1) <= 184.
Proof.
  intros Hm Hl Hl1 El El1 Hd.
  pose proof (DayFromYear_succ y) as Hs. rewrite DaysInYear_leap, El in Hs.
  unfold MakeDay, DaysInMonth.
  each_month m;
    cbv zeta;
    repeat match goal with
      | |- context [(?a + ?b) / 12] =>
          let v := eval compute in ((a + b) / 12) in change ((a + b) / 12) with v
      | |- context [(?a + ?b) mod 12] =>
          let v := eval compute in ((a + b) mod 12) in change ((a + b) mod 12) with v
      end;
    rewrite ?Z.add_0_r, ?El, ?El1;
    unfold month_start in *; simpl in Hd |- *; lia.
Qed.

(** Six months later is between 181 and 184 days later. *)
Lemma addMonths_ms_near t :
  181 * msPerDay <= addMonths_ms t 6 - t <= 184 * msPerDay.
Proof.
  destruct (day_of_fields (Day t)) as (Hm & Hd & E).
  change (YearFromDay (Day t)) with (YearFromTime t) in *.
  change (Day t - DayFromYear (YearFromTime t)) with (DayWithinYear t) in *.
  change (MonthFromDay (leap_day (YearFromTime t)) (DayWithinYear t))
    with (MonthFromTime t) in *.
  change (DayWithinYear t - month_start (leap_day (YearFromTime t)) (MonthFromTime t) + 1)
    with (DateFromTime t) in *.
  pose proof (MakeDay_plus6 (YearFromTime t) (MonthFromTime t) (DateFromTime t)
                _ _ Hm (leap_day_range _) (leap_day_range _) eq_refl eq_refl Hd) as B.
  cbv zeta in B. rewrite <- E in B.
  pose proof (MakeDate_Day t) as ET.
  unfold addMonths_ms. cbv zeta.
  set (D' := MakeDay _ _ _) in *. clearbody D'.
  unfold MakeDate, msPerDay in *. lia.
Qed.

Lemma shifted_near t s :
  six_calendar_months_after t s -> 181 * 86400 <= s - t <= 184 * 86400.
Proof.
  intros H. apply six_calendar_months_after_iff in H.
  pose proof (addMonths_ms_near (t * 1000)) as B. rewrite H in B.
  unfold msPerDay in B. lia.
Qed.

(** Some instant is six calendar months after any given one. *)
Lemma shifted_exists t : exists s, six_calendar_months_after t s.
Proof.
  exists (Day (addMonths_ms (t * 1000) 6) * 86400 + t mod 86400).
  apply six_calendar_months_after_iff, addMonths_ms_seconds.
Qed.

Lemma TimeClip_valid t : Z.abs t <= maxTime -> TimeClip t = Some t.
Proof. intros H. unfold TimeClip. case_match; [done|lia]. Qed.

Lemma TimeClip_invalid t : maxTime < Z.abs t -> TimeClip t = None.
Proof. intros H. unfold TimeClip. case_match; [lia|done]. Qed.

(** [operateTime] on dates in range, the last day of the month of the
    shifted instant included: the shifted instant, reduced to 32 bits. *)
Lemma operateTime_valid t s :
  six_calendar_months_after t s ->
  Z.abs (t * 1000) <= maxTime ->
  - maxTime <= s * 1000 -> s * 1000 + 30 * msPerDay <= maxTime ->
  operateTime t = JS.ToInt32 s.
Proof.
  intros H Ht Hlo Hhi. apply six_calendar_months_after_iff in H.
  unfold operateTime, fromUnixTime.
  rewrite (TimeClip_valid _ Ht), addMonths_Some by done.
  destruct (endOfDesiredMonth_ms (t * 1000) 6) as (_ & _ & B). cbv zeta in B.
  unfold endOfDesiredMonth. rewrite H in *.
  unfold msPerDay in *.
  rewrite TimeClip_valid by lia. rewrite TimeClip_valid by lia.
  unfold seconds_or0. by rewrite Z.quot_mul.
Qed.

(** Outside the range of [Date] the result is [NaN | 0]. *)
Lemma operateTime_invalid t s :
  six_calendar_months_after t s ->
  maxTime < Z.abs (t * 1000) \/ maxTime < Z.abs (s * 1000) ->
  operateTime t = 0.
Proof.
  intros H Hr. apply six_calendar_months_after_iff in H.
  unfold operateTime, fromUnixTime.
  destruct (Z_le_gt_dec (Z.abs (t * 1000)) maxTime) as [Ht|Ht].
  - rewrite (TimeClip_valid _ Ht), addMonths_Some, H by done.
    destruct Hr as [Hr|Hr]; [lia|]. rewrite (TimeClip_invalid _ Hr).
    by destruct (endOfDesiredMonth _ _).
  - rewrite TimeClip_invalid by lia. done.
Qed.

(** date-fns builds the last day of the target month first.  Six months
    after 275760-03-01T00:00:00Z is 275760-09-01, within the range of
    [Date], but the last day of that month is beyond it: the result is an
    Invalid Date, and [operateTime] gives 0. *)
Lemma operateTime_end_of_month :
  addMonths_ms (8639983065600 * 1000) 6 <= maxTime /\
  endOfDesiredMonth (8639983065600 * 1000) 6 = None /\
  operateTime 8639983065600 = 0.
Proof. split; [vm_compute; discriminate|]. split; vm_compute; reflexivity. Qed.

Lemma operateTime_cases t s :
  six_calendar_months_after t s ->
  operateTime t = JS.ToInt32 s \/ operateTime t = 0.
Proof.
  intros H. apply six_calendar_months_after_iff in H.
  unfold operateTime, fromUnixTime.
  destruct (TimeClip (t * 1000)) as [x|] eqn:Et; [|by right].
  assert (x = t * 1000) as ->.
  { revert Et. unfold TimeClip. by case_match; intros [= <-]. }
  rewrite addMonths_Some, H by done.
  destruct (endOfDesiredMonth _ _); [|by right].
  unfold TimeClip. case_match; [|by right].
  left. unfold seconds_or0. by rewrite Z.quot_mul.
Qed.

Lemma operateTime_in_range t s :
  six_calendar_months_after t s -> - 2 ^ 31 <= s < 2 ^ 32 ->
  operateTime t = JS.ToInt32 s.
Proof.
  intros H Hs. pose proof (shifted_near t s H) as B.
  change (2 ^ 31) with 2147483648 in *. change (2 ^ 32) with 4294967296 in *.
  apply operateTime_valid; [done|unfold maxTime, msPerDay; lia..].
Qed.
End TimeFacts.

(** ** Author selection *)

Section Selection.

Variable authors : list Author.

Lemma Math_random_range w :
  exists u w', Math_random w = (Ok u, w') /\ 0 <= u < 2 ^ 53 /\
               refs w' = refs w /\ HEAD w' = HEAD w /\ odb w' = odb w /\
               trees w' = trees w /\ diffs w' = diffs w.
Proof.
  unfold Math_random. destruct (random w) as [|u us].
  - exists 0, w. repeat split; lia.
  - exists (u mod 2 ^ 53), (set_random us w). split; [done|].
    split; [apply Z.mod_pos_bound; lia|done].
Qed.

(** Rounding to a double moves a product of a value below 1 and a length
    [n] by less than [n] units of 2^-53. *)
Lemma round53_near p n :
  0 <= p < n * 2 ^ 53 ->
  0 <= JS.round53 p /\ p - n < JS.round53 p < p + n.
Proof.
  intros [Hp Hn]. unfold JS.round53. cbv zeta.
  destruct (Z.leb_spec (Z.log2 p - 52) 0) as [Hk|Hk]; [lia|].
  set (k := Z.log2 p - 52) in *.
  assert (Hpos : 0 < p).
  { destruct (Z.eq_dec p 0) as [E|E]; [|lia]. subst p k. simpl in Hk. lia. }
  pose proof (Z.log2_spec p Hpos) as [L _].
  replace (Z.log2 p) with (53 + (k - 1)) in L by (subst k; lia).
  rewrite Z.pow_add_r in L by lia.
  set (h := 2 ^ (k - 1)) in *.
  assert (Hh : 0 < h) by (subst h; apply Z.pow_pos_nonneg; lia).
  assert (Ek : 2 ^ k = 2 * h).
  { subst h. replace k with (1 + (k - 1)) at 1 by lia.
    by rewrite Z.pow_add_r by lia. }
  rewrite !Ek.
  change (2 ^ 53) with 9007199254740992 in *.
  assert (Hhn : h < n) by lia.
  pose proof (Z.div_mod p (2 * h) ltac:(lia)) as E.
  pose proof (Z.mod_pos_bound p (2 * h) ltac:(lia)) as B.
  set (q := p / (2 * h)) in *. set (r := p mod (2 * h)) in *.
  assert (Hq : 0 <= q) by (subst q; apply Z.div_pos; lia).
  clearbody q r h.
  assert (Eup : (q + 1) * (2 * h) = p - r + 2 * h) by (rewrite E; ring).
  assert (Edn : q * (2 * h) = p - r) by (rewrite E; ring).
  destruct (Z.ltb_spec h r) as [Hr|Hr]; cbn [orb].
  - rewrite Eup. lia.
  - destruct (Z.eqb_spec r h) as [Hrh|Hrh]; cbn [andb];
      [destruct (Z.odd q)|]; rewrite ?Eup, ?Edn; lia.
Qed.

(** The rounding counts.  For an array of nine elements and the value
    [(2^55 / 9) / 2^53] of [Math.random()], the exact product is
    [(2^55 - 2) / 2^53], just below 4; the double nearest to it is 4, and
    the element selected is the one at index 4, not at index 3. *)
Lemma round53_rounds_up :
  (2 ^ 55 / 9 * 9) / 2 ^ 53 = 3 /\ JS.round53 (2 ^ 55 / 9 * 9) / 2 ^ 53 = 4 /\
  forall w, outcome (randomSelect [0; 1; 2; 3; 4; 5; 6; 7; 8])
              (set_random [2 ^ 55 / 9] w) = Ok (Some 4).
Proof. split; [|split]; [by vm_compute..|]. intros w. by vm_compute. Qed.

(** For fewer than 2^31 elements the index is the integer part of the
    rounded product, which is below the length. *)
Lemma randomSelect_index n u :
  0 <= n < 2 ^ 31 -> 0 <= u < 2 ^ 53 ->
  let i := JS.round53 (u * n) / 2 ^ 53 in
  JS.ToInt32 i = i /\ 0 <= i /\ (0 < n -> i < n).
Proof.
  intros Hn Hu i.
  change (2 ^ 31) with 2147483648 in *.
  assert (Hi : 0 <= i /\ (0 < n -> i < n) /\ i < 2147483648).
  { destruct (Z.eq_dec n 0) as [->|Hne].
    - subst i. rewrite Z.mul_0_r. by vm_compute.
    - destruct (round53_near (u * n) n) as (H0 & _ & H1).
      { change (2 ^ 53) with 9007199254740992 in *. nia. }
      subst i. change (2 ^ 53) with 9007199254740992 in *.
      assert (JS.round53 (u * n) / 9007199254740992 < n)
        by (apply Z.div_lt_upper_bound; nia).
      split; [apply Z.div_pos; lia|]. split; [done|lia]. }
  split; [|by destruct Hi as (? & ? & _)].
  apply TimeFacts.ToInt32_small. change (2 ^ 31) with 2147483648. lia.
Qed.

(** [randomSelect] yields an element of the array or [undefined]; it only
    consumes a random value. *)
Lemma randomSelect_inv {A} (arr : list A) w o w' :
  randomSelect arr w = (Ok o, w') ->
  (forall a, o = Some a -> a ∈ arr) /\
  refs w' = refs w /\ HEAD w' = HEAD w /\ odb w' = odb w /\
  trees w' = trees w /\ diffs w' = diffs w.
Proof.
  unfold randomSelect, bind, ret.
  destruct (Math_random_range w) as (u & w1 & -> & Hu & Hw).
  intros [= <- <-]. split; [|exact Hw].
  intros a Ha. case_match; [done|].
  by eapply list_elem_of_lookup_2.
Qed.

(** The empty array gives [undefined]. *)
Lemma randomSelect_nil {A} w o w' :
  randomSelect (@nil A) w = (Ok o, w') -> o = None.
Proof.
  intros H. destruct o as [a|]; [|done].
  apply randomSelect_inv in H as [H _]. specialize (H a eq_refl).
  by apply elem_of_nil in H.
Qed.

(** A non-empty array of fewer than 2^31 elements gives one of them. *)
Lemma randomSelect_defined {A} (arr : list A) w o w' :
  arr <> [] -> Z.of_nat (length arr) < 2 ^ 31 ->
  randomSelect arr w = (Ok o, w') -> exists a, o = Some a /\ a ∈ arr.
Proof.
  intros Hne Hlen. unfold randomSelect, bind, ret.
  destruct (Math_random_range w) as (u & w1 & -> & Hu & _).
  intros [= <- <-].
  assert (Hlen0 : 0 < Z.of_nat (length arr)) by (destruct arr; [done|simpl; lia]).
  set (n := Z.of_nat (length arr)) in *.
  destruct (randomSelect_index n u ltac:(lia) Hu) as (-> & H0 & H1).
  specialize (H1 Hlen0).
  case_match; [lia|].
  destruct (lookup_lt_is_Some_2 arr (Z.to_nat (JS.round53 (u * n) / 2 ^ 53)))
    as [a Ha]; [lia|].
  exists a. split; [done|]. by eapply list_elem_of_lookup_2.
Qed.

(** Every element of an array of fewer than 2^31 elements is selected for
    some value of [Math.random()]. *)
Lemma randomSelect_onto {A} (arr : list A) (i : nat) (a : A) w :
  arr !! i = Some a -> Z.of_nat (length arr) < 2 ^ 31 ->
  exists u, forall us,
    outcome (randomSelect arr) (set_random (u :: us) w) = Ok (Some a).
Proof.
  intros Ha Hlen.
  pose proof (lookup_lt_Some _ _ _ Ha) as Hi.
  set (n := Z.of_nat (length arr)) in *.
  set (P := 2 ^ 53).
  assert (HP : P = 9007199254740992) by reflexivity.
  (* a value whose product with the length is about i + 1/2 *)
  exists ((Z.of_nat i * P + 2 ^ 52 + n - 1) / n). intros us.
  unfold outcome, randomSelect, bind, ret, Math_random. simpl.
  fold P. fold n.
  set (u := (Z.of_nat i * P + 2 ^ 52 + n - 1) / n).
  assert (Hn : 0 < n) by lia.
  change (2 ^ 52) with 4503599627370496 in *.
  assert (Hu : n * u <= Z.of_nat i * P + 4503599627370496 + n - 1 < n * u + n).
  { subst u.
    pose proof (Z.div_mod (Z.of_nat i * P + 4503599627370496 + n - 1) n ltac:(lia)) as E.
    pose proof (Z.mod_pos_bound (Z.of_nat i * P + 4503599627370496 + n - 1) n Hn) as B.
    lia. }
  change (2 ^ 31) with 2147483648 in Hlen.
  assert (Hu0 : 0 <= u < P) by (split; nia).
  rewrite (Z.mod_small u P Hu0).
  destruct (round53_near (u * n) n) as (_ & Hlo & Hhi); [fold P; nia|].
  assert (Hq : JS.round53 (u * n) / P = Z.of_nat i).
  { symmetry.
    apply (Z.div_unique _ _ _ (JS.round53 (u * n) - Z.of_nat i * P)); [left; nia|lia]. }
  rewrite Hq, TimeFacts.ToInt32_small by (change (2 ^ 31) with 2147483648; lia).
  case_match; [lia|]. by rewrite Nat2Z.id, Ha.
Qed.

Lemma getRandomAuthor_role r w a w' :
  getRandomAuthor authors (Some r) w = (Ok (Some a), w') ->
  a ∈ authors /\ role a = r.
Proof.
  unfold getRandomAuthor. intros H.
  apply randomSelect_inv in H as [H _]. specialize (H a eq_refl).
  by apply list_elem_of_filter in H as [? ?].
Qed.

Lemma getRandomAuthor_any w a w' :
  getRandomAuthor authors None w = (Ok (Some a), w') -> a ∈ authors.
Proof.
  unfold getRandomAuthor. intros H.
  apply randomSelect_inv in H as [H _]. by apply H.
Qed.

Lemma getRandomAuthor_empty r w o w' :
  filter (fun a => role a = r) authors = [] ->
  getRandomAuthor authors (Some r) w = (Ok o, w') -> o = None.
Proof. unfold getRandomAuthor. intros ->. apply randomSelect_nil. Qed.

Lemma getRandomAuthor_frame r w o w' :
  getRandomAuthor authors r w = (Ok o, w') ->
  refs w' = refs w /\ HEAD w' = HEAD w /\ odb w' = odb w /\
  trees w' = trees w /\ diffs w' = diffs w.
Proof.
  unfold getRandomAuthor. destruct r; intros H; by apply randomSelect_inv in H as [_ H].
Qed.

(** [determineAuthorForCommit] once the changed files are known. *)
Lemma determineAuthorForCommit_files c w v files :
  diffs w !! cid c = Some v -> v !! 0%nat = Some files ->
  let f := length (filter (fun p => JS.includes p FRONTEND_LABEL = true) files) in
  let b := length (filter (fun p => JS.includes p BACKEND_LABEL = true) files) in
  determineAuthorForCommit authors c w =
  getRandomAuthor authors
    (if (f <? b)%nat then Some backend
     else if (b <? f)%nat then Some frontend else None) w.
Proof.
  intros Hd Hv f b. unfold determineAuthorForCommit, bind, getCommitFiles.
  rewrite Hd, Hv. fold f b. by repeat case_match.
Qed.

Lemma determineAuthorForCommit_frame c w o w' :
  determineAuthorForCommit authors c w = (Ok o, w') ->
  refs w' = refs w /\ HEAD w' = HEAD w /\ odb w' = odb w /\
  trees w' = trees w /\ diffs w' = diffs w.
Proof.
  unfold determineAuthorForCommit, bind, getCommitFiles, throw.
  destruct (diffs w !! cid c) as [v|]; [|done].
  destruct (v !! 0%nat); [|done].
  repeat case_match; apply getRandomAuthor_frame.
Qed.

(** The selection leaves the fault schedule alone, whatever its outcome. *)
Lemma randomSelect_faults {A} (arr : list A) w r w' :
  randomSelect arr w = (r, w') -> faults w' = faults w.
Proof.
  unfold randomSelect, bind, ret, Math_random.
  destruct (random w); by intros [= _ <-].
Qed.

Lemma determineAuthorForCommit_faults c w r w' :
  determineAuthorForCommit authors c w = (r, w') -> faults w' = faults w.
Proof.
  unfold determineAuthorForCommit, bind, getCommitFiles, throw.
  destruct (diffs w !! cid c) as [v|]; [|by intros [= _ <-]].
  destruct (v !! 0%nat); [|by intros [= _ <-]].
  unfold getRandomAuthor. repeat case_match; apply randomSelect_faults.
Qed.

(** A diff that cannot be computed rejects the whole function. *)
Lemma determineAuthorForCommit_no_diff c w :
  diffs w !! cid c = None ->
  determineAuthorForCommit authors c w = (Err (GitError "diff cannot be computed"), w).
Proof.
  intros H. unfold determineAuthorForCommit, bind, getCommitFiles. by rewrite H.
Qed.

End Selection.

(** ** The backend operations *)

Lemma new_oid_fresh w : odb w !! new_oid w = None.
Proof. apply not_elem_of_dom. unfold new_oid. apply is_fresh. Qed.

Lemma target_of_HEAD w : target_of "HEAD" w = HEAD w.
Proof. unfold target_of. by rewrite decide_True. Qed.

Lemma tail_snoc {T} (arr : list T) x : tail (arr ++ [x]) = Some x.
Proof.
  unfold tail. destruct (arr ++ [x]) eqn:E; [by destruct arr|].
  rewrite <- E, length_app. simpl.
  replace (length arr + 1 - 1)%nat with (length arr + 0)%nat by lia.
  by rewrite lookup_app_r, Nat.add_0_r, Nat.sub_diag by lia.
Qed.

(** A failing backend call leaves the repository as it was. *)
Lemma getCommit_inv i w r w' :
  getCommit i w = (r, w') ->
  w' = w /\ match r with
            | Ok c => exists d, odb w !! i = Some d /\ c = mkCommit i d
            | Err _ => odb w !! i = None
            end.
Proof.
  unfold getCommit. destruct (odb w !! i) as [d|]; intros [= <- <-]; eauto.
Qed.

Lemma getHeadCommit_inv w r w' :
  getHeadCommit w = (r, w') ->
  w' = w /\ match r with
            | Ok c => exists d, refs w !! HEAD w = Some (cid c) /\
                                odb w !! cid c = Some d /\ c = mkCommit (cid c) d
            | Err _ => True
            end.
Proof.
  unfold getHeadCommit. destruct (refs w !! HEAD w) as [tip|]; [|by intros [= <- <-]].
  intros H. apply getCommit_inv in H as [-> H]. split; [done|].
  destruct r as [c|]; [|done]. destruct H as (d & Hd & ->). eauto.
Qed.

Lemma getTree_inv c w r w' :
  getTree c w = (r, w') ->
  w' = w /\ match r with
            | Ok t => t = tree c /\ tree c ∈ trees w
            | Err _ => tree c ∉ trees w
            end.
Proof. unfold getTree. case_decide; intros [= <- <-]; eauto. Qed.

(** A write that is refused changes nothing but the fault schedule. *)
Lemma next_write_frame w :
  refs (next_write w) = refs w /\ HEAD (next_write w) = HEAD w /\
  odb (next_write w) = odb w /\ trees (next_write w) = trees w /\
  diffs (next_write w) = diffs w /\ random (next_write w) = random w.
Proof. done. Qed.

(** Without a schedule no write is refused, and there is no schedule
    afterwards either. *)
Lemma no_faults_write w :
  faults w = [] -> refuses_write w = false /\ faults (next_write w) = [].
Proof. unfold refuses_write, next_write. by intros ->. Qed.

Lemma createCommit_inv sa sc msg t cur w r w' :
  createCommit "HEAD" sa sc msg t [cur] w = (r, w') ->
  match r with
  | Ok i =>
      i = new_oid w /\
      (refs w !! HEAD w = Some (cid cur) \/ refs w !! HEAD w = None) /\
      refuses_write w = false /\
      w' = set_refs (insert (HEAD w) i)
             (set_odb (insert i (mkCommitData sa sc msg t [cid cur])) (next_write w))
  | Err _ => w' = w \/ (refuses_write w = true /\ w' = next_write w)
  end.
Proof.
  unfold createCommit. cbv zeta. rewrite target_of_HEAD.
  destruct (refs w !! HEAD w) as [tip|].
  - case_decide as E; [|intros [= <- <-]; by left].
    subst tip. destruct (refuses_write w); intros [= <- <-]; eauto 10.
  - destruct (refuses_write w); intros [= <- <-]; eauto 10.
Qed.

(** ** The reducer *)

Section Rewriting.

Variable authors : list Author.
Variables changeTime keepAuthor : bool.

Local Abbreviation step := (recommit authors changeTime keepAuthor).

(** A failed attempt changes nothing in the repository: it leaves the state
    as it was, or, when it is the write that was refused, with the fault
    schedule moved on. *)
Lemma attempt_err commits c sa sc w e w' :
  attempt commits c sa sc w = (Err e, w') ->
  w' = w \/ (refuses_write w = true /\ w' = next_write w).
Proof.
  unfold attempt, bind, ret.
  destruct (match tail commits with
            | Some lastCommit => getCommit (id lastCommit)
            | None => getHeadCommit
            end w) as [[cur|e1] w1] eqn:E1.
  - assert (w1 = w) as ->.
    { destruct (tail commits); [by apply getCommit_inv in E1 as [-> _]|
                                 by apply getHeadCommit_inv in E1 as [-> _]]. }
    destruct (getTree c w) as [[t|e2] w2] eqn:E2;
      apply getTree_inv in E2 as [-> E2]; [|intros [= _ <-]; by left].
    destruct (createCommit _ _ _ _ _ _ w) as [[i|e3] w3] eqn:E3; [done|].
    apply createCommit_inv in E3. by intros [= _ <-].
  - intros [= _ <-]. left.
    destruct (tail commits); [by apply getCommit_inv in E1 as [-> _]|
                               by apply getHeadCommit_inv in E1 as [-> _]].
Qed.


(** A successful attempt creates one commit, on top of [parent_of], and
    moves [HEAD]'s branch to it. *)
Lemma attempt_ok commits c sa sc w acc' w' :
  attempt commits c sa sc w = (Ok acc', w') ->
  exists p,
    parent_of commits w = Some p /\
    acc' = commits ++ [commitStats (new_oid w) c sa] /\
    w' = set_refs (insert (HEAD w) (new_oid w))
           (set_odb (insert (new_oid w)
                       (mkCommitData sa sc
                          (JS.replace (message c) "MAKHROVYI" "AnotherOneProject")
                          (tree c) [p])) (next_write w)).
Proof.
  unfold attempt, bind, ret, parent_of.
  destruct (match tail commits with
            | Some lastCommit => getCommit (id lastCommit)
            | None => getHeadCommit
            end w) as [[cur|e1] w1] eqn:E1; [|done].
  assert (w1 = w /\ match tail commits with
                    | Some lastCommit => Some (id lastCommit)
                    | None => refs w !! HEAD w
                    end = Some (cid cur)) as [-> Hp].
  { destruct (tail commits) as [l|].
    - apply getCommit_inv in E1 as [-> (d & _ & ->)]. done.
    - apply getHeadCommit_inv in E1 as [-> (d & Hr & _)]. done. }
  destruct (getTree c w) as [[t|e2] w2] eqn:E2;
    apply getTree_inv in E2 as [-> E2]; [|done].
  destruct E2 as [-> _].
  destruct (createCommit _ _ _ _ _ _ w) as [[i|e3] w3] eqn:E3; [|done].
  apply createCommit_inv in E3 as (-> & _ & _ & ->).
  intros [= <- <-]. exists (cid cur). done.
Qed.

(** The two ways a step of the reducer can resolve. *)
Lemma recommit_ok commits c w acc' w' :
  step commits c w = (Ok acc', w') ->
  exists a w1 sa sc,
    determineAuthorForCommit authors c w = (Ok a, w1) /\
    authorSignature changeTime keepAuthor a c = Ok sa /\
    commiterSignature changeTime keepAuthor a c = Ok sc /\
    (attempt commits c sa sc w1 = (Ok acc', w') \/
     (exists e, attempt commits c sa sc w1 = (Err e, w')) /\ acc' = commits /\
     (w' = w1 \/ w' = next_write w1)).
Proof.
  unfold recommit, bind, lift, try_catch, ret.
  destruct (determineAuthorForCommit authors c w) as [[a|e] w1] eqn:E; [|done].
  destruct (authorSignature changeTime keepAuthor a c) as [sa|e] eqn:Ea; [|done].
  destruct (commiterSignature changeTime keepAuthor a c) as [sc|e] eqn:Ec; [|done].
  destruct (attempt commits c sa sc w1) as [[acc1|e] w2] eqn:Et.
  - intros [= <- <-]. exists a, w1, sa, sc. eauto.
  - intros [= <- <-]. pose proof (attempt_err _ _ _ _ _ _ _ Et) as Hw.
    exists a, w1, sa, sc. split; [done|]. split; [done|]. split; [done|]. right.
    split; [by exists e|]. split; [done|]. destruct Hw as [->|[_ ->]]; auto.
Qed.


Lemma parent_of_frame commits w w' :
  refs w' = refs w -> HEAD w' = HEAD w -> parent_of commits w' = parent_of commits w.
Proof. unfold parent_of. by intros -> ->. Qed.

(** What one resolved step does: nothing but a random draw, or one new
    commit on top of [parent_of]. *)
Lemma recommit_step commits c w acc' w' :
  step commits c w = (Ok acc', w') ->
  odb w ⊆ odb w' /\
  ((acc' = commits /\ refs w' = refs w /\ HEAD w' = HEAD w /\ odb w' = odb w) \/
   (exists r, acc' = commits ++ [r] /\ linked (odb w') (parent_of commits w) [r] /\
              rewrite_of (odb w') c r /\
              HEAD w' = HEAD w /\ refs w' !! HEAD w' = Some (id r))).
Proof.
  intros H. apply recommit_ok in H as (a & w1 & sa & sc & E & _ & _ & H).
  apply determineAuthorForCommit_frame in E as (Er & Eh & Eo & _).
  destruct H as [H|(_ & -> & Hw)].
  - apply attempt_ok in H as (p & Hp & -> & ->). simpl.
    rewrite <- Eo. split; [apply insert_subseteq, new_oid_fresh|].
    right. eexists. split; [done|]. simpl.
    rewrite lookup_insert_eq. split; [|split; [|by rewrite lookup_insert_eq]].
    + split; [|done]. eexists _, p. split; [|done].
      by rewrite <- (parent_of_frame commits w w1).
    + eexists. split; [apply lookup_insert_eq|]. done.
  - assert (refs w' = refs w1 /\ HEAD w' = HEAD w1 /\ odb w' = odb w1)
      as (Er' & Eh' & Eo') by (by destruct Hw as [->| ->]).
    rewrite Eo', Eo. split; [done|]. left. repeat split; congruence.
Qed.



End Rewriting.

(** ** The first commit *)

Section Seed.

Variable authors : list Author.

Lemma amend_inv c sa sc msg t w r w' :
  amend c "HEAD" sa sc msg t w = (r, w') ->
  match r with
  | Ok i =>
      i = new_oid w /\ refs w !! HEAD w = Some (cid c) /\
      w' = set_refs (insert (HEAD w) i)
             (set_odb (insert i (mkCommitData sa sc msg t (parents c))) (next_write w))
  | Err _ => w' = w \/ (refuses_write w = true /\ w' = next_write w)
  end.
Proof.
  unfold amend. cbv zeta. rewrite target_of_HEAD.
  destruct (refs w !! HEAD w) as [tip|]; [|intros [= <- <-]; by left].
  case_decide as E; [|intros [= <- <-]; by left]. subst tip.
  destruct (refuses_write w); intros [= <- <-]; eauto.
Qed.

(** A successful seed step stores a copy of the first commit with the
    computed signatures, and leaves it as the [HEAD] commit. *)
Lemma amendFirstCommit_ok changeTime keepAuthor c w r w' :
  amendFirstCommit authors changeTime keepAuthor (Some c) w = (Ok r, w') ->
  exists a w1 sa sc,
    determineAuthorForCommit authors c w = (Ok a, w1) /\
    authorSignature changeTime keepAuthor a c = Ok sa /\
    commiterSignature changeTime keepAuthor a c = Ok sc /\
    refs w1 !! HEAD w1 = Some (cid c) /\
    r = commitStats (new_oid w1) c sa /\
    w' = set_refs (insert (HEAD w1) (new_oid w1))
           (set_odb (insert (new_oid w1)
                       (mkCommitData sa sc (message c) (tree c) (parents c)))
              (next_write w1)).
Proof.
  unfold amendFirstCommit, bind, lift, ret.
  destruct (determineAuthorForCommit authors c w) as [[a|e] w1] eqn:E; [|done].
  destruct (authorSignature changeTime keepAuthor a c) as [sa|e] eqn:Ea; [|done].
  destruct (commiterSignature changeTime keepAuthor a c) as [sc|e] eqn:Ec; [|done].
  destruct (getTree c w1) as [[t|e2] w2] eqn:E2;
    apply getTree_inv in E2 as [-> E2]; [|done].
  destruct E2 as [-> _].
  destruct (amend c "HEAD" sa sc (message c) (tree c) w1) as [[i|e3] w3] eqn:E3; [|done].
  apply amend_inv in E3 as (-> & Ht & ->).
  intros [= <- <-]. exists a, w1, sa, sc. done.
Qed.

Lemma amendFirstCommit_head changeTime keepAuthor c w r w' :
  amendFirstCommit authors changeTime keepAuthor (Some c) w = (Ok r, w') ->
  parent_of [] w' = Some (id r) /\ HEAD w' = HEAD w.
Proof.
  intros H. apply amendFirstCommit_ok in H as (a & w1 & sa & sc & E & _ & _ & _ & -> & ->).
  apply determineAuthorForCommit_frame in E as (_ & Eh & _).
  unfold parent_of. simpl. by rewrite lookup_insert_eq.
Qed.

End Seed.

(** ** Branch resolution and materialization *)

Section Branches.

Variable authors : list Author.

Lemma getBranch_inv name w r w' :
  getBranch name w = (r, w') ->
  w' = w /\ match r with
            | Ok b => b = name /\ is_Some (refs w !! name)
            | Err e => refs w !! name = None /\
                       e = GitError ("no reference found for shorthand " +:+ name)
            end.
Proof.
  unfold getBranch. destruct (refs w !! name) eqn:E; intros [= <- <-]; eauto.
Qed.

Lemma resolveBranch_inv name w r w' :
  resolveBranch name w = (r, w') ->
  w' = w /\ match r with
            | Ok b => b = name /\ is_Some (refs w !! name)
            | Err e => refs w !! name = None /\
                       e = GitError ("no reference found for shorthand " +:+ name)
            end.
Proof.
  unfold resolveBranch, bind, resolve, ret, toString.
  destruct (getBranch name w) as [[b|e] w1] eqn:E;
    apply getBranch_inv in E as [-> E]; intros [= <- <-]; eauto.
Qed.

Lemma findOriginalBranch_inv name w r w' :
  findOriginalBranch name w = (r, w') -> w' = w.
Proof.
  unfold findOriginalBranch, bind, try_catch, ret.
  destruct (resolveBranch name w) as [[b|e] w1] eqn:E;
    apply resolveBranch_inv in E as [-> _].
  - destruct (falsy (Some b)); [|by intros [= _ <-]].
    destruct (resolveBranch _ w) as [[b'|e'] w2] eqn:E';
      apply resolveBranch_inv in E' as [-> _]; by intros [= _ <-].
  - simpl. destruct (resolveBranch _ w) as [[b'|e'] w2] eqn:E';
      apply resolveBranch_inv in E' as [-> _]; by intros [= _ <-].
Qed.

(** A source branch that does not resolve stops the run at its first
    statement, before any fallback, the repository untouched. *)
Lemma run_unresolved repositoryName options w :
  refs w !! default "master" (branch options) = None ->
  run authors repositoryName options w
    = (Err (GitError ("no reference found for shorthand "
                      +:+ default "master" (branch options))), w).
Proof.
  intros H. unfold run, bind.
  destruct (resolveBranch _ w) as [[b|e] w1] eqn:E;
    apply resolveBranch_inv in E as [-> E].
  - destruct E as [_ [x Hx]]. congruence.
  - by destruct E as [_ ->].
Qed.


(** Materialization succeeds from any state. *)
Lemma materialize_any name c0 w :
  exists w1,
    materialize name (Some c0) w = (Ok name, w1) /\
    refs w1 = <[name := cid c0]> (refs w) /\ HEAD w1 = name /\
    odb w1 = odb w /\ trees w1 = trees w /\ diffs w1 = diffs w /\
    random w1 = random w /\ faults w1 = faults w.
Proof.
  unfold materialize, bind, try_catch, createBranch, getBranch, delete_ref,
    checkoutBranch, ret.
  destruct (refs w !! name) as [i|] eqn:E; simpl.
  - case_decide as Eh; simpl.
    + rewrite E. simpl. rewrite lookup_delete_eq. simpl.
      eexists. split; [done|]. simpl. by rewrite insert_delete_eq.
    + eexists. split; [done|]. done.
  - eexists. split; [done|]. done.
Qed.




End Branches.

(** ** A second run *)

Section SecondRun.

Variable authors : list Author.
Variables changeTime keepAuthor : bool.

Local Abbreviation step := (recommit authors changeTime keepAuthor).

Lemma randomSelect_total {A} (arr : list A) w :
  exists o w', randomSelect arr w = (Ok o, w').
Proof.
  unfold randomSelect, bind, ret.
  destruct (Math_random_range w) as (u & w1 & -> & _). eauto.
Qed.

Lemma determineAuthorForCommit_candidates c w v files :
  diffs w !! cid c = Some v -> v !! 0%nat = Some files ->
  determineAuthorForCommit authors c w = randomSelect (candidates authors files) w.
Proof.
  intros Hd Hv.
  pose proof (determineAuthorForCommit_files authors c w v files Hd Hv) as E.
  cbv zeta in E. rewrite E. unfold candidates, getRandomAuthor. cbv zeta.
  destruct (_ <? _)%nat; [done|]. by destruct (_ <? _)%nat.
Qed.

Lemma candidates_length files :
  (length (candidates authors files) <= length authors)%nat.
Proof. unfold candidates. cbv zeta. repeat case_match; [apply length_filter..|done]. Qed.

(** A commit whose signatures were computed is ready. *)
Lemma ready_of_prelude c w a w1 sa :
  determineAuthorForCommit authors c w = (Ok a, w1) ->
  authorSignature changeTime keepAuthor a c = Ok sa ->
  ready authors keepAuthor w c.
Proof.
  intros E Ea.
  assert (exists v files, diffs w !! cid c = Some v /\ v !! 0%nat = Some files)
    as (v & files & Hd & Hv).
  { revert E. unfold determineAuthorForCommit, bind, getCommitFiles, throw.
    destruct (diffs w !! cid c) as [v|]; [|done].
    destruct (v !! 0%nat) as [files|] eqn:Hv; [|done]. intros _. by exists v, files. }
  exists v, files. split; [done|]. split; [done|].
  destruct keepAuthor; [by left|right].
  unfold authorSignature in Ea. destruct a as [x|]; [|done].
  rewrite (determineAuthorForCommit_candidates c w v files Hd Hv) in E.
  apply randomSelect_inv in E as [E _]. specialize (E x eq_refl).
  intros Hnil. rewrite Hnil in E. by apply elem_of_nil in E.
Qed.


Lemma ready_frame c w w' :
  diffs w' = diffs w -> ready authors keepAuthor w c -> ready authors keepAuthor w' c.
Proof. unfold ready. by intros ->. Qed.

(** What a resolved step leaves as it was. *)
Lemma recommit_frame commits c w acc' w' :
  step commits c w = (Ok acc', w') ->
  trees w' = trees w /\ diffs w' = diffs w /\ HEAD w' = HEAD w /\
  odb w ⊆ odb w' /\ (forall n, n <> HEAD w -> refs w' !! n = refs w !! n).
Proof.
  intros H. apply recommit_ok in H as (a & w1 & sa & sc & E & _ & _ & H).
  apply determineAuthorForCommit_frame in E as (Er & Eh & Eo & Et & Ed).
  destruct H as [H|(_ & _ & Hw)].
  - apply attempt_ok in H as (p & _ & _ & ->). simpl.
    rewrite Et, Ed, Eh, <- Eo, Er. split; [done|]. split; [done|]. split; [done|].
    split; [apply insert_subseteq, new_oid_fresh|].
    intros n Hn. by rewrite lookup_insert_ne.
  - destruct Hw as [->| ->]; simpl; rewrite Et, Ed, Eh, Eo, Er; done.
Qed.

(** Without a fault schedule at the start there is none afterwards. *)
Lemma recommit_faults commits c w r w' :
  faults w = [] -> step commits c w = (r, w') -> faults w' = [].
Proof.
  intros Hf. unfold recommit, bind, lift, try_catch, ret.
  destruct (determineAuthorForCommit authors c w) as [[a|e] w1] eqn:E;
    apply determineAuthorForCommit_faults in E; rewrite Hf in E;
    [|intros [= _ <-]; done].
  destruct (authorSignature changeTime keepAuthor a c); [|intros [= _ <-]; done].
  destruct (commiterSignature changeTime keepAuthor a c); [|intros [= _ <-]; done].
  destruct (no_faults_write w1 E) as [_ Hn].
  destruct (attempt commits c _ _ w1) as [[acc|e] w2] eqn:Et.
  - apply attempt_ok in Et as (p & _ & _ & ->). by intros [= _ <-].
  - apply attempt_err in Et as [->|[_ ->]]; by intros [= _ <-].
Qed.

Lemma reduce_faults l commits w r w' :
  faults w = [] -> reduce step l commits w = (r, w') -> faults w' = [].
Proof.
  revert commits w. induction l as [|c rest IH]; intros commits w Hf; simpl.
  - by intros [= _ <-].
  - unfold bind. destruct (step commits c w) as [[acc1|e] w1] eqn:E;
      apply (recommit_faults _ _ _ _ _ Hf) in E.
    + by apply IH.
    + by intros [= _ <-].
Qed.


(** A fold that resolved had only ready commits; a fold over ready commits
    resolves. *)
Lemma reduce_ready l commits w acc' w' :
  reduce step l commits w = (Ok acc', w') ->
  Forall (ready authors keepAuthor w) l.
Proof.
  revert commits w. induction l as [|c rest IH]; intros commits w; simpl; [done|].
  unfold bind. destruct (step commits c w) as [[acc1|e] w1] eqn:E; [|done].
  intros H. apply IH in H.
  pose proof (recommit_frame _ _ _ _ _ E) as (_ & Ed & _).
  apply recommit_ok in E as (a & w2 & sa & sc & E & Ea & _).
  constructor; [by eapply ready_of_prelude|].
  eapply Forall_impl; [exact H|]. intros c'. apply ready_frame. by rewrite Ed.
Qed.




Lemma amendFirstCommit_faults c w r w' :
  faults w = [] ->
  amendFirstCommit authors changeTime keepAuthor c w = (r, w') -> faults w' = [].
Proof.
  intros Hf. destruct c as [c|]; [|by intros [= _ <-]].
  unfold amendFirstCommit, bind, lift, ret.
  destruct (determineAuthorForCommit authors c w) as [[a|e] w1] eqn:E;
    apply determineAuthorForCommit_faults in E; rewrite Hf in E;
    [|intros [= _ <-]; done].
  destruct (authorSignature changeTime keepAuthor a c); [|intros [= _ <-]; done].
  destruct (commiterSignature changeTime keepAuthor a c); [|intros [= _ <-]; done].
  destruct (no_faults_write w1 E) as [_ Hn].
  destruct (getTree c w1) as [[t|e2] w2] eqn:E2;
    apply getTree_inv in E2 as [-> E2]; [|intros [= _ <-]; done].
  destruct (amend c "HEAD" _ _ (message c) t w1) as [[i|e3] w3] eqn:E3;
    apply amend_inv in E3.
  - destruct E3 as (_ & _ & ->). by intros [= _ <-].
  - destruct E3 as [->|[_ ->]]; by intros [= _ <-].
Qed.

Lemma amendFirstCommit_frame c w r w' :
  amendFirstCommit authors changeTime keepAuthor (Some c) w = (Ok r, w') ->
  ready authors keepAuthor w c /\ tree c ∈ trees w /\
  trees w' = trees w /\ diffs w' = diffs w /\ HEAD w' = HEAD w /\
  odb w ⊆ odb w' /\ (forall n, n <> HEAD w -> refs w' !! n = refs w !! n).
Proof.
  intros H.
  assert (Ht : tree c ∈ trees w).
  { revert H. unfold amendFirstCommit, bind, lift.
    destruct (determineAuthorForCommit authors c w) as [[a|e] w1] eqn:E; [|done].
    apply determineAuthorForCommit_frame in E as (_ & _ & _ & Et & _).
    destruct (authorSignature _ _ _ _); [|done].
    destruct (commiterSignature _ _ _ _); [|done].
    destruct (getTree c w1) as [[t|e2] w2] eqn:E2; [|done].
    apply getTree_inv in E2 as [_ [_ E2]]. by rewrite <- Et. }
  apply amendFirstCommit_ok in H as (a & w1 & sa & sc & E & Ea & _ & _ & _ & ->).
  split; [by eapply ready_of_prelude|]. split; [done|].
  apply determineAuthorForCommit_frame in E as (Er & Eh & Eo & Et & Ed). simpl.
  rewrite Et, Ed, Eh, <- Eo, Er. split; [done|]. split; [done|]. split; [done|].
  split; [apply insert_subseteq, new_oid_fresh|].
  intros n Hn. by rewrite lookup_insert_ne.
Qed.

(** A complete history is walked the same way with more fuel and more
    objects. *)
Lemma revwalk_stable n objs tip n' objs' :
  rooted n objs tip = true -> (n <= n')%nat -> objs ⊆ objs' ->
  revwalk n' objs' tip = revwalk n objs tip.
Proof.
  intros Hr Hn Hsub. revert tip n' Hr Hn.
  induction n as [|n IH]; intros tip n' Hr Hn; [done|].
  destruct n' as [|n']; [lia|]. simpl in *.
  destruct (objs !! tip) as [d|] eqn:Hd; [|done].
  rewrite (lookup_weaken _ _ _ _ Hd Hsub).
  destruct (obj_parents d) as [|p ps]; [done|].
  f_equal. apply IH; [done|lia].
Qed.


End SecondRun.

Section Twice.

Variable authors : list Author.

Lemma length_append (a b : string) :
  String.length (a +:+ b) = (String.length a + String.length b)%nat.
Proof.
  induction a as [|x a IH]; [done|].
  rewrite StringFacts.append_cons. simpl. by rewrite IH.
Qed.

Lemma newBranchName_fresh b :
  newBranchName b <> b /\ newBranchName b <> "origin/" +:+ b.
Proof.
  unfold newBranchName. split.
  - intros E. apply (f_equal String.length) in E.
    rewrite length_append in E. simpl in E. lia.
  - rewrite !StringFacts.append_cons. discriminate.
Qed.





End Twice.

(** ** Steps that go through *)

(** The attempt succeeds when the commit to build on is the [HEAD] commit,
    the tree can be read and the write is not refused. *)
Lemma attempt_total commits c sa sc w :
  on_head commits w -> tree c ∈ trees w -> refuses_write w = false ->
  exists acc' w', attempt commits c sa sc w = (Ok acc', w').
Proof.
  intros (p & d & Hp & Hd & Hh) Ht Hw. unfold attempt, bind, ret.
  assert (match tail commits with
          | Some lastCommit => getCommit (id lastCommit)
          | None => getHeadCommit
          end w = (Ok (mkCommit p d), w)) as ->.
  { unfold parent_of in Hp. destruct (tail commits) as [l|].
    - injection Hp as ->. unfold getCommit. by rewrite Hd.
    - unfold getHeadCommit, getCommit. by rewrite Hh, Hd. }
  unfold getTree. rewrite decide_True by done.
  unfold createCommit. cbv zeta. rewrite target_of_HEAD, Hh. simpl.
  rewrite decide_True by done. rewrite Hw. eauto.
Qed.

Lemma on_head_frame commits w w' :
  refs w' = refs w -> HEAD w' = HEAD w -> odb w' = odb w ->
  on_head commits w -> on_head commits w'.
Proof.
  intros Er Eh Eo (p & d & Hp & Hd & Hh). exists p, d.
  by rewrite (parent_of_frame commits w w'), Eo, Er, Eh.
Qed.









(** ** What a run leaves alone *)

Lemma touches_only_refl name w : touches_only name w w.
Proof. by repeat split. Qed.

Lemma touches_only_trans name w1 w2 w3 :
  touches_only name w1 w2 -> touches_only name w2 w3 -> touches_only name w1 w3.
Proof.
  intros (Ho1 & Et1 & Ed1 & Hr1) (Ho2 & Et2 & Ed2 & Hr2).
  split; [by etrans|]. split; [congruence|]. split; [congruence|].
  intros n Hn. rewrite Hr2 by done. by apply Hr1.
Qed.

Lemma touches_only_same name w w' :
  refs w' = refs w -> odb w' = odb w -> trees w' = trees w -> diffs w' = diffs w ->
  touches_only name w w'.
Proof. intros Er Eo Et Ed. split; [by rewrite Eo|]. split; [done|]. split; [done|]. by rewrite Er. Qed.

(** Selecting an author, whatever the outcome, consumes random values at
    most. *)
Lemma determineAuthorForCommit_frame_any authors c w r w' :
  determineAuthorForCommit authors c w = (r, w') ->
  refs w' = refs w /\ HEAD w' = HEAD w /\ odb w' = odb w /\
  trees w' = trees w /\ diffs w' = diffs w.
Proof.
  destruct r as [o|e]; [apply determineAuthorForCommit_frame|].
  unfold determineAuthorForCommit, bind, getCommitFiles, throw.
  destruct (diffs w !! cid c) as [v|]; [|by intros [= _ <-]].
  destruct (v !! 0%nat) as [files|]; [|by intros [= _ <-]].
  unfold getRandomAuthor.
  repeat case_match;
    match goal with
    | |- randomSelect ?arr w = _ -> _ =>
        destruct (randomSelect_total arr w) as (o & w1 & ->); discriminate
    end.
Qed.

(** A step of the reducer, whatever its outcome, adds objects and moves the
    [HEAD] branch at most. *)
Lemma recommit_any authors changeTime keepAuthor commits c w r w' :
  recommit authors changeTime keepAuthor commits c w = (r, w') ->
  touches_only (HEAD w) w w' /\ HEAD w' = HEAD w.
Proof.
  destruct r as [acc'|e].
  - intros H. apply recommit_frame in H as (Et & Ed & Eh & Eo & Er). by repeat split.
  - unfold recommit, bind, lift, try_catch, ret.
    destruct (determineAuthorForCommit authors c w) as [[a|e1] w1] eqn:E;
      apply determineAuthorForCommit_frame_any in E as (Er & Eh & Eo & Et & Ed).
    + destruct (authorSignature changeTime keepAuthor a c);
        [|intros [= _ <-]; split; [by apply touches_only_same|done]].
      destruct (commiterSignature changeTime keepAuthor a c);
        [|intros [= _ <-]; split; [by apply touches_only_same|done]].
      by destruct (attempt commits c _ _ w1) as [[?|?] ?].
    + intros [= _ <-]. split; [by apply touches_only_same|done].
Qed.

Lemma reduce_any authors changeTime keepAuthor l commits w r w' :
  reduce (recommit authors changeTime keepAuthor) l commits w = (r, w') ->
  touches_only (HEAD w) w w' /\ HEAD w' = HEAD w.
Proof.
  revert commits w. induction l as [|c rest IH]; intros commits w; simpl.
  - intros [= _ <-]. split; [apply touches_only_refl|done].
  - unfold bind.
    destruct (recommit authors changeTime keepAuthor commits c w)
      as [[acc1|e] w1] eqn:E; apply recommit_any in E as [Ht Eh].
    + intros H. apply IH in H as [Ht' Eh']. rewrite Eh in Ht'.
      split; [by eapply touches_only_trans|congruence].
    + by intros [= _ <-].
Qed.

Lemma amendFirstCommit_any authors changeTime keepAuthor c w r w' :
  amendFirstCommit authors changeTime keepAuthor c w = (r, w') ->
  touches_only (HEAD w) w w' /\ HEAD w' = HEAD w.
Proof.
  destruct c as [c|]; [|intros [= _ <-]; split; [apply touches_only_refl|done]].
  destruct r as [r|e].
  - intros H. apply amendFirstCommit_frame in H as (_ & _ & Et & Ed & Eh & Eo & Er).
    by repeat split.
  - unfold amendFirstCommit, bind, lift, ret.
    destruct (determineAuthorForCommit authors c w) as [[a|e1] w1] eqn:E;
      apply determineAuthorForCommit_frame_any in E as (Er & Eh & Eo & Et & Ed);
      [|intros [= _ <-]; split; [by apply touches_only_same|done]].
    destruct (authorSignature changeTime keepAuthor a c) as [sa|];
      [|intros [= _ <-]; split; [by apply touches_only_same|done]].
    destruct (commiterSignature changeTime keepAuthor a c) as [sc|];
      [|intros [= _ <-]; split; [by apply touches_only_same|done]].
    destruct (getTree c w1) as [[t|e2] w2] eqn:E2;
      apply getTree_inv in E2 as [-> E2];
      [|intros [= _ <-]; split; [by apply touches_only_same|done]].
    destruct (amend c "HEAD" sa sc (message c) t w1) as [[i|e3] w3] eqn:E3; [done|].
    apply amend_inv in E3. intros [= _ <-].
    destruct E3 as [->|[_ ->]]; (split; [by apply touches_only_same|done]).
Qed.

(** Materialization without a first commit throws, having deleted the
    pointer of that name at most. *)
Lemma materialize_none name w :
  exists e w', materialize name None w = (Err e, w') /\ touches_only name w w'.
Proof.
  unfold materialize, bind, try_catch, createBranch, getBranch, delete_ref.
  destruct (refs w !! name); eexists _, _; (split; [done|]).
  - split; [done|]. split; [done|]. split; [done|].
    intros n Hn. simpl. by rewrite lookup_delete_ne.
  - apply touches_only_refl.
Qed.

(** A run, whatever its outcome. *)
Lemma run_any authors repositoryName options w r w' :
  run authors repositoryName options w = (r, w') ->
  touches_only (newBranchName (default "master" (branch options))) w w'.
Proof.
  unfold run, bind.
  destruct (resolveBranch _ w) as [[b|e] w1] eqn:E1;
    apply resolveBranch_inv in E1 as [-> _];
    [|intros [= _ <-]; apply touches_only_refl].
  destruct (findOriginalBranch _ w) as [[ob|e] w1] eqn:E2;
    apply findOriginalBranch_inv in E2 as ->;
    [|intros [= _ <-]; apply touches_only_refl].
  destruct ob as [ob|]; [|intros [= _ <-]; apply touches_only_refl].
  case_bool_decide; [intros [= _ <-]; apply touches_only_refl|].
  destruct (getCommitsUntil ob w) as [[found|e] w1] eqn:E3.
  2: { revert E3. unfold getCommitsUntil. case_match; [done|].
       intros [= _ <-] [= _ <-]. apply touches_only_refl. }
  assert (w1 = w) as ->.
  { revert E3. unfold getCommitsUntil. by case_match; intros [= _ <-]. }
  set (dest := newBranchName (default "master" (branch options))).
  destruct (rev found) as [|c0 cs].
  { destruct (materialize_none dest w) as (e & wm & -> & T). by intros [= _ <-]. }
  destruct (materialize_any dest c0 w) as (wm & -> & Er & Eh & Eo & Et & Ed & _).
  assert (Tm : touches_only dest w wm).
  { split; [by rewrite Eo|]. split; [done|]. split; [done|].
    intros n Hn. by rewrite Er, lookup_insert_ne. }
  destruct (amendFirstCommit authors _ _ (Some c0) wm) as [[r0|e] wa] eqn:Ea;
    apply amendFirstCommit_any in Ea as [Ta Eha]; rewrite Eh in Ta.
  2: { intros [= _ <-]. by eapply touches_only_trans. }
  assert (Twa : touches_only dest w wa) by (by eapply touches_only_trans).
  destruct (reduce _ cs [] wa) as [[news|e] w3] eqn:E5;
    apply reduce_any in E5 as [T5 Eh5]; rewrite Eha, Eh in T5;
    intros [= _ <-]; by eapply touches_only_trans.
Qed.

(** ** The instants of a rewrite *)

(** The instants of the two signatures the program computes for the rewrite
    of a commit. *)
Lemma signature_instants changeTime keepAuthor a c sa sc :
  authorSignature changeTime keepAuthor a c = Ok sa ->
  commiterSignature changeTime keepAuthor a c = Ok sc ->
  rewritten_instants changeTime keepAuthor c (sig_time sa) (sig_time sc).
Proof.
  unfold authorSignature, commiterSignature, authorTime, commiterTime.
  intros Ha Hc. split; [|split].
  - intros ->. destruct keepAuthor; [by simplify_eq|].
    destruct a; by simplify_eq.
  - intros ->. by simplify_eq.
  - intros -> ->. destruct a as [a|]; [|done]. simplify_eq. simpl.
    split; [done|]. split; [done|].
    split; intros s Hs Hr;
      rewrite (TimeFacts.operateTime_in_range _ s Hs) by lia;
      by apply TimeFacts.ToInt32_small.
Qed.

(** ** The example repository *)

Lemma no_name_conflict_repo : no_name_conflict "recommited/master" Examples.repo.
Proof.
  intros n [x Hn]. destruct (decide (n = "master")) as [->|Hne]; [by vm_compute|].
  exfalso. revert Hn. unfold Examples.repo. simpl.
  rewrite lookup_insert_ne by done. by rewrite lookup_empty.
Qed.


Lemma linear_repo : linear Examples.repo 4%N.
Proof. unfold linear. vm_compute. repeat constructor. Qed.

Lemma coherent_repo : coherent Examples.repo.
Proof.
  intros i d Hi _. revert Hi. unfold Examples.repo, Examples.objects. simpl.
  repeat (rewrite lookup_insert_Some; intros [[_ <-]|[_ Hi]];
          [vm_compute; set_solver|revert Hi]).
  by rewrite lookup_empty.
Qed.

Lemma ready_repo authors :
  Forall (fun c => ready authors true Examples.repo c /\ tree c ∈ trees Examples.repo)
    [Examples.c0; Examples.c1; Examples.c2; Examples.c3].
Proof.
  repeat constructor;
    try (eexists _, _; split; [vm_compute; reflexivity|];
         split; [reflexivity|]; by left);
    vm_compute; set_solver.
Qed.

(* ===================================================================== *)
(** * The claims *)
(* ===================================================================== *)



(** C2, as amended.  A failure to compute the diff of a commit of the
    sequence is not caught by the step: [determineAuthorForCommit] is
    awaited before the [try] block, so the step rejects, the repository is
    left as the earlier steps made it, and the fold rejects with the same
    error without attempting the commits after it. *)
Theorem diff_failure_aborts
    (authors : list Author) (changeTime keepAuthor : bool)
    (commits : list CommitStats) (c : Commit) (rest : list Commit) (w : World) :
  diffs w !! cid c = None ->
  recommit authors changeTime keepAuthor commits c w
    = (Err (GitError "diff cannot be computed"), w) /\
  reduce (recommit authors changeTime keepAuthor) (c :: rest) commits w
    = (Err (GitError "diff cannot be computed"), w).
Proof.
  intros H.
  assert (E : recommit authors changeTime keepAuthor commits c w
              = (Err (GitError "diff cannot be computed"), w)).
  { unfold recommit, bind. by rewrite determineAuthorForCommit_no_diff. }
  split; [exact E|]. simpl. unfold bind. by rewrite E.
Qed.

(** C2, as amended, on the example repository whose third commit has no
    diff. *)
Lemma diff_failure_aborts_witness :
  diffs Examples.repo_broken_diff !! cid Examples.c2 = None /\
  recommit Examples.pool false true [] Examples.c2 Examples.repo_broken_diff
    = (Err (GitError "diff cannot be computed"), Examples.repo_broken_diff) /\
  reduce (recommit Examples.pool false true) [Examples.c2; Examples.c3] []
    Examples.repo_broken_diff
    = (Err (GitError "diff cannot be computed"), Examples.repo_broken_diff).
Proof.
  assert (H : diffs Examples.repo_broken_diff !! cid Examples.c2 = None)
    by (vm_compute; reflexivity).
  split; [exact H|].
  exact (diff_failure_aborts Examples.pool false true [] Examples.c2 [Examples.c3]
           Examples.repo_broken_diff H).
Defined.

(** C2 as stated fails: on the example repository whose third commit has no
    diff, the whole run rejects with the diff error instead of dropping that
    commit and going on; only the first two commits have been rewritten
    (four original objects and two new ones), the fourth was not
    attempted. *)
Lemma diff_failure_not_caught :
  outcome (run Examples.pool "./repo" Examples.opts_keep) Examples.repo_broken_diff
    = Err (GitError "diff cannot be computed") /\
  size (odb (world_after (run Examples.pool "./repo" Examples.opts_keep)
               Examples.repo_broken_diff)) = 6%nat /\
  diffs Examples.repo_broken_diff !! cid Examples.c3 <> None.
Proof. vm_compute. split; [reflexivity|]. split; [reflexivity|discriminate]. Qed.

(** C3.  The message of a rewritten commit is [replace] of the original
    message, and [replace] rewrites the leftmost occurrence of the marker
    only, where the specification asks for every occurrence.  On the second
    commit of the example repository, whose message has two occurrences, the
    second one is still there. *)
Theorem substitution_first_occurrence_only :
  (forall authors changeTime keepAuthor commits c w acc' w',
      recommit authors changeTime keepAuthor commits c w = (Ok acc', w') ->
      acc' = commits \/
      exists r, acc' = commits ++ [r] /\
                obj_message <$> odb w' !! id r
                = Some (JS.replace (message c) "MAKHROVYI" "AnotherOneProject")) /\
  (forall s,
      (JS.includes s "MAKHROVYI" = false /\
       JS.replace s "MAKHROVYI" "AnotherOneProject" = s) \/
      (exists pre post,
          s = pre +:+ "MAKHROVYI" +:+ post /\
          JS.replace s "MAKHROVYI" "AnotherOneProject"
          = pre +:+ "AnotherOneProject" +:+ post /\
          forall pre' post', s = pre' +:+ "MAKHROVYI" +:+ post' ->
                             (String.length pre <= String.length pre')%nat)) /\
  JS.occurrences (message Examples.c1) "MAKHROVYI" = 2%nat /\
  JS.replaceAll (message Examples.c1) "MAKHROVYI" "AnotherOneProject"
    = "AnotherOneProject api, AnotherOneProject db" /\
  exists r w',
    recommit Examples.pool false true [] Examples.c1
      (Examples.seeded Examples.pool Examples.repo) = (Ok [r], w') /\
    obj_message <$> odb w' !! id r = Some "AnotherOneProject api, MAKHROVYI db".
Proof.
  split; [|split; [intros s; apply StringFacts.replace_first|]].
  - intros authors changeTime keepAuthor commits c w acc' w' H.
    apply recommit_step in H as (_ & [(-> & _)|(r & -> & _ & (d & Hd & _ & Hm & _) & _)]);
      [by left|right].
    exists r. split; [done|]. by rewrite Hd, <- Hm.
  - split; [reflexivity|]. split; [reflexivity|].
    eexists _, _. split; vm_compute; reflexivity.
Qed.

(** C4, as amended.  The process time zone being UTC, for every commit and
    both its signatures: with [changeTime] off the rewritten instant is the
    original one; with [keepAuthor] on it is the original one whatever
    [changeTime] is; with [changeTime] on and [keepAuthor] off it is
    [operateTime] of the original instant of that same signature, which is
    the instant exactly six calendar months later whenever that instant is
    in the signed 32-bit range of Unix seconds.  So it is of the signatures
    the program computes, of the commit the seed step stores for the first
    commit, and of the commit a step of the reducer stores for a later
    one. *)
Theorem time_shift
    (authors : list Author) (changeTime keepAuthor : bool) (c : Commit) :
  (forall a sa sc,
      authorSignature changeTime keepAuthor a c = Ok sa ->
      commiterSignature changeTime keepAuthor a c = Ok sc ->
      rewritten_instants changeTime keepAuthor c (sig_time sa) (sig_time sc)) /\
  (forall w r w',
      amendFirstCommit authors changeTime keepAuthor (Some c) w = (Ok r, w') ->
      exists d, odb w' !! id r = Some d /\
                rewritten_instants changeTime keepAuthor c
                  (sig_time (obj_author d)) (sig_time (obj_committer d))) /\
  (forall commits w acc' w',
      recommit authors changeTime keepAuthor commits c w = (Ok acc', w') ->
      acc' = commits \/
      exists r d, acc' = commits ++ [r] /\ odb w' !! id r = Some d /\
                  rewritten_instants changeTime keepAuthor c
                    (sig_time (obj_author d)) (sig_time (obj_committer d))).
Proof.
  split; [|split].
  - intros a sa sc. apply signature_instants.
  - intros w r w' H.
    apply amendFirstCommit_ok in H as (a & w1 & sa & sc & _ & Ha & Hc & _ & -> & ->).
    eexists. simpl. rewrite lookup_insert_eq. split; [done|]. simpl.
    by eapply signature_instants.
  - intros commits w acc' w' H.
    apply recommit_ok in H as (a & w1 & sa & sc & _ & Ha & Hc & H).
    destruct H as [H|(_ & -> & _)]; [|by left].
    apply attempt_ok in H as (p & _ & -> & ->). right.
    eexists _, _. split; [done|]. simpl. rewrite lookup_insert_eq.
    split; [done|]. simpl. by eapply signature_instants.
Qed.

(** C4, as amended, on the first commit of the example repository, amended
    with [changeTime] on and [keepAuthor] off: both instants of the commit
    that is stored, 2023-01-15T10:00:00Z in the original, are
    2023-07-15T10:00:00Z. *)
Lemma time_shift_witness :
  DateFns.six_calendar_months_after 1673776800 1689415200 /\
  exists r w' d,
    amendFirstCommit Examples.pool true false (Some Examples.c0) Examples.materialized
    = (Ok r, w') /\
    odb w' !! id r = Some d /\
    sig_time (obj_author d) = 1689415200 /\ sig_time (obj_committer d) = 1689415200.
Proof.
  assert (S6 : DateFns.six_calendar_months_after 1673776800 1689415200).
  { apply DateFacts.six_calendar_months_after_iff. vm_compute. reflexivity. }
  split; [exact S6|].
  destruct (amendFirstCommit Examples.pool true false (Some Examples.c0)
              Examples.materialized) as [[r|e] w'] eqn:E;
    [|exfalso; revert E; vm_compute; discriminate].
  destruct (time_shift Examples.pool true false Examples.c0) as (_ & Hseed & _).
  destruct (Hseed _ _ _ E) as (d & Hd & _ & _ & Hshift).
  destruct (Hshift eq_refl eq_refl) as (_ & _ & Ha & Hc).
  exists r, w', d. split; [reflexivity|]. split; [exact Hd|].
  split; [apply Ha|apply Hc]; (exact S6 || lia).
Defined.

(** C4 as stated fails.  With [changeTime] on and [keepAuthor] on, the
    rewritten author instant of the first commit of the example repository
    is the original instant, 2023-01-15T10:00:00Z, which is not six calendar
    months after itself.  And with [keepAuthor] off, the author instant
    2037-10-24T04:26:40Z becomes a negative number of seconds, not the
    instant six calendar months later, 2038-04-24T04:26:40Z. *)
Lemma time_shift_skipped_when_keeping_author :
  ((exists sa, authorSignature true true (Some Examples.alice) Examples.c0 = Ok sa /\
               sig_time sa = 1673776800) /\
   sig_time (author Examples.c0) = 1673776800 /\
   ~ DateFns.six_calendar_months_after 1673776800 1673776800) /\
  ((exists sa, authorSignature true false (Some Examples.alice) Examples.c_late = Ok sa /\
               sig_time sa = -2139242496) /\
   sig_time (author Examples.c_late) = 2140000000 /\
   DateFns.six_calendar_months_after 2140000000 2155724800).
Proof.
  split.
  - split; [by eexists|]. split; [reflexivity|].
    intros H. apply TimeFacts.shifted_near in H. lia.
  - split; [eexists; split; vm_compute; reflexivity|]. split; [reflexivity|].
    apply DateFacts.six_calendar_months_after_iff. vm_compute. reflexivity.
Qed.

(** C5.  With [keepAuthor] on, both signatures of the rewritten commit are
    the original commit's own (name, email, instant and offset), whatever
    [changeTime] is: the signatures computed are the original ones, and the
    commit object the seed step or a step of the reducer stores carries
    them. *)
Theorem keepAuthor_invariance
    (authors : list Author) (changeTime : bool) (c : Commit) :
  (forall a, authorSignature changeTime true a c = Ok (author c) /\
             commiterSignature changeTime true a c = Ok (committer c)) /\
  (forall w r w',
      amendFirstCommit authors changeTime true (Some c) w = (Ok r, w') ->
      exists d, odb w' !! id r = Some d /\
                obj_author d = author c /\ obj_committer d = committer c) /\
  (forall commits w acc' w',
      recommit authors changeTime true commits c w = (Ok acc', w') ->
      acc' = commits \/
      exists r d, acc' = commits ++ [r] /\ odb w' !! id r = Some d /\
                  obj_author d = author c /\ obj_committer d = committer c).
Proof.
  split; [done|]. split.
  - intros w r w' H.
    apply amendFirstCommit_ok in H as (a & w1 & sa & sc & _ & Ha & Hc & _ & -> & ->).
    injection Ha as <-. injection Hc as <-.
    eexists. simpl. by rewrite lookup_insert_eq.
  - intros commits w acc' w' H.
    apply recommit_ok in H as (a & w1 & sa & sc & _ & Ha & Hc & H).
    injection Ha as <-. injection Hc as <-.
    destruct H as [H|(_ & -> & _)]; [|by left].
    apply attempt_ok in H as (p & _ & -> & ->). right.
    eexists _, _. split; [done|]. simpl. by rewrite lookup_insert_eq.
Qed.

(** C6.  Role inference.  [includes] is containment anywhere in the path.
    With [b] paths containing the backend label and [f] paths containing
    the frontend label among the changed files of a commit: when [b > f] the
    author is selected among the pool entries of role backend, and any
    author selected is one of them; when [f > b], likewise with frontend; on
    a tie, zero against zero included, the author is selected in the whole
    pool, whatever the roles: any author selected is a pool entry, and every
    pool entry is selected for some value of the random source. *)
Theorem role_inference
    (authors : list Author) (c : Commit) (w : World)
    (v : list (list string)) (files : list string) :
  diffs w !! cid c = Some v -> v !! 0%nat = Some files ->
  let f := length (filter (fun p => JS.includes p FRONTEND_LABEL = true) files) in
  let b := length (filter (fun p => JS.includes p BACKEND_LABEL = true) files) in
  (forall p label,
      JS.includes p label = true <-> exists pre post, p = pre +:+ label +:+ post) /\
  ((f < b)%nat ->
   determineAuthorForCommit authors c w
     = randomSelect (filter (fun x => role x = backend) authors) w /\
   forall x w', determineAuthorForCommit authors c w = (Ok (Some x), w') ->
                x ∈ authors /\ role x = backend) /\
  ((b < f)%nat ->
   determineAuthorForCommit authors c w
     = randomSelect (filter (fun x => role x = frontend) authors) w /\
   forall x w', determineAuthorForCommit authors c w = (Ok (Some x), w') ->
                x ∈ authors /\ role x = frontend) /\
  (b = f ->
   determineAuthorForCommit authors c w = randomSelect authors w /\
   (forall x w', determineAuthorForCommit authors c w = (Ok (Some x), w') ->
                 x ∈ authors) /\
   (Z.of_nat (length authors) < 2 ^ 31 ->
    forall x, x ∈ authors ->
              exists u, outcome (determineAuthorForCommit authors c)
                          (set_random (u :: random w) w) = Ok (Some x))).
Proof.
  intros Hd Hv f b.
  pose proof (determineAuthorForCommit_files authors c w v files Hd Hv) as E.
  cbv zeta in E. fold f b in E.
  split; [apply StringFacts.includes_spec|].
  split; [|split]; intros Hcmp.
  - assert ((f <? b)%nat = true) as Hlt by (apply Nat.ltb_lt; lia).
    rewrite Hlt in E. split; [exact E|].
    intros x w'. rewrite E. apply getRandomAuthor_role.
  - assert ((f <? b)%nat = false) as Hge by (apply Nat.ltb_ge; lia).
    assert ((b <? f)%nat = true) as Hlt by (apply Nat.ltb_lt; lia).
    rewrite Hge, Hlt in E. split; [exact E|].
    intros x w'. rewrite E. apply getRandomAuthor_role.
  - assert ((f <? b)%nat = false) as Hge by (apply Nat.ltb_ge; lia).
    assert ((b <? f)%nat = false) as Hge' by (apply Nat.ltb_ge; lia).
    rewrite Hge, Hge' in E. split; [exact E|]. split.
    + intros x w'. rewrite E. apply getRandomAuthor_any.
    + intros Hlen x Hx. apply list_elem_of_lookup_1 in Hx as [i Hi].
      destruct (randomSelect_onto authors i x w Hi Hlen) as [u Hu].
      exists u. specialize (Hu (random w)). unfold outcome in *.
      rewrite (determineAuthorForCommit_files authors c
                 (set_random (u :: random w) w) v files Hd Hv).
      cbv zeta. fold f b. rewrite Hge, Hge'. exact Hu.
Qed.

(** C6 on the second commit of the example repository: two paths contain
    [server], one contains [client], and the author selected is the backend
    entry of the pool. *)
Lemma role_inference_witness :
  diffs Examples.repo !! cid Examples.c1
    = Some [["server/api.ts"; "server/db.ts"; "client/app.tsx"]] /\
  determineAuthorForCommit Examples.pool Examples.c1 Examples.repo
    = randomSelect [Examples.alice] Examples.repo /\
  outcome (determineAuthorForCommit Examples.pool Examples.c1) Examples.repo
    = Ok (Some Examples.alice).
Proof.
  assert (Hd : diffs Examples.repo !! cid Examples.c1
               = Some [["server/api.ts"; "server/db.ts"; "client/app.tsx"]])
    by (vm_compute; reflexivity).
  split; [exact Hd|].
  destruct (role_inference Examples.pool Examples.c1 Examples.repo _ _ Hd eq_refl)
    as (_ & Hb & _).
  destruct Hb as [Hb _]; [vm_compute; lia|].
  split; [exact Hb|]. vm_compute. reflexivity.
Defined.

(** C7.  The specification asks for the fallback [origin/<branch>] when the
    branch does not resolve.  The run resolves the branch once more at its
    first statement, outside any [try]: whenever the branch does not
    resolve, it stops there with the error of that lookup, the repository
    untouched.  In the example clone, where [result] is only the
    remote-tracking [origin/result], the lookup of lines 85-105 would find
    [origin/result], and the run has stopped before it. *)
Theorem fallback_never_reached :
  (forall authors repositoryName options w,
      refs w !! default "master" (branch options) = None ->
      run authors repositoryName options w
      = (Err (GitError ("no reference found for shorthand "
                        +:+ default "master" (branch options))), w)) /\
  refs Examples.repo_remote_only !! "result" = None /\
  refs Examples.repo_remote_only !! "origin/result" = Some 4%N /\
  findOriginalBranch "result" Examples.repo_remote_only
    = (Ok (Some "origin/result"), Examples.repo_remote_only) /\
  run Examples.pool "./repo" Examples.opts_result Examples.repo_remote_only
    = (Err (GitError "no reference found for shorthand result"),
       Examples.repo_remote_only).
Proof.
  split; [exact run_unresolved|].
  split; [vm_compute; reflexivity|]. split; [vm_compute; reflexivity|].
  split; [vm_compute; reflexivity|].
  apply (run_unresolved Examples.pool "./repo" Examples.opts_result).
  vm_compute. reflexivity.
Qed.




(** C9, as amended.  There is no fallback.  For a commit whose changed
    files are known and a pool of fewer than 2^31 entries, the selection is
    made in the pool entries of the inferred role (in the whole pool when
    no role is inferred): it yields one of them exactly when there is one,
    and [undefined] when there is none, in which case reading its name
    throws a [TypeError] unless [keepAuthor] is on, which does not look at
    the selection. *)
Theorem selection_defined_iff_candidate
    (authors : list Author) (c : Commit) (w : World)
    (v : list (list string)) (files : list string) :
  diffs w !! cid c = Some v -> v !! 0%nat = Some files ->
  Z.of_nat (length authors) < 2 ^ 31 ->
  exists o w',
    determineAuthorForCommit authors c w = (Ok o, w') /\
    (forall x, o = Some x -> x ∈ candidates authors files /\ x ∈ authors) /\
    (o = None <-> candidates authors files = []) /\
    (o = None ->
     forall changeTime,
       authorSignature changeTime false o c
       = Err (TypeError "cannot read property name of undefined") /\
       commiterSignature changeTime false o c
       = Err (TypeError "cannot read property name of undefined") /\
       authorSignature changeTime true o c = Ok (author c) /\
       commiterSignature changeTime true o c = Ok (committer c)).
Proof.
  intros Hd Hv Hlen.
  rewrite (determineAuthorForCommit_candidates authors c w v files Hd Hv).
  destruct (randomSelect_total (candidates authors files) w) as (o & w' & E).
  exists o, w'. split; [exact E|].
  assert (Hsub : forall x, x ∈ candidates authors files -> x ∈ authors).
  { intros x. unfold candidates. cbv zeta.
    repeat case_match; try done; by intros [_ ?]%list_elem_of_filter. }
  pose proof (candidates_length authors files) as Hl.
  split; [|split].
  - intros x ->. apply randomSelect_inv in E as [E _].
    specialize (E x eq_refl). by split; [|apply Hsub].
  - split.
    + intros ->. destruct (candidates authors files) as [|y l] eqn:Ec; [done|].
      apply randomSelect_defined in E as (x & Hx & _); [done|done|].
      simpl in *. lia.
    + intros Hnil. rewrite Hnil in E. by apply randomSelect_nil in E.
  - by intros ->.
Qed.

(** C9, as amended, on the second commit of the example repository (two
    backend paths against one frontend path): with the pool of a backend
    and a frontend entry the backend entry is selected. *)
Lemma selection_defined_iff_candidate_witness :
  exists w',
    determineAuthorForCommit Examples.pool Examples.c1 Examples.repo
    = (Ok (Some Examples.alice), w') /\
    candidates Examples.pool ["server/api.ts"; "server/db.ts"; "client/app.tsx"]
    = [Examples.alice].
Proof.
  destruct (selection_defined_iff_candidate Examples.pool Examples.c1 Examples.repo
              [["server/api.ts"; "server/db.ts"; "client/app.tsx"]]
              ["server/api.ts"; "server/db.ts"; "client/app.tsx"]
              ltac:(vm_compute; reflexivity) eq_refl ltac:(vm_compute; reflexivity))
    as (o & w' & E & Hin & Hiff & _).
  assert (Ec : candidates Examples.pool ["server/api.ts"; "server/db.ts"; "client/app.tsx"]
               = [Examples.alice]) by (vm_compute; reflexivity).
  exists w'. split; [|exact Ec].
  rewrite E. f_equal. f_equal.
  destruct o as [x|].
  - destruct (Hin x eq_refl) as [Hx _]. rewrite Ec in Hx.
    apply list_elem_of_singleton in Hx. by subst.
  - exfalso. destruct Hiff as [Hiff _]. specialize (Hiff eq_refl).
    rewrite Ec in Hiff. discriminate Hiff.
Defined.

(** C9 as stated fails.  With a non-empty pool of one frontend entry, the
    second commit of the example repository gets [undefined] as its author,
    and with [keepAuthor] off the step of the reducer and the run stop on
    the [TypeError] of reading its name. *)
Lemma empty_role_subset_selects_undefined :
  Examples.frontend_only <> [] /\
  outcome (determineAuthorForCommit Examples.frontend_only Examples.c1) Examples.repo
    = Ok None /\
  outcome (recommit Examples.frontend_only false false [] Examples.c1) Examples.repo
    = Err (TypeError "cannot read property name of undefined") /\
  outcome (run Examples.frontend_only "./repo" Examples.opts_default) Examples.repo
    = Err (TypeError "cannot read property name of undefined").
Proof. split; [done|]. vm_compute. done. Qed.

(** C10, as amended.  The process time zone being UTC, [operateTime]
    returns the instant six calendar months later exactly when that instant
    is in the signed 32-bit range; at or beyond 2^31 seconds the result is
    never that instant and is itself in the 32-bit range; it is the instant
    less 2^32, a negative number, for instants below 2^32. *)
Theorem operateTime_wraps (t s : Z) :
  DateFns.six_calendar_months_after t s ->
  (- 2 ^ 31 <= s < 2 ^ 31 -> operateTime t = s) /\
  (2 ^ 31 <= s -> operateTime t <> s /\ - 2 ^ 31 <= operateTime t < 2 ^ 31) /\
  (2 ^ 31 <= s < 2 ^ 32 -> operateTime t = s - 2 ^ 32 /\ operateTime t < 0).
Proof.
  intros H. split; [|split].
  - intros Hr. rewrite (TimeFacts.operateTime_in_range t s H) by lia.
    by apply TimeFacts.ToInt32_small.
  - intros Hr. pose proof (TimeFacts.ToInt32_range s) as B.
    destruct (TimeFacts.operateTime_cases t s H) as [-> | ->]; lia.
  - intros Hr. rewrite (TimeFacts.operateTime_in_range t s H) by lia.
    rewrite TimeFacts.ToInt32_wrap by lia. lia.
Qed.

(** C10, as amended, on the specification's example: 2023-01-15T10:00:00Z
    becomes 2023-07-15T10:00:00Z. *)
Lemma operateTime_wraps_witness :
  DateFns.six_calendar_months_after 1673776800 1689415200 /\
  operateTime 1673776800 = 1689415200.
Proof.
  assert (S6 : DateFns.six_calendar_months_after 1673776800 1689415200).
  { apply DateFacts.six_calendar_months_after_iff. vm_compute. reflexivity. }
  split; [exact S6|].
  destruct (operateTime_wraps 1673776800 1689415200 S6) as (H & _).
  apply H. lia.
Defined.

(** C10 as stated fails twice.  The instant six months after 2106-02-07
    06:28:16Z (2^32 seconds) is beyond 2^31 seconds, and the result is
    15638400, which is not negative.  The instant six months after
    1900-04-14 (-2200000000 seconds) is below 2^31 seconds, and the result is
    not that instant but a positive number. *)
Lemma operateTime_wrap_not_negative :
  (DateFns.six_calendar_months_after 4294967296 4310605696 /\
   2 ^ 31 <= 4310605696 /\
   operateTime 4294967296 = 15638400 /\ ~ operateTime 4294967296 < 0) /\
  (DateFns.six_calendar_months_after (-2200000000) (-2184188800) /\
   -2184188800 < 2 ^ 31 /\
   operateTime (-2200000000) = 2110778496 /\
   operateTime (-2200000000) <> -2184188800).
Proof.
  split.
  - split; [apply DateFacts.six_calendar_months_after_iff; vm_compute; reflexivity|].
    split; [lia|]. assert (E : operateTime 4294967296 = 15638400) by (vm_compute; reflexivity).
    rewrite E. split; [reflexivity|lia].
  - split; [apply DateFacts.six_calendar_months_after_iff; vm_compute; reflexivity|].
    split; [lia|].
    assert (E : operateTime (-2200000000) = 2110778496) by (vm_compute; reflexivity).
    rewrite E. split; [reflexivity|lia].
Qed.

(* ===================================================================== *)
(** * Further properties of the program *)
(* ===================================================================== *)

(** ** Selection *)

(** [tail] is the [last] of the list library. *)
Lemma tail_last {T} (arr : list T) : tail arr = last arr.
Proof.
  unfold tail. destruct arr as [|x arr]; [done|].
  rewrite last_lookup. f_equal. simpl. lia.
Qed.

(** X1.  [tail] gives the last element of an array, a one-element extension
    included, and [undefined] exactly on the empty array. *)
Theorem tail_is_last {T} (arr : list T) :
  tail arr = last arr /\
  (tail arr = None <-> arr = []) /\
  (forall x, tail (arr ++ [x]) = Some x).
Proof.
  split; [apply tail_last|]. split.
  - rewrite tail_last. apply last_None.
  - intros x. rewrite tail_last. apply last_snoc.
Qed.

(** For fewer than 2^31 elements the element selected is the one at the
    integer part of the rounded product, which is below the length. *)
Lemma randomSelect_draw {A} (arr : list A) w :
  Z.of_nat (length arr) < 2 ^ 31 ->
  exists u w',
    Math_random w = (Ok u, w') /\ 0 <= u < 2 ^ 53 /\
    randomSelect arr w
      = (Ok (arr !! Z.to_nat (JS.round53 (u * Z.of_nat (length arr)) / 2 ^ 53)), w') /\
    0 <= JS.round53 (u * Z.of_nat (length arr)) / 2 ^ 53 /\
    (arr <> [] ->
     JS.round53 (u * Z.of_nat (length arr)) / 2 ^ 53 < Z.of_nat (length arr)).
Proof.
  intros Hlen.
  destruct (Math_random_range w) as (u & w' & E & Hu & _).
  exists u, w'. split; [done|]. split; [done|].
  set (n := Z.of_nat (length arr)) in *.
  destruct (randomSelect_index n u ltac:(lia) Hu) as (Hi & H0 & H1).
  split; [|split; [done|]].
  - unfold randomSelect, bind, ret. rewrite E. fold n. rewrite Hi.
    destruct (_ <? 0) eqn:Hneg; [apply Z.ltb_lt in Hneg; lia|done].
  - intros Hne. apply H1. destruct arr; [done|]. subst n. simpl length. lia.
Qed.

(** X2.  [randomSelect] on a non-empty array of fewer than 2^31 elements
    always returns an element of the array, never [undefined], and touches
    nothing but the random source; and every element of the array is
    returned for some value of [Math.random()]. *)
Theorem randomSelect_in_bounds {A} (arr : list A) (w : World) :
  arr <> [] -> Z.of_nat (length arr) < 2 ^ 31 ->
  (exists a w', randomSelect arr w = (Ok (Some a), w') /\ a ∈ arr /\
                refs w' = refs w /\ HEAD w' = HEAD w /\ odb w' = odb w /\
                trees w' = trees w /\ diffs w' = diffs w) /\
  (forall a, a ∈ arr ->
             exists u, forall us,
               outcome (randomSelect arr) (set_random (u :: us) w) = Ok (Some a)).
Proof.
  intros Hne Hlen. split.
  - destruct (randomSelect_draw arr w Hlen) as (u & w' & _ & _ & E & H0 & H1).
    specialize (H1 Hne).
    destruct (arr !! Z.to_nat (JS.round53 (u * Z.of_nat (length arr)) / 2 ^ 53))
      as [a|] eqn:Ha.
    + exists a, w'. split; [done|].
      apply randomSelect_inv in E as (Hin & Hf). split; [by apply Hin|done].
    + apply lookup_ge_None in Ha. lia.
  - intros a Ha. apply list_elem_of_lookup_1 in Ha as [i Hi].
    exact (randomSelect_onto arr i a w Hi Hlen).
Qed.

(** On the example pool and repository. *)
Lemma randomSelect_in_bounds_witness :
  exists a w', randomSelect Examples.pool Examples.repo = (Ok (Some a), w') /\
               a ∈ Examples.pool.
Proof.
  destruct (randomSelect_in_bounds Examples.pool Examples.repo
              ltac:(discriminate) ltac:(vm_compute; reflexivity))
    as ((a & w' & E & Ha & _) & _).
  by exists a, w'.
Defined.

(** X3.  [getRandomAuthor] never throws, and on a pool of fewer than 2^31
    entries it returns [undefined] exactly when the array it selects in is
    empty: the pool itself without a role, the pool entries of the role
    with one. *)
Theorem getRandomAuthor_undefined_iff
    (authors : list Author) (r : option Role) (w : World) :
  Z.of_nat (length authors) < 2 ^ 31 ->
  exists o w',
    getRandomAuthor authors r w = (Ok o, w') /\
    (o = None <->
     match r with
     | None => authors
     | Some r => filter (fun a => role a = r) authors
     end = []).
Proof.
  intros Hlen. unfold getRandomAuthor.
  set (arr := match r with
              | None => authors
              | Some r => filter (fun a => role a = r) authors
              end).
  assert (Hl : (length arr <= length authors)%nat).
  { subst arr. destruct r; [apply length_filter|done]. }
  assert (E0 : match r with
               | None => randomSelect authors
               | Some r => randomSelect (filter (fun a => role a = r) authors)
               end = randomSelect arr) by (by destruct r).
  rewrite E0.
  destruct (randomSelect_draw arr w ltac:(lia)) as (u & w' & _ & _ & E & H0 & H1).
  eexists _, w'. split; [exact E|]. split.
  - intros Hnone. destruct arr as [|x arr']; [done|].
    specialize (H1 ltac:(done)). apply lookup_ge_None in Hnone. lia.
  - by intros ->.
Qed.

(** On the pool of one frontend entry, asked for a backend author. *)
Lemma getRandomAuthor_undefined_iff_witness :
  exists w', getRandomAuthor Examples.frontend_only (Some backend) Examples.repo
             = (Ok None, w').
Proof.
  destruct (getRandomAuthor_undefined_iff Examples.frontend_only (Some backend)
              Examples.repo ltac:(vm_compute; reflexivity))
    as (o & w' & E & Hiff).
  exists w'. rewrite E. f_equal. f_equal. by apply Hiff.
Defined.

(** The selection depends on the state through the random source only. *)
Lemma randomSelect_outcome_ext {A} (arr : list A) w w' :
  random w = random w' ->
  outcome (randomSelect arr) w = outcome (randomSelect arr) w'.
Proof.
  intros E. unfold outcome, randomSelect, bind, ret, Math_random. rewrite E.
  by destruct (random w').
Qed.

(** X4.  Only the first diff of a commit counts: two repositories in which
    the diffs of a commit start with the same list of paths, the random
    source being the same, give the commit the same author, whatever the
    further diffs (those against the other parents of a merge commit)
    contain. *)
Theorem only_first_diff_counts
    (authors : list Author) (c : Commit) (w w' : World)
    (v v' : list (list string)) :
  diffs w !! cid c = Some v -> diffs w' !! cid c = Some v' ->
  v !! 0%nat = v' !! 0%nat -> random w = random w' ->
  outcome (determineAuthorForCommit authors c) w
  = outcome (determineAuthorForCommit authors c) w'.
Proof.
  intros Hd Hd' Hv Hr.
  destruct (v !! 0%nat) as [files|] eqn:E.
  - unfold outcome.
    rewrite (determineAuthorForCommit_candidates authors c w v files Hd E).
    rewrite (determineAuthorForCommit_candidates authors c w' v' files Hd' (eq_sym Hv)).
    by apply (randomSelect_outcome_ext (candidates authors files)).
  - unfold outcome, determineAuthorForCommit, bind, getCommitFiles, throw.
    by rewrite Hd, Hd', <- Hv, E.
Qed.

(** X5.  A path that contains both labels, or neither, does not weigh on the
    choice: adding it to the changed files of the first diff leaves the
    author selected as it was. *)
Theorem balanced_paths_do_not_count
    (authors : list Author) (c : Commit) (w w' : World)
    (v v' : list (list string)) (files : list string) (p : string) :
  diffs w !! cid c = Some v -> v !! 0%nat = Some files ->
  diffs w' !! cid c = Some v' -> v' !! 0%nat = Some (p :: files) ->
  JS.includes p FRONTEND_LABEL = JS.includes p BACKEND_LABEL ->
  random w = random w' ->
  outcome (determineAuthorForCommit authors c) w
  = outcome (determineAuthorForCommit authors c) w'.
Proof.
  intros Hd Hv Hd' Hv' Hp Hr. unfold outcome.
  rewrite (determineAuthorForCommit_candidates authors c w v files Hd Hv).
  rewrite (determineAuthorForCommit_candidates authors c w' v' (p :: files) Hd' Hv').
  assert (candidates authors (p :: files) = candidates authors files) as ->;
    [|by apply (randomSelect_outcome_ext (candidates authors files))].
  unfold candidates. cbv zeta. rewrite !filter_cons.
  destruct (decide (JS.includes p FRONTEND_LABEL = true)) as [Hf|Hf];
    destruct (decide (JS.includes p BACKEND_LABEL = true)) as [Hb|Hb];
    try congruence.
  simpl length.
  set (f := length (filter _ files)). set (b := length (filter _ files)).
  assert ((S f <? S b)%nat = (f <? b)%nat) as ->.
  { destruct (Nat.ltb_spec f b), (Nat.ltb_spec (S f) (S b)); (done || lia). }
  assert ((S b <? S f)%nat = (b <? f)%nat) as ->; [|done].
  destruct (Nat.ltb_spec b f), (Nat.ltb_spec (S b) (S f)); (done || lia).
Qed.

(** On the second commit of the example repository, with the README added
    to its changed files: with and without a second diff. *)
Lemma only_first_diff_counts_witness :
  outcome (determineAuthorForCommit Examples.pool Examples.c1) Samples.repo_readme
  = outcome (determineAuthorForCommit Examples.pool Examples.c1)
      Samples.repo_readme_one_diff.
Proof.
  eapply only_first_diff_counts; vm_compute; reflexivity.
Defined.

(** On the second commit of the example repository, without and with the
    README among its changed files. *)
Lemma balanced_paths_do_not_count_witness :
  outcome (determineAuthorForCommit Examples.pool Examples.c1) Examples.repo
  = outcome (determineAuthorForCommit Examples.pool Examples.c1) Samples.repo_readme.
Proof.
  eapply (balanced_paths_do_not_count Examples.pool Examples.c1 Examples.repo
            Samples.repo_readme _ _ _ "README.md"); vm_compute; reflexivity.
Defined.

(** ** The time shift *)

(** Within the 32-bit range the result is the instant six calendar months
    later. *)
Lemma operateTime_exact t :
  - 2 ^ 31 <= t -> t + 184 * 86400 < 2 ^ 31 ->
  DateFns.six_calendar_months_after t (operateTime t).
Proof.
  intros Hlo Hhi.
  destruct (TimeFacts.shifted_exists t) as [s Hs].
  pose proof (TimeFacts.shifted_near t s Hs) as Hn.
  rewrite (TimeFacts.operateTime_in_range t s Hs) by lia.
  by rewrite TimeFacts.ToInt32_small by lia.
Qed.

(** X6.  [operateTime] always returns a signed 32-bit integer; for an instant
    that is not a valid [Date] (more than 8.64e15 milliseconds from the
    epoch) it returns 0, the epoch. *)
Theorem operateTime_int32 (t : Z) :
  - 2 ^ 31 <= operateTime t < 2 ^ 31 /\
  (DateFns.maxTime < Z.abs (t * 1000) -> operateTime t = 0).
Proof.
  unfold operateTime, DateFns.fromUnixTime. split.
  - unfold seconds_or0. destruct (DateFns.addMonths _ _); [apply TimeFacts.ToInt32_range|lia].
  - intros H. by rewrite TimeFacts.TimeClip_invalid.
Qed.

(** X7.  Within the 32-bit range the shift is by 181 to 184 days and keeps
    the time of the day (local time being UTC). *)
Theorem operateTime_shift_bounds (t : Z) :
  - 2 ^ 31 <= t -> t + 184 * 86400 < 2 ^ 31 ->
  181 * 86400 <= operateTime t - t <= 184 * 86400 /\
  operateTime t mod 86400 = t mod 86400.
Proof.
  intros Hlo Hhi. pose proof (operateTime_exact t Hlo Hhi) as Hs.
  split; [by apply TimeFacts.shifted_near|].
  destruct Hs as (Hd & _). cbv zeta in Hd. unfold DateFns.TimeWithinDay, DateFns.msPerDay in Hd.
  change 86400000 with (86400 * 1000) in Hd.
  rewrite !Z.mul_mod_distr_r in Hd by lia. lia.
Qed.

(** 2023-01-15T10:00:00Z is moved by 181 days. *)
Lemma operateTime_shift_bounds_witness :
  181 * 86400 <= operateTime 1673776800 - 1673776800 <= 184 * 86400 /\
  operateTime 1673776800 mod 86400 = 36000.
Proof.
  exact (operateTime_shift_bounds 1673776800 ltac:(lia) ltac:(lia)).
Defined.

(** X8.  Within the 32-bit range the shift keeps the order of two instants
    that are three days apart or more; it can reverse the order of closer
    ones: 2023-08-30T23:00:00Z becomes 2024-02-29T23:00:00Z, and
    2023-08-31T01:00:00Z, two hours later, becomes 2024-02-29T01:00:00Z
    (local time being UTC). *)
Theorem operateTime_order :
  (forall t1 t2,
      - 2 ^ 31 <= t1 -> t1 + 3 * 86400 <= t2 -> t2 + 184 * 86400 < 2 ^ 31 ->
      operateTime t1 <= operateTime t2) /\
  (1693436400 < 1693443600 /\ operateTime 1693443600 < operateTime 1693436400).
Proof.
  split.
  - intros t1 t2 H1 H12 H2.
    pose proof (operateTime_shift_bounds t1 ltac:(lia) ltac:(lia)) as [B1 _].
    pose proof (operateTime_shift_bounds t2 ltac:(lia) ltac:(lia)) as [B2 _].
    lia.
  - split; [lia|].
    assert (E1 : operateTime 1693436400 = 1709247600) by (vm_compute; reflexivity).
    assert (E2 : operateTime 1693443600 = 1709168400) by (vm_compute; reflexivity).
    rewrite E1, E2. lia.
Qed.

(** X9.  Shifting twice (two runs with [changeTime]) moves an instant whose
    day of the month is at most 28 by one calendar year exactly: same
    month, same day, same time of the day, the next year (within the 32-bit
    range, local time being UTC). *)
Theorem operateTime_twice (t : Z) :
  - 2 ^ 31 <= t -> t + 368 * 86400 < 2 ^ 31 ->
  DateFns.DateFromTime (t * 1000) <= 28 ->
  let s := operateTime (operateTime t) in
  DateFns.YearFromTime (s * 1000) = DateFns.YearFromTime (t * 1000) + 1 /\
  DateFns.MonthFromTime (s * 1000) = DateFns.MonthFromTime (t * 1000) /\
  DateFns.DateFromTime (s * 1000) = DateFns.DateFromTime (t * 1000) /\
  DateFns.TimeWithinDay (s * 1000) = DateFns.TimeWithinDay (t * 1000).
Proof.
  intros Hlo Hhi Hd.
  pose proof (operateTime_exact t Hlo ltac:(lia)) as H1.
  pose proof (TimeFacts.shifted_near _ _ H1) as N1.
  pose proof (operateTime_exact (operateTime t) ltac:(lia) ltac:(lia)) as H2.
  set (s1 := operateTime t) in *. set (s2 := operateTime s1) in *. cbv zeta.
  destruct H1 as (T1 & M1 & D1). destruct H2 as (T2 & M2 & D2). cbv zeta in *.
  pose proof (DateFacts.MonthFromTime_range (t * 1000)) as R0.
  pose proof (DateFacts.MonthFromTime_range (s1 * 1000)) as R1.
  pose proof (DateFacts.MonthFromTime_range (s2 * 1000)) as R2.
  pose proof (DateFacts.DaysInMonth_range (DateFns.YearFromTime (s1 * 1000)) _ R1) as L1.
  pose proof (DateFacts.DaysInMonth_range (DateFns.YearFromTime (s2 * 1000)) _ R2) as L2.
  lia.
Qed.

(** 2023-01-15T10:00:00Z becomes 2024-01-15T10:00:00Z. *)
Lemma operateTime_twice_witness :
  operateTime (operateTime 1673776800) = 1705312800 /\
  DateFns.YearFromTime (operateTime (operateTime 1673776800) * 1000)
  = DateFns.YearFromTime (1673776800 * 1000) + 1.
Proof.
  split; [vm_compute; reflexivity|].
  exact (proj1 (operateTime_twice 1673776800 ltac:(lia) ltac:(lia)
                  ltac:(vm_compute; discriminate))).
Defined.

(** ** The summary *)

(** Reading a count after one more author was counted. *)
Lemma count_author_lookup k' acc k :
  count_author k' acc !! k
  = if decide (k' = k) then Some (default 0%nat (acc !! k) + 1)%nat else acc !! k.
Proof.
  unfold count_author. case_decide as E.
  - subst. by rewrite lookup_insert_eq.
  - by rewrite lookup_insert_ne.
Qed.

(** The two sides of the summary are counted independently. *)
Lemma commitsByAuthors_sides (l : list CommitStats)
    (acc : gmap string nat * gmap string nat) :
  foldl (fun acc c => (count_author (stat_author (old c)) acc.1,
                       count_author (stat_author (new c)) acc.2)) acc l
  = (foldl (fun m c => count_author (stat_author (old c)) m) acc.1 l,
     foldl (fun m c => count_author (stat_author (new c)) m) acc.2 l).
Proof.
  revert acc. induction l as [|c l IH]; intros [m1 m2]; [done|].
  simpl. by rewrite IH.
Qed.

(** The count of a name after a fold: what it was, plus the records with
    that name. *)
Lemma count_fold (side : CommitStats -> CommitStat) (k : string)
    (l : list CommitStats) (m : gmap string nat) (a : nat) :
  m !! k = (if decide (a = 0%nat) then None else Some a) ->
  foldl (fun m c => count_author (stat_author (side c)) m) m l !! k
  = (if decide ((a + records_by side k l)%nat = 0%nat) then None
     else Some (a + records_by side k l)%nat).
Proof.
  revert m a. induction l as [|c l IH]; intros m a Hm.
  - unfold records_by. simpl. by rewrite Nat.add_0_r.
  - simpl foldl. unfold records_by in *. rewrite filter_cons.
    destruct (decide (stat_author (side c) = k)) as [E|E]; simpl length.
    + rewrite Nat.add_succ_r, <- Nat.add_succ_l. apply IH.
      rewrite count_author_lookup, decide_True by done. rewrite Hm.
      case_decide; subst; simpl; f_equal; lia.
    + apply IH. by rewrite count_author_lookup, decide_False.
Qed.

(** X10.  The summary counts, for every author name that is not a property
    of [Object.prototype], the records with that name: the old side under
    the old names, the new side under the new names; a name no record has
    is absent. *)
Theorem commitsByAuthors_counts (modifiedCommits : list CommitStats) (k : string) :
  k ∉ Object_prototype_keys ->
  (commitsByAuthors modifiedCommits).1 !! k
  = (if decide (records_by old k modifiedCommits = 0%nat) then None
     else Some (records_by old k modifiedCommits)) /\
  (commitsByAuthors modifiedCommits).2 !! k
  = (if decide (records_by new k modifiedCommits = 0%nat) then None
     else Some (records_by new k modifiedCommits)).
Proof.
  intros _. unfold commitsByAuthors. rewrite commitsByAuthors_sides. simpl.
  split.
  - exact (count_fold old k modifiedCommits ∅ 0 eq_refl).
  - exact (count_fold new k modifiedCommits ∅ 0 eq_refl).
Qed.

(** Two of the three sample records are Olena's on the old side, none on
    the new side. *)
Lemma commitsByAuthors_counts_witness :
  (commitsByAuthors Samples.stats).1 !! "Olena" = Some 2%nat /\
  (commitsByAuthors Samples.stats).2 !! "Olena" = None.
Proof.
  assert (Hk : "Olena" ∉ Object_prototype_keys).
  { intros H. repeat (apply elem_of_cons in H as [H|H]; [discriminate H|]).
    by apply elem_of_nil in H. }
  exact (commitsByAuthors_counts Samples.stats "Olena" Hk).
Defined.

(** ** The rewritten history *)

(** An author selected is an entry of the pool. *)
Lemma determineAuthorForCommit_in_pool authors c w x w' :
  determineAuthorForCommit authors c w = (Ok (Some x), w') -> x ∈ authors.
Proof.
  unfold determineAuthorForCommit, bind, getCommitFiles, throw.
  destruct (diffs w !! cid c) as [v|]; [|done].
  destruct (v !! 0%nat) as [files|]; [|done].
  repeat case_match; intros Hsel.
  - by apply getRandomAuthor_role in Hsel as [Hsel _].
  - by apply getRandomAuthor_role in Hsel as [Hsel _].
  - by apply getRandomAuthor_any in Hsel.
Qed.

(** What one resolved step of the reducer does, in full. *)
Lemma recommit_full authors changeTime keepAuthor commits c w acc' w' :
  recommit authors changeTime keepAuthor commits c w = (Ok acc', w') ->
  trees w' = trees w /\ diffs w' = diffs w /\ HEAD w' = HEAD w /\
  ((acc' = commits /\ refs w' = refs w /\ odb w' = odb w) \/
   (exists c' p,
       parent_of commits w = Some p /\ parents c' = [p] /\
       rewritten_data authors changeTime keepAuthor true c (data c') /\
       acc' = commits ++ [record_of c c'] /\
       odb w !! cid c' = None /\
       odb w' = <[cid c' := data c']> (odb w) /\
       refs w' = <[HEAD w := cid c']> (refs w))).
Proof.
  intros H. apply recommit_ok in H as (a & w1 & sa & sc & E & Ea & Ec & H).
  pose proof (determineAuthorForCommit_frame authors c w a w1 E) as (Er & Eh & Eo & Et & Ed).
  destruct H as [H|(_ & -> & Hw)].
  - apply attempt_ok in H as (p & Hp & -> & ->). simpl.
    rewrite Et, Ed, Eh. split; [done|]. split; [done|]. split; [done|]. right.
    exists (mkCommit (new_oid w1)
              (mkCommitData sa sc
                 (JS.replace (message c) "MAKHROVYI" "AnotherOneProject") (tree c) [p])), p.
    split; [by rewrite <- (parent_of_frame commits w w1)|]. split; [done|].
    split; [|split; [done|]].
    + exists a, sa, sc. split; [|done].
      intros x ->. by eapply determineAuthorForCommit_in_pool.
    + simpl. rewrite <- Eo, Er. split; [apply new_oid_fresh|done].
  - destruct Hw as [->| ->]; simpl; rewrite Et, Ed, Eh;
      (split; [done|]; split; [done|]; split; [done|]; by left).
Qed.

(** An attempt that succeeds has read the tree. *)
Lemma attempt_tree commits c sa sc w acc' w' :
  attempt commits c sa sc w = (Ok acc', w') -> tree c ∈ trees w.
Proof.
  unfold attempt, bind, ret.
  destruct (match tail commits with
            | Some lastCommit => getCommit (id lastCommit)
            | None => getHeadCommit
            end w) as [[cur|e1] w1] eqn:E1; [|done].
  assert (w1 = w) as ->.
  { destruct (tail commits); [by apply getCommit_inv in E1 as [-> _]|
                               by apply getHeadCommit_inv in E1 as [-> _]]. }
  destruct (getTree c w) as [[t|e2] w2] eqn:E2; [|done].
  apply getTree_inv in E2 as [_ [_ E2]]. done.
Qed.

(** During a run in which no write is refused, a commit is dropped exactly
    when its tree cannot be read: the commit to build on is always there,
    and is the [HEAD] commit. *)
Lemma recommit_exact authors changeTime keepAuthor commits c w acc' w' :
  on_head commits w -> faults w = [] ->
  recommit authors changeTime keepAuthor commits c w = (Ok acc', w') ->
  if decide (tree c ∈ trees w) then acc' <> commits else acc' = commits.
Proof.
  intros Hon Hf H. apply recommit_ok in H as (a & w1 & sa & sc & E & _ & _ & H).
  pose proof (determineAuthorForCommit_frame authors c w a w1 E) as (Er & Eh & Eo & Et & Ed).
  pose proof (determineAuthorForCommit_faults authors c w _ w1 E) as Ef.
  rewrite Hf in Ef. destruct (no_faults_write w1 Ef) as [Hw _].
  case_decide as Ht.
  - destruct H as [H|((e & He) & _)].
    + apply attempt_ok in H as (p & _ & -> & _). intros E'.
      apply (f_equal length) in E'. rewrite length_app in E'. simpl in E'. lia.
    + destruct (attempt_total commits c sa sc w1) as (acc1 & w2 & E').
      * by apply (on_head_frame commits w w1).
      * by rewrite Et.
      * done.
      * congruence.
  - destruct H as [H|(_ & -> & _)]; [|done].
    apply attempt_tree in H. by rewrite Et in H.
Qed.

(** What a resolved fold does: the commits that survive are rewritten in
    order, each rewrite on top of the one before. *)
Lemma reduce_full authors changeTime keepAuthor l commits w acc' w' :
  reduce (recommit authors changeTime keepAuthor) l commits w = (Ok acc', w') ->
  exists survivors created,
    sublist survivors l /\
    Forall2 (fun c c' => rewritten_data authors changeTime keepAuthor true c (data c'))
      survivors created /\
    acc' = commits ++ zip_with record_of survivors created /\
    chained (parent_of commits w) created /\
    odb w ⊆ odb w' /\
    Forall (fun c' => odb w !! cid c' = None /\ odb w' !! cid c' = Some (data c')) created /\
    size (odb w') = (size (odb w) + length created)%nat /\
    refs w' !! HEAD w' = default (refs w !! HEAD w) (Some <$> (cid <$> last created)) /\
    (forall n, n <> HEAD w -> refs w' !! n = refs w !! n) /\
    HEAD w' = HEAD w /\ trees w' = trees w /\ diffs w' = diffs w /\
    (on_head commits w -> faults w = [] ->
     survivors = filter (fun c => tree c ∈ trees w) l).
Proof.
  revert commits w. induction l as [|c rest IH]; intros commits w; simpl.
  - intros [= <- <-]. exists [], []. rewrite app_nil_r. simpl.
    repeat split; done.
  - unfold bind.
    destruct (recommit authors changeTime keepAuthor commits c w)
      as [[acc1|e] w1] eqn:E; [|done].
    intros H.
    pose proof (fun Hon Hf0 => recommit_exact authors changeTime keepAuthor commits c w
                                 acc1 w1 Hon Hf0 E) as Hx.
    pose proof (fun Hf0 => recommit_faults authors changeTime keepAuthor commits c w
                             _ w1 Hf0 E) as Hfw.
    apply IH in H as (survivors & created & Hs & Hf & -> & Hch & Hsub & Hobj & Hsz
                      & Htip & Hrefs & Eh & Et & Ed & Hex).
    apply recommit_full in E as (Et1 & Ed1 & Eh1 & [(-> & Er1 & Eo1)|
      (c' & p & Hp & Hc' & Hd & -> & Hfresh & Eo1 & Er1)]).
    + exists survivors, created.
      assert (Hon1 : on_head commits w -> on_head commits w1).
      { intros (p & d & Hp & Hd & Hh). exists p, d.
        rewrite (parent_of_frame commits w w1), Eo1, Er1, Eh1 by done. done. }
      assert (Hfil : on_head commits w -> faults w = [] ->
                     survivors = filter (fun c0 => tree c0 ∈ trees w) (c :: rest)).
      { intros Hon Hf0. rewrite filter_cons.
        specialize (Hx Hon Hf0). case_decide; [done|].
        rewrite (Hex (Hon1 Hon) (Hfw Hf0)). by rewrite Et1. }
      rewrite Eo1 in *. rewrite Er1, Eh1 in *.
      split; [by apply sublist_cons|]. split; [done|]. split; [done|].
      split; [by rewrite <- (parent_of_frame commits w w1)|].
      repeat split; try done; congruence.
    + exists (c :: survivors), (c' :: created).
      split; [by apply sublist_skip|]. split; [by constructor|].
      split; [by rewrite <- app_assoc|].
      assert (Hw1 : odb w ⊆ odb w1) by (rewrite Eo1; by apply insert_subseteq).
      assert (Hon1 : on_head (commits ++ [record_of c c']) w1).
      { exists (cid c'), (data c'). unfold parent_of. rewrite tail_snoc. simpl.
        rewrite Eo1, Eh1, Er1, !lookup_insert_eq. done. }
      assert (Hfil : on_head commits w -> faults w = [] ->
                     c :: survivors = filter (fun c0 => tree c0 ∈ trees w) (c :: rest)).
      { intros Hon Hf0. rewrite filter_cons.
        specialize (Hx Hon Hf0). case_decide.
        - f_equal. rewrite (Hex Hon1 (Hfw Hf0)). by rewrite Et1.
        - exfalso. apply (f_equal length) in Hx. rewrite length_app in Hx.
          simpl in Hx. lia. }
      split; [|split; [by etrans|split; [|split; [|split; [|split]]]]].
      * simpl. split; [by exists p|].
        unfold parent_of in Hch. by rewrite tail_snoc in Hch.
      * constructor.
        -- split; [done|]. eapply lookup_weaken; [|exact Hsub].
           by rewrite Eo1, lookup_insert_eq.
        -- eapply Forall_impl; [exact Hobj|]. intros x [Hx1 Hx2]. split; [|done].
           by eapply lookup_weaken_None.
      * rewrite Hsz, Eo1, map_size_insert_None by done. simpl. lia.
      * rewrite Htip, Eh1, Er1, lookup_insert_eq.
        destruct created as [|c'' created']; [done|].
        rewrite last_cons_cons.
        destruct (last (c'' :: created')) eqn:El; [done|]. by apply last_None in El.
      * intros n Hn. rewrite Hrefs by congruence. rewrite Er1.
        by rewrite lookup_insert_ne.
      * repeat split; (done || congruence).
Qed.

(** What a resolved seed step does, in full. *)
Lemma amendFirstCommit_full authors changeTime keepAuthor c w r w' :
  amendFirstCommit authors changeTime keepAuthor (Some c) w = (Ok r, w') ->
  exists c',
    rewritten_data authors changeTime keepAuthor false c (data c') /\
    parents c' = parents c /\ r = record_of c c' /\
    odb w !! cid c' = None /\ odb w' = <[cid c' := data c']> (odb w) /\
    refs w !! HEAD w = Some (cid c) /\ refs w' = <[HEAD w := cid c']> (refs w) /\
    HEAD w' = HEAD w /\ trees w' = trees w /\ diffs w' = diffs w.
Proof.
  intros H.
  apply amendFirstCommit_ok in H as (a & w1 & sa & sc & E & Ea & Ec & Ht & -> & ->).
  pose proof (determineAuthorForCommit_frame authors c w a w1 E) as (Er & Eh & Eo & Et & Ed).
  exists (mkCommit (new_oid w1) (mkCommitData sa sc (message c) (tree c) (parents c))).
  simpl. split; [|split; [done|split; [done|]]].
  - exists a, sa, sc. split; [|done]. intros x ->. by eapply determineAuthorForCommit_in_pool.
  - rewrite <- Eo, <- Er, <- Eh. split; [apply new_oid_fresh|]. done.
Qed.

(** A local branch that exists is the one found. *)
Lemma findOriginalBranch_local b w :
  is_Some (refs w !! b) -> b <> "" -> findOriginalBranch b w = (Ok (Some b), w).
Proof.
  intros [i Hi] Hb.
  unfold findOriginalBranch, try_catch, resolveBranch, getBranch, resolve, toString,
    bind, ret.
  rewrite Hi. simpl. by rewrite bool_decide_false.
Qed.

(** The stages of a completed run, the summary included. *)
Lemma run_stages authors repositoryName options w rep w' :
  run authors repositoryName options w = (Ok (Some rep), w') ->
  exists ob tip c0 cs wm r0 wa news,
    is_Some (refs w !! default "master" (branch options)) /\
    findOriginalBranch (default "master" (branch options)) w = (Ok (Some ob), w) /\
    ob <> "" /\ refs w !! ob = Some tip /\
    rev (revwalk (size (odb w)) (odb w) tip) = c0 :: cs /\
    materialize (newBranchName (default "master" (branch options))) (Some c0) w
      = (Ok (newBranchName (default "master" (branch options))), wm) /\
    amendFirstCommit authors (default false (changeTime options))
      (default false (keepAuthor options)) (Some c0) wm = (Ok r0, wa) /\
    reduce (recommit authors (default false (changeTime options))
              (default false (keepAuthor options))) cs [] wa = (Ok news, w') /\
    rep = mkReport (length (r0 :: news)) (commitsByAuthors (r0 :: news)).1
            (commitsByAuthors (r0 :: news)).2.
Proof.
  unfold run, bind.
  destruct (resolveBranch _ w) as [[b|e] w1] eqn:E1; [|done].
  apply resolveBranch_inv in E1 as [-> [_ Hb]].
  destruct (findOriginalBranch _ w) as [[ob|e] w1] eqn:E2; [|done].
  pose proof (findOriginalBranch_inv _ _ _ _ E2) as ->.
  destruct ob as [ob|]; [|done].
  case_bool_decide as Hne; [done|].
  destruct (getCommitsUntil ob w) as [[found|e] w1] eqn:E3; [|done].
  unfold getCommitsUntil in E3.
  destruct (refs w !! ob) as [tip|] eqn:Ht; [|discriminate E3].
  injection E3 as <- <-.
  destruct (rev (revwalk (size (odb w)) (odb w) tip)) as [|c0 cs] eqn:Ef.
  { unfold materialize, bind, try_catch, createBranch, getBranch, delete_ref.
    by destruct (refs w !! newBranchName _). }
  destruct (materialize_any (newBranchName (default "master" (branch options))) c0 w)
    as (wm & Em & _).
  rewrite Em.
  destruct (amendFirstCommit authors _ _ (Some c0) wm) as [[r0|e] wa] eqn:E4; [|done].
  destruct (reduce _ cs [] wa) as [[news|e] w3] eqn:E5; [|done].
  unfold ret. intros [= <- <-].
  exists ob, tip, c0, cs, wm, r0, wa, news. done.
Qed.

(** A complete history ends in a commit without parents. *)
Lemma rooted_last n objs tip :
  rooted n objs tip = true ->
  exists c, last (revwalk n objs tip) = Some c /\ parents c = [].
Proof.
  revert tip. induction n as [|n IH]; intros tip; simpl; [done|].
  destruct (objs !! tip) as [d|] eqn:Hd; [|done].
  destruct (obj_parents d) as [|p ps] eqn:Hp.
  - intros _. by exists (mkCommit tip d).
  - intros H. destruct (IH p H) as (c & Hl & Hc). exists c. split; [|done].
    destruct (revwalk n objs p) as [|x l]; [done|]. by rewrite last_cons_cons.
Qed.

Lemma rev_cons_last {A} (l : list A) x xs : rev l = x :: xs -> last l = Some x.
Proof.
  intros H. rewrite <- (rev_involutive l), H. simpl. apply last_snoc.
Qed.

(** Walking a chain of commits that sits on a walk that is known. *)
Lemma revwalk_chained objs created : forall p base k,
  chained (Some p) created ->
  Forall (fun c' => objs !! cid c' = Some (data c')) created ->
  (forall n, (k <= n)%nat -> revwalk n objs p = base) ->
  forall n, (k + length created <= n)%nat ->
            revwalk n objs (default p (cid <$> last created)) = rev created ++ base.
Proof.
  induction created as [|c1 rest IH]; intros p base k Hch Hobj Hbase n Hn.
  - simpl. apply Hbase. simpl in Hn. lia.
  - destruct Hch as [(p' & [= <-] & Hp) Hch].
    apply Forall_cons in Hobj as [Hc1 Hobj].
    assert (E : default p (cid <$> last (c1 :: rest))
                = default (cid c1) (cid <$> last rest)).
    { destruct rest as [|c2 rest']; [done|]. rewrite last_cons_cons.
      destruct (last (c2 :: rest')) eqn:El; [done|]. by apply last_None in El. }
    rewrite E. simpl rev. rewrite <- app_assoc. simpl.
    apply (IH (cid c1) (c1 :: base) (S k)); [done|done| |simpl in Hn; lia].
    intros m Hm. destruct m as [|m]; [lia|]. simpl. rewrite Hc1.
    unfold parents in Hp. rewrite Hp. rewrite Hbase by lia. by destruct c1.
Qed.

(** The commits of a walk are objects of the repository. *)
Lemma revwalk_lookup n objs tip c :
  c ∈ revwalk n objs tip -> objs !! cid c = Some (data c).
Proof.
  revert tip. induction n as [|n IH]; intros tip; simpl; [by intros ?%elem_of_nil|].
  destruct (objs !! tip) as [d|] eqn:Hd; [|by intros ?%elem_of_nil].
  intros [->|H]%elem_of_cons; [done|].
  destruct (obj_parents d) as [|p ps]; [by apply elem_of_nil in H|]. by eapply IH.
Qed.

(** A completed run, in full: the first commit of the source history is
    amended, the commits after it that survive are re-created in order, one
    new object each, and the destination pointer is left on the last one.
    When no write is refused, the commits that survive are those whose tree
    can be read. *)
Lemma run_created authors repositoryName options w rep w' :
  run authors repositoryName options w = (Ok (Some rep), w') ->
  exists ob tip c0 cs survivors c0' created,
    findOriginalBranch (default "master" (branch options)) w = (Ok (Some ob), w) /\
    ob <> "" /\ refs w !! ob = Some tip /\
    rev (revwalk (size (odb w)) (odb w) tip) = c0 :: cs /\
    (sublist survivors cs /\
     (faults w = [] -> survivors = filter (fun c => tree c ∈ trees w) cs) /\
     Forall (fun c => is_Some (diffs w !! cid c)) cs) /\
    rewritten_data authors (default false (changeTime options))
      (default false (keepAuthor options)) false c0 (data c0') /\
    parents c0' = parents c0 /\
    Forall2 (fun c c' => rewritten_data authors (default false (changeTime options))
                           (default false (keepAuthor options)) true c (data c'))
      survivors created /\
    chained (Some (cid c0')) created /\
    Forall (fun c' => odb w !! cid c' = None /\ odb w' !! cid c' = Some (data c'))
      (c0' :: created) /\
    odb w ⊆ odb w' /\
    size (odb w') = (size (odb w) + S (length created))%nat /\
    refs w' !! newBranchName (default "master" (branch options))
      = Some (default (cid c0') (cid <$> last created)) /\
    HEAD w' = newBranchName (default "master" (branch options)) /\
    rep = mkReport
            (length (record_of c0 c0' :: zip_with record_of survivors created))
            (commitsByAuthors (record_of c0 c0' :: zip_with record_of survivors created)).1
            (commitsByAuthors (record_of c0 c0' :: zip_with record_of survivors created)).2.
Proof.
  intros H.
  apply run_stages in H
    as (ob & tip & c0 & cs & wm & r0 & wa & news & Hb & Ef & Hne & Ht & Ew & Em & Ea & Er
        & ->).
  set (dest := newBranchName (default "master" (branch options))) in *.
  destruct (materialize_any dest c0 w)
    as (wm0 & Em0 & Erm & Ehm & Eom & Etm & Edm & _ & Efm).
  rewrite Em in Em0. injection Em0 as <-.
  pose proof (fun Hf0 : faults w = [] =>
                amendFirstCommit_faults authors _ _ (Some c0) wm _ wa
                  (eq_trans Efm Hf0) Ea) as Hfa.
  pose proof (reduce_ready authors _ _ cs [] wa news w' Er) as Hready.
  apply amendFirstCommit_full in Ea
    as (c0' & Hd0 & Hp0 & -> & Hf0 & Eoa & Hh0 & Era & Eha & Eta & Eda).
  apply reduce_full in Er
    as (survivors & created & Hs & Hf & -> & Hch & Hsub & Hobj & Hsz & Htip & _ & Ehr
        & _ & _ & Hex).
  assert (Hpar : parent_of [] wa = Some (cid c0')).
  { unfold parent_of. simpl. by rewrite Eha, Era, lookup_insert_eq. }
  assert (Hon : on_head [] wa).
  { exists (cid c0'), (data c0'). split; [done|].
    rewrite Eoa, Eha, Era, !lookup_insert_eq. done. }
  exists ob, tip, c0, cs, survivors, c0', created.
  split; [done|]. split; [done|]. split; [done|]. split; [done|].
  split.
  { split; [done|]. split.
    - intros Hf1. rewrite (Hex Hon (Hfa Hf1)). by rewrite Eta, Etm.
    - eapply Forall_impl; [exact Hready|].
      intros c (v & files & Hv & _). rewrite <- Edm, <- Eda. by rewrite Hv. }
  split; [done|]. split; [done|]. split; [done|].
  split; [by rewrite <- Hpar|].
  assert (Hwa : odb w ⊆ odb wa).
  { rewrite Eoa, <- Eom. by apply insert_subseteq. }
  split; [|split; [by etrans|split; [|split; [|split; [congruence|done]]]]].
  - constructor.
    + split; [by rewrite <- Eom|]. eapply lookup_weaken; [|exact Hsub].
      by rewrite Eoa, lookup_insert_eq.
    + eapply Forall_impl; [exact Hobj|]. intros x [Hx1 Hx2]. split; [|done].
      by eapply lookup_weaken_None.
  - rewrite Hsz, Eoa, map_size_insert_None, Eom by done. lia.
  - replace dest with (HEAD w') by congruence. rewrite Htip, Eha, Era, lookup_insert_eq.
    by destruct (last created).
Qed.

(** A completed run on a branch whose history is complete: the history of
    the destination branch is the amended first commit followed by the
    re-created commits.  In a coherent state, no write being refused, every
    commit of the source history is re-created. *)
Lemma run_history authors repositoryName options w rep w' tip :
  run authors repositoryName options w = (Ok (Some rep), w') ->
  default "master" (branch options) <> "" ->
  refs w !! default "master" (branch options) = Some tip ->
  rooted (size (odb w)) (odb w) tip = true ->
  exists c0 cs survivors c0' created tip',
    rev (revwalk (size (odb w)) (odb w) tip) = c0 :: cs /\
    (sublist survivors cs /\
     (faults w = [] -> survivors = filter (fun c => tree c ∈ trees w) cs) /\
     (faults w = [] -> coherent w -> survivors = cs)) /\
    rewritten_data authors (default false (changeTime options))
      (default false (keepAuthor options)) false c0 (data c0') /\
    Forall2 (fun c c' => rewritten_data authors (default false (changeTime options))
                           (default false (keepAuthor options)) true c (data c'))
      survivors created /\
    refs w' !! newBranchName (default "master" (branch options)) = Some tip' /\
    rev (revwalk (size (odb w')) (odb w') tip') = c0' :: created /\
    modified rep = length (c0' :: created) /\
    (linear w tip -> linear w' tip').
Proof.
  intros H Hb Ht Hroot.
  apply run_created in H
    as (ob & tip0 & c0 & cs & survivors & c0' & created & Ef & _ & Ht0 & Ew
        & (Hs & Hex & Hdiff) & Hd0 & Hp0 & Hf & Hch & Hobj & _ & Hsz & Htip & _ & ->).
  assert (Hsome : is_Some (refs w !! default "master" (branch options)))
    by (by rewrite Ht).
  rewrite (findOriginalBranch_local _ w Hsome Hb) in Ef.
  injection Ef as <-. rewrite Ht in Ht0. injection Ht0 as <-.
  destruct (rooted_last _ _ _ Hroot) as (c & Hl & Hc).
  rewrite (rev_cons_last _ _ _ Ew) in Hl. injection Hl as <-.
  apply Forall_cons in Hobj as [[_ H0] Hobj].
  exists c0, cs, survivors, c0', created, (default (cid c0') (cid <$> last created)).
  split; [done|]. split.
  { split; [done|]. split; [done|].
    intros Hf0 Hco. rewrite (Hex Hf0).
    assert (Hall : Forall (fun x => tree x ∈ trees w) cs).
    { apply Forall_forall. intros x Hx. apply (Hco (cid x) (data x)).
      - apply (revwalk_lookup (size (odb w)) _ tip).
        apply list_elem_of_In, in_rev, list_elem_of_In. rewrite Ew. by right.
      - rewrite Forall_forall in Hdiff. by apply Hdiff. }
    clear -Hall. induction cs as [|x cs IH]; [done|].
    apply Forall_cons in Hall as [Hx Hall].
    rewrite filter_cons, decide_True by done. f_equal. by apply IH. }
  split; [done|]. split; [done|]. split; [done|].
  assert (Ewalk : rev (revwalk (size (odb w')) (odb w')
                         (default (cid c0') (cid <$> last created))) = c0' :: created).
  { rewrite (revwalk_chained (odb w') created (cid c0') [c0'] 1 Hch).
    + by rewrite rev_app_distr, rev_involutive.
    + eapply Forall_impl; [exact Hobj|]. by intros x [_ ?].
    + intros n Hn. destruct n as [|n]; [lia|]. simpl. rewrite H0.
      unfold parents in Hp0. rewrite Hp0. unfold parents in Hc. rewrite Hc.
      by destruct c0'.
    + lia. }
  split; [done|]. split.
  - simpl. f_equal. rewrite length_zip_with.
    apply Forall2_length in Hf. lia.
  - unfold linear. intros Hlin.
    apply (f_equal (@rev Commit)) in Ewalk. rewrite rev_involutive in Ewalk.
    rewrite Ewalk. apply Forall_forall. intros x Hx.
    apply list_elem_of_In, in_rev, list_elem_of_In in Hx.
    apply elem_of_cons in Hx as [->|Hx].
    + rewrite Hp0. rewrite Forall_forall in Hlin. apply Hlin.
      apply list_elem_of_In, in_rev, list_elem_of_In. rewrite Ew. by left.
    + clear -Hch Hx. revert Hch Hx. generalize (Some (cid c0')).
      induction created as [|y created IH]; intros prev Hch Hx;
        [by apply elem_of_nil in Hx|].
      destruct Hch as [(p & _ & Hp) Hch].
      apply elem_of_cons in Hx as [->|Hx]; [by rewrite Hp|]. by eapply IH.
Qed.

Lemma Forall2_fmap_eq {A B C} (f : A -> C) (g : B -> C) (l : list A) (k : list B) :
  Forall2 (fun x y => g y = f x) l k -> g <$> k = f <$> l.
Proof. induction 1 as [|x y l k E _ IH]; [done|]. rewrite !fmap_cons. by f_equal. Qed.

(** X11.  After a completed run on a branch whose history is complete and
    has no merge commit, the history of the destination branch
    [recommited/<branch>], oldest first, has no merge commit either and has
    as many commits as the summary counts; its commits are, in order, the
    rewrite of the first commit of the source history and the rewrites of
    the commits after it that were rewritten, [survivors], which come in the
    order of the source history; their trees are the trees of the commits
    they rewrite.  When no write is refused and the tree of every commit
    whose diff can be computed can be read, every commit of the source
    history is rewritten.  The first message is the original first message
    as it is, without the substitution the later ones get. *)
Theorem destination_history
    (authors : list Author) (repositoryName : string) (options : Opts)
    (w w' : World) (rep : Report) (tip : Oid) :
  run authors repositoryName options w = (Ok (Some rep), w') ->
  default "master" (branch options) <> "" ->
  refs w !! default "master" (branch options) = Some tip ->
  rooted (size (odb w)) (odb w) tip = true ->
  linear w tip ->
  exists tip' c0 cs survivors,
    rev (revwalk (size (odb w)) (odb w) tip) = c0 :: cs /\
    sublist survivors cs /\
    (faults w = [] -> coherent w -> survivors = cs) /\
    refs w' !! newBranchName (default "master" (branch options)) = Some tip' /\
    linear w' tip' /\
    length (rev (revwalk (size (odb w')) (odb w') tip')) = modified rep /\
    tree <$> rev (revwalk (size (odb w')) (odb w') tip')
    = tree <$> (c0 :: survivors) /\
    message <$> rev (revwalk (size (odb w')) (odb w') tip')
    = message c0 ::
      ((fun c => JS.replace (message c) "MAKHROVYI" "AnotherOneProject")
         <$> survivors).
Proof.
  intros H Hb Ht Hroot Hlin.
  destruct (run_history authors repositoryName options w rep w' tip H Hb Ht Hroot)
    as (c0 & cs & survivors & c0' & created & tip' & Ew & (Hs & _ & Hall) & Hd0 & Hf
        & Htip & Ewalk & Hm & Hlin').
  exists tip', c0, cs, survivors. rewrite Ewalk.
  split; [done|]. split; [done|]. split; [done|]. split; [done|].
  split; [by apply Hlin'|]. split; [done|].
  destruct Hd0 as (a0 & sa0 & sc0 & _ & _ & _ & _ & _ & Ht0 & Hm0).
  split; simpl; f_equal; try done.
  - apply (Forall2_fmap_eq tree tree). eapply Forall2_impl; [exact Hf|].
    intros c c' (a & sa & sc & _ & _ & _ & _ & _ & Htc & _). done.
  - apply (Forall2_fmap_eq (fun c => JS.replace (message c) "MAKHROVYI" "AnotherOneProject")
             message).
    eapply Forall2_impl; [exact Hf|].
    intros c c' (a & sa & sc & _ & _ & _ & _ & _ & _ & Hmc). done.
Qed.

(** On the example repository, whose branch [master] has four commits. *)
Lemma destination_history_witness :
  exists rep w' tip',
    run Examples.pool "./repo" Examples.opts_keep Examples.repo = (Ok (Some rep), w') /\
    refs w' !! "recommited/master" = Some tip' /\
    linear w' tip' /\
    length (rev (revwalk (size (odb w')) (odb w') tip')) = modified rep /\
    tree <$> rev (revwalk (size (odb w')) (odb w') tip') = [10%N; 11%N; 12%N; 13%N].
Proof.
  destruct (run Examples.pool "./repo" Examples.opts_keep Examples.repo)
    as [[[rep|]|e] w'] eqn:E1;
    [|exfalso; revert E1; vm_compute; discriminate..].
  destruct (destination_history Examples.pool "./repo" Examples.opts_keep
              Examples.repo w' rep 4%N E1
              ltac:(vm_compute; discriminate) ltac:(vm_compute; reflexivity)
              ltac:(vm_compute; reflexivity) linear_repo)
    as (tip' & c0 & cs & survivors & H1 & _ & Hall & H2 & Hl & H3 & H4 & _).
  assert (E : c0 :: cs = [Examples.c0; Examples.c1; Examples.c2; Examples.c3])
    by (rewrite <- H1; vm_compute; reflexivity).
  injection E as -> ->.
  rewrite (Hall eq_refl coherent_repo) in H4.
  exists rep, w', tip'.
  split; [reflexivity|]. split; [exact H2|]. split; [exact Hl|]. split; [exact H3|].
  rewrite H4. vm_compute. reflexivity.
Defined.




(** X13.  After a completed run with [keepAuthor] on a branch whose history
    is complete and has no merge commit, every commit of the destination
    history has the two signatures of the source commit it is the rewrite
    of: name, email address, instant and offset, also when [changeTime] is
    on.  The source commits rewritten are the first one and, in the order
    of the source history, [survivors]: all the later ones when no write is
    refused and the tree of every commit whose diff can be computed can be
    read. *)
Theorem destination_keeps_signatures
    (authors : list Author) (repositoryName : string) (options : Opts)
    (w w' : World) (rep : Report) (tip : Oid) :
  run authors repositoryName options w = (Ok (Some rep), w') ->
  default false (keepAuthor options) = true ->
  default "master" (branch options) <> "" ->
  refs w !! default "master" (branch options) = Some tip ->
  rooted (size (odb w)) (odb w) tip = true ->
  linear w tip ->
  exists tip' c0 cs survivors,
    rev (revwalk (size (odb w)) (odb w) tip) = c0 :: cs /\
    sublist survivors cs /\
    (faults w = [] -> coherent w -> survivors = cs) /\
    refs w' !! newBranchName (default "master" (branch options)) = Some tip' /\
    linear w' tip' /\
    Forall2 (fun c c' => author c' = author c /\ committer c' = committer c)
      (c0 :: survivors)
      (rev (revwalk (size (odb w')) (odb w') tip')).
Proof.
  intros H Hk Hb Ht Hroot Hlin.
  destruct (run_history authors repositoryName options w rep w' tip H Hb Ht Hroot)
    as (c0 & cs & survivors & c0' & created & tip' & Ew & (Hs & _ & Hall) & Hd0 & Hf
        & Htip & Ewalk & Hm & Hlin').
  rewrite Hk in *.
  exists tip', c0, cs, survivors. rewrite Ewalk.
  split; [done|]. split; [done|]. split; [done|]. split; [done|].
  split; [by apply Hlin'|].
  assert (Hkeep : forall subst c c',
             rewritten_data authors (default false (changeTime options)) true subst c
               (data c') ->
             author c' = author c /\ committer c' = committer c).
  { intros subst c c' (a & sa & sc & _ & Hsa & Hsc & Eda & Edc & _).
    injection Hsa as <-. injection Hsc as <-. done. }
  constructor; [by eapply Hkeep|].
  eapply Forall2_impl; [exact Hf|]. intros c c'. apply Hkeep.
Qed.

(** On the example repository. *)
Lemma destination_keeps_signatures_witness :
  exists rep w' tip',
    run Examples.pool "./repo" Examples.opts_keep Examples.repo = (Ok (Some rep), w') /\
    refs w' !! "recommited/master" = Some tip' /\
    Forall2 (fun c c' => author c' = author c /\ committer c' = committer c)
      [Examples.c0; Examples.c1; Examples.c2; Examples.c3]
      (rev (revwalk (size (odb w')) (odb w') tip')).
Proof.
  destruct (run Examples.pool "./repo" Examples.opts_keep Examples.repo)
    as [[[rep|]|e] w'] eqn:E1;
    [|exfalso; revert E1; vm_compute; discriminate..].
  destruct (destination_keeps_signatures Examples.pool "./repo" Examples.opts_keep
              Examples.repo w' rep 4%N E1 eq_refl
              ltac:(vm_compute; discriminate) ltac:(vm_compute; reflexivity)
              ltac:(vm_compute; reflexivity) linear_repo)
    as (tip' & c0 & cs & survivors & H1 & _ & Hall & H2 & _ & H3).
  assert (E : c0 :: cs = [Examples.c0; Examples.c1; Examples.c2; Examples.c3])
    by (rewrite <- H1; vm_compute; reflexivity).
  injection E as -> ->.
  rewrite (Hall eq_refl coherent_repo) in H3.
  exists rep, w', tip'.
  split; [reflexivity|]. split; [exact H2|]. exact H3.
Defined.

Lemma Forall_zip_with_records (P : CommitStats -> Prop) survivors created :
  Forall2 (fun c c' => P (record_of c c')) survivors created ->
  Forall P (zip_with record_of survivors created).
Proof. induction 1; simpl; by constructor. Qed.

(** The records of a completed run all have a property the rewrites
    give them. *)
Lemma run_records authors repositoryName options w rep w' (P : CommitStats -> Prop) :
  run authors repositoryName options w = (Ok (Some rep), w') ->
  (forall subst c c',
      rewritten_data authors (default false (changeTime options))
        (default false (keepAuthor options)) subst c (data c') ->
      P (record_of c c')) ->
  exists records,
    Forall P records /\
    rep = mkReport (length records) (commitsByAuthors records).1
            (commitsByAuthors records).2.
Proof.
  intros H HP.
  apply run_created in H
    as (ob & tip0 & c0 & cs & survivors & c0' & created & _ & _ & _ & _ & _ & Hd0
        & _ & Hf & _ & _ & _ & _ & _ & _ & ->).
  eexists. split; [|done].
  constructor; [by eapply HP|].
  apply Forall_zip_with_records. eapply Forall2_impl; [exact Hf|].
  intros c c'. apply HP.
Qed.

(** Records whose two sides are equal are counted alike on both sides. *)
Lemma count_fold_ext (l : list CommitStats) (m : gmap string nat) :
  Forall (fun r => new r = old r) l ->
  foldl (fun m c => count_author (stat_author (new c)) m) m l
  = foldl (fun m c => count_author (stat_author (old c)) m) m l.
Proof.
  intros H. revert m. induction H as [|r l E _ IH]; intros m; [done|].
  simpl. by rewrite E, IH.
Qed.

(** X14.  With [keepAuthor], the summary of a completed run shows the same
    names with the same counts before and after. *)
Theorem summary_unchanged_with_keepAuthor
    (authors : list Author) (repositoryName : string) (options : Opts)
    (w w' : World) (rep : Report) :
  run authors repositoryName options w = (Ok (Some rep), w') ->
  default false (keepAuthor options) = true ->
  by_new rep = by_old rep.
Proof.
  intros H Hk.
  destruct (run_records authors repositoryName options w rep w'
              (fun r => new r = old r) H) as (records & Hr & ->).
  - rewrite Hk. intros subst c c' (a & sa & sc & _ & Hsa & _ & Eda & _).
    injection Hsa as <-. unfold record_of, commitStats, author. simpl.
    by rewrite Eda.
  - simpl. unfold commitsByAuthors. rewrite commitsByAuthors_sides. simpl.
    by apply count_fold_ext.
Qed.

(** On the example repository. *)
Lemma summary_unchanged_with_keepAuthor_witness :
  exists rep w',
    run Examples.pool "./repo" Examples.opts_keep Examples.repo = (Ok (Some rep), w') /\
    by_new rep = by_old rep.
Proof.
  destruct (run Examples.pool "./repo" Examples.opts_keep Examples.repo)
    as [[[rep|]|e] w'] eqn:E1;
    [|exfalso; revert E1; vm_compute; discriminate..].
  exists rep, w'. split; [reflexivity|].
  exact (summary_unchanged_with_keepAuthor Examples.pool "./repo" Examples.opts_keep
           Examples.repo w' rep E1 eq_refl).
Defined.



(** ** What a run leaves alone *)

(** X16.  Whatever its outcome, a run leaves every object of the repository
    in place and unchanged, and every branch pointer other than the
    destination [recommited/<branch>] where it was: the source branch and
    its remote-tracking branch in particular.  Every such branch with a
    complete history reads the same after the run as before.  (The
    checkout of the destination, which the source does not await, is taken
    to have completed before the first commit is amended.) *)
Theorem run_touches_only_destination
    (authors : list Author) (repositoryName : string) (options : Opts) (w : World) :
  odb w ⊆ odb (world_after (run authors repositoryName options) w) /\
  (forall n, n <> newBranchName (default "master" (branch options)) ->
             refs (world_after (run authors repositoryName options) w) !! n
             = refs w !! n) /\
  refs (world_after (run authors repositoryName options) w)
    !! default "master" (branch options)
  = refs w !! default "master" (branch options) /\
  refs (world_after (run authors repositoryName options) w)
    !! ("origin/" +:+ default "master" (branch options))
  = refs w !! ("origin/" +:+ default "master" (branch options)) /\
  (forall n tip,
      n <> newBranchName (default "master" (branch options)) ->
      refs w !! n = Some tip -> rooted (size (odb w)) (odb w) tip = true ->
      revwalk (size (odb (world_after (run authors repositoryName options) w)))
        (odb (world_after (run authors repositoryName options) w)) tip
      = revwalk (size (odb w)) (odb w) tip).
Proof.
  unfold world_after.
  destruct (run authors repositoryName options w) as [r w'] eqn:E. simpl.
  apply run_any in E as (Ho & _ & _ & Hr).
  destruct (newBranchName_fresh (default "master" (branch options))) as [H1 H2].
  split; [done|]. split; [done|].
  split; [apply Hr; congruence|]. split; [apply Hr; congruence|].
  intros n tip _ _ Hroot.
  apply (revwalk_stable _ _ _ _ _ Hroot); [by apply map_subseteq_size|done].
Qed.

(** ** Runs that go through *)

Lemma fmap_rev {A B} (f : A -> B) (l : list A) : f <$> rev l = rev (f <$> l).
Proof.
  induction l as [|x l IH]; [done|]. simpl. by rewrite fmap_app, IH.
Qed.



(** X18.  The early exit of lines 107-110 is never taken: a run either
    throws or goes through to the summary (no reference having the empty
    name). *)
Theorem early_exit_unreachable
    (authors : list Author) (repositoryName : string) (options : Opts) (w : World) :
  refs w !! "" = None ->
  outcome (run authors repositoryName options) w <> Ok None.
Proof.
  intros Hempty. unfold outcome, run, bind.
  destruct (resolveBranch _ w) as [[b|e] w1] eqn:E1; [|done].
  apply resolveBranch_inv in E1 as [-> [-> Hb]].
  assert (Hne : default "master" (branch options) <> "").
  { intros E. rewrite E, Hempty in Hb. by apply is_Some_None in Hb. }
  rewrite (findOriginalBranch_local _ w Hb Hne).
  rewrite bool_decide_false by done.
  destruct (getCommitsUntil _ w) as [[found|e] w1]; [|done].
  destruct (rev found) as [|c0 cs].
  { by destruct (materialize_none (newBranchName (default "master" (branch options))) w1)
      as (e & wm & -> & _). }
  destruct (materialize _ (Some c0) w1) as [[nb|e] wm]; [|done].
  destruct (amendFirstCommit authors _ _ (Some c0) wm) as [[r0|e] wa]; [|done].
  by destruct (reduce _ cs [] wa) as [[news|e] w3].
Qed.

(** On the example repository. *)
Lemma early_exit_unreachable_witness :
  refs Examples.repo !! "" = None /\
  outcome (run Examples.pool "./repo" Examples.opts_keep) Examples.repo <> Ok None.
Proof.
  assert (H : refs Examples.repo !! "" = None) by (vm_compute; reflexivity).
  split; [exact H|].
  exact (early_exit_unreachable Examples.pool "./repo" Examples.opts_keep
           Examples.repo H).
Defined.

(** ** The first commit is not protected *)






(** ** What a run that throws leaves behind *)

(** A step that rejects has consumed random values at most. *)
Lemma recommit_err_same authors changeTime keepAuthor commits c w e w' :
  recommit authors changeTime keepAuthor commits c w = (Err e, w') ->
  same_repository w w'.
Proof.
  unfold recommit, bind, lift, try_catch, ret.
  destruct (determineAuthorForCommit authors c w) as [[a|e1] w1] eqn:E;
    pose proof (determineAuthorForCommit_faults authors c w _ w1 E) as Ef;
    apply determineAuthorForCommit_frame_any in E as (Er & Eh & Eo & Et & Ed);
    assert (Hs : same_repository w w1) by done;
    [|by intros [= _ <-]].
  destruct (authorSignature changeTime keepAuthor a c); [|by intros [= _ <-]].
  destruct (commiterSignature changeTime keepAuthor a c); [|by intros [= _ <-]].
  by destruct (attempt commits c _ _ w1) as [[?|?] ?].
Qed.

(** Whatever the outcome of a fold, [HEAD] stays on its branch, and the
    branch keeps a commit. *)
Lemma reduce_keeps_head authors changeTime keepAuthor l commits w r w' :
  reduce (recommit authors changeTime keepAuthor) l commits w = (r, w') ->
  HEAD w' = HEAD w /\ (is_Some (refs w !! HEAD w) -> is_Some (refs w' !! HEAD w')).
Proof.
  revert commits w. induction l as [|c rest IH]; intros commits w; simpl.
  - by intros [= _ <-].
  - unfold bind.
    destruct (recommit authors changeTime keepAuthor commits c w)
      as [[acc1|e] w1] eqn:E.
    + intros H. apply IH in H as [Eh Hs].
      apply recommit_step in E as (_ & [(_ & Er & Eh1 & _)|(r1 & _ & _ & _ & Eh1 & Et)]).
      * split; [congruence|]. intros Hw. apply Hs. by rewrite Er, Eh1.
      * split; [congruence|]. intros _. apply Hs. by rewrite Et.
    + intros [= _ <-]. apply recommit_err_same in E as (Er & Eh & _).
      by rewrite Er, Eh.
Qed.

(** The seed step likewise. *)
Lemma amendFirstCommit_keeps_head authors changeTime keepAuthor c w r w' :
  amendFirstCommit authors changeTime keepAuthor (Some c) w = (r, w') ->
  HEAD w' = HEAD w /\ (is_Some (refs w !! HEAD w) -> is_Some (refs w' !! HEAD w')).
Proof.
  destruct r as [r|e].
  - intros H. apply amendFirstCommit_head in H as [Hp Eh]. split; [done|].
    intros _. unfold parent_of in Hp. simpl in Hp. by rewrite Hp.
  - unfold amendFirstCommit, bind, lift, ret.
    destruct (determineAuthorForCommit authors c w) as [[a|e1] w1] eqn:E;
      apply determineAuthorForCommit_frame_any in E as (Er & Eh & _);
      [|intros [= _ <-]; by rewrite Er, Eh].
    destruct (authorSignature changeTime keepAuthor a c) as [sa|];
      [|intros [= _ <-]; by rewrite Er, Eh].
    destruct (commiterSignature changeTime keepAuthor a c) as [sc|];
      [|intros [= _ <-]; by rewrite Er, Eh].
    destruct (getTree c w1) as [[t|e2] w2] eqn:E2;
      apply getTree_inv in E2 as [-> E2];
      [|intros [= _ <-]; by rewrite Er, Eh].
    destruct (amend c "HEAD" sa sc (message c) t w1) as [[i|e3] w3] eqn:E3; [done|].
    apply amend_inv in E3. intros [= _ <-].
    destruct E3 as [->|[_ ->]]; simpl; by rewrite Er, Eh.
Qed.

(** X21.  Nothing is rolled back.  Once the source branch has been resolved
    and its tip found in the repository, no reference name conflicting
    with the name of the destination branch, the destination branch is
    created and checked out, and it stays so whatever happens next: whether
    the run goes through, or throws at the first commit or at any later
    one, [HEAD] is on [recommited/<branch>] afterwards and that branch
    exists.  (The checkout, which the source does not await, is taken to
    have completed.) *)
Theorem destination_stays_checked_out
    (authors : list Author) (repositoryName : string) (options : Opts)
    (w : World) (tip : Oid) :
  default "master" (branch options) <> "" ->
  refs w !! default "master" (branch options) = Some tip ->
  is_Some (odb w !! tip) ->
  no_name_conflict (newBranchName (default "master" (branch options))) w ->
  HEAD (world_after (run authors repositoryName options) w)
  = newBranchName (default "master" (branch options)) /\
  is_Some (refs (world_after (run authors repositoryName options) w)
             !! newBranchName (default "master" (branch options))).
Proof.
  intros Hb Ht [d Hd] Hnc. unfold world_after, run, bind.
  set (b := default "master" (branch options)) in *.
  set (dest := newBranchName b) in *.
  assert (E1 : resolveBranch b w = (Ok b, w)).
  { unfold resolveBranch, bind, getBranch, resolve, ret, toString. by rewrite Ht. }
  rewrite E1, (findOriginalBranch_local b w) by (by rewrite ?Ht).
  rewrite bool_decide_false by done.
  unfold getCommitsUntil. rewrite Ht.
  destruct (rev (revwalk (size (odb w)) (odb w) tip)) as [|c0 cs] eqn:Ew.
  { exfalso. apply (f_equal (@rev Commit)) in Ew. rewrite rev_involutive in Ew.
    simpl in Ew. destruct (size (odb w)) as [|n] eqn:Es.
    - apply map_size_empty_iff in Es. rewrite Es in Hd. by rewrite lookup_empty in Hd.
    - simpl in Ew. by rewrite Hd in Ew. }
  destruct (materialize_any dest c0 w) as (wm & -> & Erm & Ehm & _).
  assert (Hm : is_Some (refs wm !! HEAD wm)) by (by rewrite Ehm, Erm, lookup_insert_eq).
  destruct (amendFirstCommit authors _ _ (Some c0) wm) as [[r0|e] wa] eqn:Ea;
    apply amendFirstCommit_keeps_head in Ea as [Eha Hsa]; specialize (Hsa Hm).
  2: { simpl. rewrite Eha, Ehm in *. done. }
  destruct (reduce _ cs [] wa) as [[news|e] w3] eqn:E5;
    apply reduce_keeps_head in E5 as [Eh5 Hs5]; specialize (Hs5 Hsa);
    simpl; rewrite Eh5, Eha, Ehm in *; done.
Qed.

(** On the example repository whose third commit has no diff: the run
    throws, and [HEAD] is on the destination branch. *)
Lemma destination_stays_checked_out_witness :
  outcome (run Examples.pool "./repo" Examples.opts_keep) Examples.repo_broken_diff
  = Err (GitError "diff cannot be computed") /\
  HEAD (world_after (run Examples.pool "./repo" Examples.opts_keep)
          Examples.repo_broken_diff) = "recommited/master" /\
  is_Some (refs (world_after (run Examples.pool "./repo" Examples.opts_keep)
                   Examples.repo_broken_diff) !! "recommited/master").
Proof.
  split; [vm_compute; reflexivity|].
  exact (destination_stays_checked_out Examples.pool "./repo" Examples.opts_keep
           Examples.repo_broken_diff 4%N
           ltac:(vm_compute; discriminate) ltac:(vm_compute; reflexivity)
           ltac:(vm_compute; by eexists) no_name_conflict_repo).
Defined.

(** ** Running again *)

(** A complete history stays complete with more fuel and more objects. *)
Lemma rooted_mono n objs tip n' objs' :
  rooted n objs tip = true -> (n <= n')%nat -> objs ⊆ objs' ->
  rooted n' objs' tip = true.
Proof.
  intros Hr Hn Hsub. revert tip n' Hr Hn.
  induction n as [|n IH]; intros tip n' Hr Hn; [done|].
  destruct n' as [|n']; [lia|]. simpl in *.
  destruct (objs !! tip) as [d|] eqn:Hd; [|done].
  rewrite (lookup_weaken _ _ _ _ Hd Hsub).
  destruct (obj_parents d) as [|p ps]; [done|].
  apply IH; [done|lia].
Qed.

(** A completed run in which no write can be refused leaves a state in
    which none can. *)
Lemma run_faults authors repositoryName options w rep w' :
  faults w = [] ->
  run authors repositoryName options w = (Ok (Some rep), w') -> faults w' = [].
Proof.
  intros Hf H.
  apply run_stages in H
    as (ob & tip & c0 & cs & wm & r0 & wa & news & Hb & Ef & Hne & Ht & Ew & Em & Ea & Er
        & ->).
  destruct (materialize_any (newBranchName (default "master" (branch options))) c0 w)
    as (wm0 & Em0 & _ & _ & _ & _ & _ & _ & Efm).
  rewrite Em in Em0. injection Em0 as <-.
  eapply reduce_faults; [|exact Er].
  eapply amendFirstCommit_faults; [|exact Ea]. congruence.
Qed.

(** X22.  Running again changes nothing to the content.  When a run in
    which no write is refused has completed on a branch with a complete
    history and a second run on the repository it left completes too, the
    destination history after the second run has the trees and the
    messages of the destination history after the first one, commit by
    commit, and the two summaries count the same number of commits. *)
Theorem second_run_same_content
    (authors : list Author) (repositoryName : string) (options : Opts)
    (w w' w'' : World) (rep rep' : Report) (tip : Oid) :
  run authors repositoryName options w = (Ok (Some rep), w') ->
  run authors repositoryName options w' = (Ok (Some rep'), w'') ->
  default "master" (branch options) <> "" ->
  refs w !! default "master" (branch options) = Some tip ->
  rooted (size (odb w)) (odb w) tip = true ->
  faults w = [] ->
  exists tip' tip'',
    refs w' !! newBranchName (default "master" (branch options)) = Some tip' /\
    refs w'' !! newBranchName (default "master" (branch options)) = Some tip'' /\
    tree <$> revwalk (size (odb w'')) (odb w'') tip''
    = tree <$> revwalk (size (odb w')) (odb w') tip' /\
    message <$> revwalk (size (odb w'')) (odb w'') tip''
    = message <$> revwalk (size (odb w')) (odb w') tip' /\
    modified rep' = modified rep.
Proof.
  intros H1 H2 Hb Ht Hroot Hfl.
  pose proof (run_faults _ _ _ _ _ _ Hfl H1) as Hfl'.
  pose proof (run_any _ _ _ _ _ _ H1) as (Ho & Etr & _ & Hr).
  destruct (newBranchName_fresh (default "master" (branch options))) as [Hd1 _].
  assert (Ht' : refs w' !! default "master" (branch options) = Some tip)
    by (rewrite Hr by congruence; done).
  assert (Hsz : (size (odb w) <= size (odb w'))%nat) by (by apply map_subseteq_size).
  pose proof (rooted_mono _ _ _ _ _ Hroot Hsz Ho) as Hroot'.
  pose proof (revwalk_stable _ _ _ _ _ Hroot Hsz Ho) as Ewalk0.
  destruct (run_history authors repositoryName options w rep w' tip H1 Hb Ht Hroot)
    as (c0 & cs & s1 & c1 & created1 & tip' & Ew1 & (_ & Hx1 & _) & Hd1' & Hf1 & Htip1
        & Ewalk1 & Hm1 & _).
  rewrite (Hx1 Hfl) in *. clear Hx1.
  destruct (run_history authors repositoryName options w' rep' w'' tip H2 Hb Ht' Hroot')
    as (c0' & cs' & s2 & c2 & created2 & tip'' & Ew2 & (_ & Hx2 & _) & Hd2' & Hf2 & Htip2
        & Ewalk2 & Hm2 & _).
  rewrite (Hx2 Hfl') in *. clear Hx2.
  rewrite Ewalk0, Ew1 in Ew2. injection Ew2 as <- <-. rewrite Etr in *.
  set (kept := filter (fun c => tree c ∈ trees w) cs) in *.
  assert (Et : tree <$> (c2 :: created2) = tree <$> (c1 :: created1)).
  { destruct Hd1' as (? & ? & ? & _ & _ & _ & _ & _ & T1 & _).
    destruct Hd2' as (? & ? & ? & _ & _ & _ & _ & _ & T2 & _).
    rewrite !fmap_cons. f_equal; [unfold tree in *; congruence|].
    rewrite (Forall2_fmap_eq tree tree kept created2),
      (Forall2_fmap_eq tree tree kept created1); [done|..];
      (eapply Forall2_impl; [eassumption|]);
      by intros c c' (? & ? & ? & _ & _ & _ & _ & _ & ? & _). }
  assert (Em : message <$> (c2 :: created2) = message <$> (c1 :: created1)).
  { destruct Hd1' as (? & ? & ? & _ & _ & _ & _ & _ & _ & M1).
    destruct Hd2' as (? & ? & ? & _ & _ & _ & _ & _ & _ & M2).
    rewrite !fmap_cons. f_equal; [unfold message in *; congruence|].
    rewrite (Forall2_fmap_eq
               (fun c => JS.replace (message c) "MAKHROVYI" "AnotherOneProject")
               message kept created2),
      (Forall2_fmap_eq
         (fun c => JS.replace (message c) "MAKHROVYI" "AnotherOneProject")
         message kept created1); [done|..];
      (eapply Forall2_impl; [eassumption|]);
      by intros c c' (? & ? & ? & _ & _ & _ & _ & _ & _ & ?). }
  exists tip', tip''. split; [done|]. split; [done|].
  apply (f_equal (@rev Commit)) in Ewalk1, Ewalk2.
  rewrite rev_involutive in Ewalk1, Ewalk2. rewrite Ewalk1, Ewalk2.
  rewrite !fmap_rev, Et, Em. split; [done|]. split; [done|].
  rewrite Hm1, Hm2. apply (f_equal length) in Et. by rewrite !length_fmap in Et.
Qed.

(** On the example repository. *)
Lemma second_run_same_content_witness :
  exists rep w' rep' w'' tip' tip'',
    run Examples.pool "./repo" Samples.opts_rewrite Examples.repo = (Ok (Some rep), w') /\
    run Examples.pool "./repo" Samples.opts_rewrite w' = (Ok (Some rep'), w'') /\
    refs w' !! "recommited/master" = Some tip' /\
    refs w'' !! "recommited/master" = Some tip'' /\
    tree <$> revwalk (size (odb w'')) (odb w'') tip''
    = tree <$> revwalk (size (odb w')) (odb w') tip' /\
    modified rep' = modified rep.
Proof.
  assert (exists rep w',
             run Examples.pool "./repo" Samples.opts_rewrite Examples.repo
             = (Ok (Some rep), w') /\
             exists rep' w'',
               run Examples.pool "./repo" Samples.opts_rewrite w' = (Ok (Some rep'), w''))
    as (rep & w' & E1 & rep' & w'' & E2).
  { eexists _, _. split; [vm_compute; reflexivity|].
    eexists _, _. vm_compute. reflexivity. }
  destruct (second_run_same_content Examples.pool "./repo" Samples.opts_rewrite
              Examples.repo w' w'' rep rep' 4%N E1 E2
              ltac:(vm_compute; discriminate) ltac:(vm_compute; reflexivity)
              ltac:(vm_compute; reflexivity) eq_refl)
    as (tip' & tip'' & H1 & H2 & H3 & _ & H5).
  exists rep, w', rep', w'', tip', tip''.
  split; [exact E1|]. split; [exact E2|]. split; [exact H1|].
  split; [exact H2|]. split; [exact H3|exact H5].
Defined.

(** The condition on the writes is needed.  On the example repository
    whose object database refuses the third write, the first run leaves
    out the third commit; the second run, no write being refused any more,
    rewrites all four. *)
Lemma refused_write_changes_second_run :
  exists rep w' rep' w'',
    run Examples.pool "./repo" Examples.opts_keep Examples.repo_write_fault
    = (Ok (Some rep), w') /\
    run Examples.pool "./repo" Examples.opts_keep w' = (Ok (Some rep'), w'') /\
    modified rep = 3%nat /\ modified rep' = 4%nat.
Proof.
  eexists _, _, _, _. split; [vm_compute; reflexivity|].
  split; [vm_compute; reflexivity|]. split; reflexivity.
Qed.

(** ** What [keepAuthor] makes irrelevant *)

Lemma same_repository_refl w : same_repository w w.
Proof. by repeat split. Qed.

Lemma same_repository_eq w w' :
  same_repository w w' -> w' = set_random (random w') w.
Proof.
  destruct w, w'. unfold same_repository, set_random. simpl.
  intros (-> & -> & -> & -> & -> & ->). done.
Qed.

Lemma agree_ret {A} (a : A) : agree (ret a) (ret a).
Proof. by intros w1 w2 H. Qed.

Lemma agree_bind {A B} (m1 m2 : M A) (k1 k2 : A -> M B) :
  agree m1 m2 -> (forall a, agree (k1 a) (k2 a)) -> agree (bind m1 k1) (bind m2 k2).
Proof.
  intros Hm Hk w1 w2 H. unfold bind. destruct (Hm w1 w2 H) as [E R].
  destruct (m1 w1) as [[a1|e1] w1'], (m2 w2) as [[a2|e2] w2']; simpl in *;
    try discriminate.
  - injection E as <-. by apply Hk.
  - by injection E as ->.
Qed.

Lemma agree_bind_any {A B} (m1 m2 : M A) (k1 k2 : A -> M B) :
  agree_up_to_result m1 m2 -> (forall a1 a2, agree (k1 a1) (k2 a2)) ->
  agree (bind m1 k1) (bind m2 k2).
Proof.
  intros Hm Hk w1 w2 H. unfold bind. destruct (Hm w1 w2 H) as [E R].
  destruct (m1 w1) as [[a1|e1] w1'], (m2 w2) as [[a2|e2] w2']; simpl in *;
    try done.
  - by apply Hk.
  - by subst.
Qed.

Lemma agree_try_catch {A} (m1 m2 : M A) (h1 h2 : Error -> M A) :
  agree m1 m2 -> (forall e, agree (h1 e) (h2 e)) ->
  agree (try_catch m1 h1) (try_catch m2 h2).
Proof.
  intros Hm Hh w1 w2 H. unfold try_catch. destruct (Hm w1 w2 H) as [E R].
  destruct (m1 w1) as [[a1|e1] w1'], (m2 w2) as [[a2|e2] w2']; simpl in *;
    try discriminate.
  - done.
  - injection E as <-. by apply Hh.
Qed.

(** A computation that does not look at the random source agrees with
    itself. *)
Lemma agree_oblivious {A} (m : M A) :
  (forall w r, m (set_random r w) = ((m w).1, set_random r (m w).2)) ->
  agree m m.
Proof.
  intros Hm w1 w2 H. rewrite (same_repository_eq w1 w2 H), Hm. simpl.
  split; [done|]. by repeat split.
Qed.

Ltac oblivious :=
  apply agree_oblivious; intros w r; simpl;
  repeat match goal with
         | |- context [match ?x with _ => _ end] =>
             lazymatch x with
             | context [match _ with _ => _ end] => fail
             | _ => destruct x eqn:?; simpl in *
             end
         end; try done.

Lemma agree_getCommit i : agree (getCommit i) (getCommit i).
Proof. unfold getCommit. oblivious. Qed.

Lemma agree_getHeadCommit : agree getHeadCommit getHeadCommit.
Proof. unfold getHeadCommit, getCommit. oblivious. Qed.

Lemma agree_getTree c : agree (getTree c) (getTree c).
Proof. unfold getTree. oblivious. Qed.

Lemma agree_createCommit u a cm msg t ps :
  agree (createCommit u a cm msg t ps) (createCommit u a cm msg t ps).
Proof. unfold createCommit, target_of, new_oid, refuses_write, next_write. oblivious. Qed.

Lemma agree_amend c u a cm msg t :
  agree (amend c u a cm msg t) (amend c u a cm msg t).
Proof. unfold amend, target_of, new_oid, refuses_write, next_write. oblivious. Qed.

Lemma agree_resolveBranch b : agree (resolveBranch b) (resolveBranch b).
Proof. unfold resolveBranch, bind, getBranch, resolve, ret. oblivious. Qed.

Lemma agree_findOriginalBranch b : agree (findOriginalBranch b) (findOriginalBranch b).
Proof.
  unfold findOriginalBranch.
  apply agree_bind.
  - apply agree_try_catch; [|intros e; apply agree_ret].
    apply agree_bind; [apply agree_resolveBranch|intros a; apply agree_ret].
  - intros o. destruct (falsy o); [|apply agree_ret].
    apply agree_try_catch; [|intros e; apply agree_ret].
    apply agree_bind; [apply agree_resolveBranch|intros a; apply agree_ret].
Qed.

Lemma agree_getCommitsUntil b : agree (getCommitsUntil b) (getCommitsUntil b).
Proof. unfold getCommitsUntil. oblivious. Qed.

Lemma agree_materialize n c : agree (materialize n c) (materialize n c).
Proof.
  unfold materialize, bind, try_catch, createBranch, getBranch, delete_ref,
    checkoutBranch, ret.
  oblivious.
Qed.

Lemma agree_lift {A} (r : Result A) : agree (lift r) (lift r).
Proof. by intros w1 w2 H. Qed.

Lemma agree_attempt commits c sa sc :
  agree (attempt commits c sa sc) (attempt commits c sa sc).
Proof.
  unfold attempt.
  apply agree_bind.
  { destruct (tail commits); [apply agree_getCommit|apply agree_getHeadCommit]. }
  intros cur. apply agree_bind; [apply agree_getTree|].
  intros t. apply agree_bind; [apply agree_createCommit|].
  intros i. apply agree_ret.
Qed.

(** The selection, for two pools and two states of the same repository:
    both selections are made, or both reject on the same diff error. *)
Lemma agree_determineAuthorForCommit authors1 authors2 c :
  agree_up_to_result (determineAuthorForCommit authors1 c)
    (determineAuthorForCommit authors2 c).
Proof.
  intros w1 w2 H.
  destruct (determineAuthorForCommit authors1 c w1) as [r1 w1'] eqn:E1.
  destruct (determineAuthorForCommit authors2 c w2) as [r2 w2'] eqn:E2. simpl.
  pose proof (determineAuthorForCommit_frame_any _ _ _ _ _ E1) as F1.
  pose proof (determineAuthorForCommit_frame_any _ _ _ _ _ E2) as F2.
  pose proof (determineAuthorForCommit_faults _ _ _ _ _ E1) as G1.
  pose proof (determineAuthorForCommit_faults _ _ _ _ _ E2) as G2.
  split.
  - destruct H as (_ & _ & _ & _ & Hd & _).
    revert E1 E2. unfold determineAuthorForCommit, bind, getCommitFiles, throw.
    rewrite Hd. destruct (diffs w1 !! cid c) as [v|]; [|by intros [= <- _] [= <- _]].
    destruct (v !! 0%nat) as [files|]; [|by intros [= <- _] [= <- _]].
    unfold getRandomAuthor.
    repeat case_match;
      repeat match goal with
             | |- context [randomSelect ?arr ?w] =>
                 let o := fresh "o" in let w' := fresh "w" in
                 destruct (randomSelect_total arr w) as (o & w' & ->)
             end;
      by intros [= <- _] [= <- _].
  - destruct H as (Hr & Hh & Ho & Ht & Hd & Hf).
    destruct F1 as (? & ? & ? & ? & ?), F2 as (? & ? & ? & ? & ?).
    repeat split; congruence.
Qed.

Lemma agree_recommit authors1 authors2 changeTime commits c :
  agree (recommit authors1 changeTime true commits c)
    (recommit authors2 changeTime true commits c).
Proof.
  unfold recommit.
  apply agree_bind_any; [apply agree_determineAuthorForCommit|].
  intros a1 a2. simpl.
  apply agree_bind; [apply agree_lift|]. intros sa.
  apply agree_bind; [apply agree_lift|]. intros sc.
  apply agree_try_catch; [apply agree_attempt|intros e; apply agree_ret].
Qed.

Lemma agree_reduce authors1 authors2 changeTime l : forall commits,
  agree (reduce (recommit authors1 changeTime true) l commits)
    (reduce (recommit authors2 changeTime true) l commits).
Proof.
  induction l as [|c rest IH]; intros commits; simpl; [apply agree_ret|].
  apply agree_bind; [apply agree_recommit|]. intros acc. apply IH.
Qed.

Lemma agree_amendFirstCommit authors1 authors2 changeTime c :
  agree (amendFirstCommit authors1 changeTime true c)
    (amendFirstCommit authors2 changeTime true c).
Proof.
  unfold amendFirstCommit. destruct c as [c|]; [|by intros w1 w2 H].
  apply agree_bind_any; [apply agree_determineAuthorForCommit|].
  intros a1 a2. simpl.
  apply agree_bind; [apply agree_lift|]. intros sa.
  apply agree_bind; [apply agree_lift|]. intros sc.
  apply agree_bind; [apply agree_getTree|]. intros t.
  apply agree_bind; [apply agree_amend|]. intros i. apply agree_ret.
Qed.

(** X23.  With [keepAuthor], neither the pool nor the random source has an
    influence on a run: two runs on the same repository, with two pools
    and two random sources, have the same outcome (the same summary or the
    same error) and leave the same pointers, the same [HEAD] and the same
    objects. *)
Theorem keepAuthor_ignores_pool_and_random
    (authors1 authors2 : list Author) (repositoryName : string) (options : Opts)
    (w : World) (r : list Z) :
  default false (keepAuthor options) = true ->
  outcome (run authors1 repositoryName options) w
  = outcome (run authors2 repositoryName options) (set_random r w) /\
  same_repository (world_after (run authors1 repositoryName options) w)
    (world_after (run authors2 repositoryName options) (set_random r w)).
Proof.
  intros Hk.
  assert (H : agree (run authors1 repositoryName options)
                (run authors2 repositoryName options)).
  { unfold run. rewrite Hk.
    apply agree_bind; [apply agree_resolveBranch|]. intros _.
    apply agree_bind; [apply agree_findOriginalBranch|]. intros ob.
    destruct ob as [ob|]; [|apply agree_ret].
    case_bool_decide; [apply agree_ret|].
    apply agree_bind; [apply agree_getCommitsUntil|]. intros found.
    destruct (rev found) as [|c0 cs].
    - apply agree_bind; [apply agree_materialize|]. intros _.
      apply agree_bind; [apply agree_amendFirstCommit|]. intros r0.
      apply agree_bind; [apply agree_reduce|]. intros news. apply agree_ret.
    - apply agree_bind; [apply agree_materialize|]. intros _.
      apply agree_bind; [apply agree_amendFirstCommit|]. intros r0.
      apply agree_bind; [apply agree_reduce|]. intros news. apply agree_ret. }
  apply H. by repeat split.
Qed.

(** On the example repository, with the pool of two against the empty
    pool, and another random source. *)
Lemma keepAuthor_ignores_pool_and_random_witness :
  outcome (run Examples.pool "./repo" Examples.opts_keep) Examples.repo
  = outcome (run [] "./repo" Examples.opts_keep) (set_random [7; 8; 9] Examples.repo).
Proof.
  exact (proj1 (keepAuthor_ignores_pool_and_random Examples.pool [] "./repo"
                  Examples.opts_keep Examples.repo [7; 8; 9] eq_refl)).
Defined.
